(** * Handle-based KV cache: a shallow embedding of
      practical/KV_cache/assets/{fd_token.h, detail/flat_index_map.h,
      fd_kv_cache_single.h} and of the sharded cache.

    Machine integers are modelled as [Z] with their wrap-around written
    out ([std::size_t] and [FdToken::raw_type] are 64 bits wide,
    [std::uint32_t] 32 bits, [std::uint8_t] 8 bits).  Vectors are lists
    read with [!!] and updated with [<[_:=_]>]. *)

From Stdlib Require Import ZArith Lia Bool.
From stdpp Require Import base list.

Local Open Scope Z_scope.

(** ** Fixed-width arithmetic *)

Definition wrap8 (x : Z) : Z := x mod 2 ^ 8.
Definition wrap32 (x : Z) : Z := x mod 2 ^ 32.
Definition wrap64 (x : Z) : Z := x mod 2 ^ 64.

Definition is_u8 (x : Z) : Prop := 0 <= x < 2 ^ 8.
Definition is_u32 (x : Z) : Prop := 0 <= x < 2 ^ 32.
Definition is_u64 (x : Z) : Prop := 0 <= x < 2 ^ 64.

(** ** fd_token.h : the 64-bit handle [ type:8 | generation:24 | position:32 ] *)

Module FdToken.

Definition kPositionBits : Z := 32.
Definition kGenerationBits : Z := 24.
Definition kTypeBits : Z := 8.

Definition kPositionMask : Z := Z.shiftl 1 kPositionBits - 1.
Definition kGenerationMask : Z :=
  Z.shiftl (Z.shiftl 1 kGenerationBits - 1) kPositionBits.
Definition kTypeMask : Z :=
  Z.shiftl (Z.shiftl 1 kTypeBits - 1) (kPositionBits + kGenerationBits).

Definition kNull : Z := 0.

(** [type] is a [uint8_t], [generation] and [position] are [uint32_t];
    each is widened to 64 bits, shifted (in 64 bits) and masked. *)
Definition Make (type generation position : Z) : Z :=
  let t := Z.land (wrap64 (Z.shiftl type (kPositionBits + kGenerationBits)))
                  kTypeMask in
  let g := Z.land (wrap64 (Z.shiftl generation kPositionBits))
                  kGenerationMask in
  let p := Z.land position kPositionMask in
  Z.lor (Z.lor t g) p.

Definition Type_ (token : Z) : Z :=
  wrap8 (Z.shiftr (Z.land token kTypeMask) (kPositionBits + kGenerationBits)).

Definition Generation (token : Z) : Z :=
  wrap32 (Z.shiftr (Z.land token kGenerationMask) kPositionBits).

Definition Position (token : Z) : Z :=
  wrap32 (Z.land token kPositionMask).

Definition IsNull (token : Z) : bool := token =? kNull.

End FdToken.

(** ** Bit-level facts about the codec *)

Lemma kPositionMask_ones : FdToken.kPositionMask = Z.ones 32.
Proof. reflexivity. Qed.

Lemma kGenerationMask_ones : FdToken.kGenerationMask = Z.shiftl (Z.ones 24) 32.
Proof. reflexivity. Qed.

Lemma kTypeMask_ones : FdToken.kTypeMask = Z.shiftl (Z.ones 8) 56.
Proof. reflexivity. Qed.

Lemma testbit_high (x n i : Z) :
  0 <= n -> 0 <= x < 2 ^ n -> n <= i -> Z.testbit x i = false.
Proof.
  intros Hn Hx Hi.
  rewrite <- (Z.mod_small x (2 ^ n)) by lia.
  apply Z.mod_pow2_bits_high. lia.
Qed.

(** Masking with [ones n << m] keeps exactly the bits [m .. m+n-1]. *)
Lemma testbit_land_field (x n m i : Z) :
  0 <= n -> 0 <= m -> 0 <= i ->
  Z.testbit (Z.land x (Z.shiftl (Z.ones n) m)) i =
  Z.testbit x i && (m <=? i) && (i <? m + n).
Proof.
  intros Hn Hm Hi.
  rewrite Z.land_spec, Z.shiftl_spec by lia.
  destruct (Z.leb_spec m i) as [Hle|Hlt].
  - rewrite Z.testbit_ones_nonneg by lia.
    destruct (Z.ltb_spec (i - m) n), (Z.ltb_spec i (m + n)); try lia;
      destruct (Z.testbit x i); reflexivity.
  - rewrite (Z.testbit_neg_r _ (i - m)) by lia.
    destruct (Z.testbit x i); reflexivity.
Qed.

Lemma testbit_wrap64 (x i : Z) :
  0 <= i -> Z.testbit (wrap64 x) i = Z.testbit x i && (i <? 64).
Proof.
  intros Hi. unfold wrap64.
  destruct (Z.ltb_spec i 64).
  - rewrite Z.mod_pow2_bits_low by lia. now rewrite andb_true_r.
  - rewrite Z.mod_pow2_bits_high by lia. now rewrite andb_false_r.
Qed.

(** Bit [i] of a handle built by [Make]. *)
Lemma testbit_Make (t g p i : Z) :
  is_u8 t -> is_u32 g -> is_u32 p -> 0 <= i ->
  Z.testbit (FdToken.Make t g p) i =
  if i <? 32 then Z.testbit p i
  else if i <? 56 then Z.testbit g (i - 32)
  else Z.testbit t (i - 56).
Proof.
  intros Ht Hg Hp Hi. unfold FdToken.Make.
  rewrite kPositionMask_ones, kGenerationMask_ones, kTypeMask_ones.
  change (FdToken.kPositionBits + FdToken.kGenerationBits) with 56.
  change FdToken.kPositionBits with 32.
  rewrite !Z.lor_spec, !testbit_land_field, !testbit_wrap64 by lia.
  rewrite !Z.shiftl_spec by lia.
  rewrite Z.land_spec, Z.testbit_ones_nonneg by lia.
  destruct (Z.ltb_spec i 32) as [H32|H32].
  - rewrite (Z.testbit_neg_r t), (Z.testbit_neg_r g) by lia.
    replace (0 <=? i) with true by (symmetry; apply Z.leb_le; lia).
    replace (i <? 32) with true by (symmetry; apply Z.ltb_lt; lia).
    cbn. now rewrite andb_true_r.
  - rewrite (testbit_high p 32 i) by (unfold is_u32 in Hp; lia).
    replace (32 <=? i) with true by (symmetry; apply Z.leb_le; lia).
    change (32 + 24) with 56. change (56 + 8) with 64.
    destruct (Z.ltb_spec i 56) as [H56|H56].
    + rewrite (Z.testbit_neg_r t) by lia.
      replace (i <? 64) with true by (symmetry; apply Z.ltb_lt; lia).
      cbn. now rewrite !andb_true_r, orb_false_r.
    + replace (56 <=? i) with true by (symmetry; apply Z.leb_le; lia).
      rewrite !andb_false_r, !andb_true_r. cbn.
      rewrite orb_false_r.
      destruct (Z.ltb_spec i 64) as [H64|H64].
      * now rewrite !andb_true_r, orb_false_r.
      * rewrite (testbit_high t 8) by (unfold is_u8 in Ht; lia).
        reflexivity.
Qed.

Lemma testbit_mod_pow2 (x n i : Z) :
  0 <= n -> 0 <= i -> Z.testbit (x mod 2 ^ n) i = Z.testbit x i && (i <? n).
Proof.
  intros Hn Hi.
  destruct (Z.ltb_spec i n).
  - rewrite Z.mod_pow2_bits_low by lia. now rewrite andb_true_r.
  - rewrite Z.mod_pow2_bits_high by lia. now rewrite andb_false_r.
Qed.

(** Decide every integer comparison of the goal, discarding the
    impossible combinations. *)
Ltac cmp_cases :=
  repeat match goal with
         | |- context [?a <? ?b] => destruct (Z.ltb_spec a b); try lia
         | |- context [?a <=? ?b] => destruct (Z.leb_spec a b); try lia
         end.

(** Split conjunctions only (records are left alone). *)
Ltac conj_split := repeat match goal with |- _ /\ _ => split end.

Lemma Type_Make (t g p : Z) :
  is_u8 t -> is_u32 g -> is_u32 p -> FdToken.Type_ (FdToken.Make t g p) = t.
Proof.
  intros Ht Hg Hp. apply Z.bits_inj'. intros i Hi.
  unfold FdToken.Type_, wrap8.
  rewrite kTypeMask_ones.
  change (FdToken.kPositionBits + FdToken.kGenerationBits) with 56.
  rewrite testbit_mod_pow2, Z.shiftr_spec, testbit_land_field by lia.
  rewrite testbit_Make by (assumption || lia).
  replace (i + 56 - 56) with i by lia.
  cmp_cases; rewrite ?andb_true_r, ?andb_false_r; try reflexivity.
  all: symmetry; apply (testbit_high t 8); unfold is_u8 in Ht; lia.
Qed.

Lemma Generation_Make (t g p : Z) :
  is_u8 t -> is_u32 g -> is_u32 p ->
  FdToken.Generation (FdToken.Make t g p) = g mod 2 ^ 24.
Proof.
  intros Ht Hg Hp. apply Z.bits_inj'. intros i Hi.
  unfold FdToken.Generation, wrap32.
  rewrite kGenerationMask_ones.
  change FdToken.kPositionBits with 32.
  rewrite !testbit_mod_pow2, Z.shiftr_spec, testbit_land_field by lia.
  rewrite testbit_Make by (assumption || lia).
  replace (i + 32 - 32) with i by lia.
  cmp_cases; rewrite ?andb_true_r, ?andb_false_r; reflexivity.
Qed.

Lemma Position_Make (t g p : Z) :
  is_u8 t -> is_u32 g -> is_u32 p -> FdToken.Position (FdToken.Make t g p) = p.
Proof.
  intros Ht Hg Hp. apply Z.bits_inj'. intros i Hi.
  unfold FdToken.Position, wrap32.
  rewrite kPositionMask_ones.
  rewrite testbit_mod_pow2, Z.land_spec, Z.testbit_ones_nonneg by lia.
  rewrite testbit_Make by (assumption || lia).
  cmp_cases; rewrite ?andb_true_r, ?andb_false_r; try reflexivity.
  all: symmetry; apply (testbit_high p 32); unfold is_u32 in Hp; lia.
Qed.

Lemma Make_zero (g : Z) :
  is_u32 g -> g mod 2 ^ 24 = 0 -> FdToken.Make 0 g 0 = FdToken.kNull.
Proof.
  intros Hg Hz. apply Z.bits_inj'. intros i Hi.
  rewrite testbit_Make by (unfold is_u8, is_u32 in *; lia).
  unfold FdToken.kNull. rewrite !Z.bits_0.
  cmp_cases; try reflexivity.
  assert (Hb : Z.testbit (g mod 2 ^ 24) (i - 32) = false)
    by (rewrite Hz; apply Z.bits_0).
  rewrite testbit_mod_pow2 in Hb by lia.
  replace (i - 32 <? 24) with true in Hb by (symmetry; apply Z.ltb_lt; lia).
  now rewrite andb_true_r in Hb.
Qed.

(** C10 -- the handle codec is total on its argument types and loses
    nothing but the high byte of the generation: for a [uint8_t] type, a
    [uint32_t] generation and a [uint32_t] position, [Type], [Generation]
    and [Position] of [Make t g p] are [t], [g mod 2^24] and [p], and the
    packed handle is the null handle exactly when all three fields are 0. *)
Theorem codec_fields_and_null (t g p : Z) :
  is_u8 t -> is_u32 g -> is_u32 p ->
  FdToken.Type_ (FdToken.Make t g p) = t /\
  FdToken.Generation (FdToken.Make t g p) = g mod 2 ^ 24 /\
  FdToken.Position (FdToken.Make t g p) = p /\
  (FdToken.Make t g p = FdToken.kNull <-> t = 0 /\ g mod 2 ^ 24 = 0 /\ p = 0).
Proof.
  intros Ht Hg Hp.
  pose proof (Type_Make t g p Ht Hg Hp) as HT.
  pose proof (Generation_Make t g p Ht Hg Hp) as HG.
  pose proof (Position_Make t g p Ht Hg Hp) as HP.
  repeat split; try assumption.
  - rewrite <- HT, H. reflexivity.
  - rewrite <- HG, H. reflexivity.
  - rewrite <- HP, H. reflexivity.
  - intros (-> & Hz & ->). now apply Make_zero.
Qed.

(** The codec at a generation that does not fit in 24 bits: the high
    byte is dropped, and a generation that is a multiple of 2^24 packs
    to the null handle. *)
Lemma codec_fields_and_null_witness :
  FdToken.Type_ (FdToken.Make 7 (2 ^ 24 + 5) 9) = 7 /\
  FdToken.Generation (FdToken.Make 7 (2 ^ 24 + 5) 9) = (2 ^ 24 + 5) mod 2 ^ 24 /\
  FdToken.Position (FdToken.Make 7 (2 ^ 24 + 5) 9) = 9 /\
  (FdToken.Make 7 (2 ^ 24 + 5) 9 = FdToken.kNull <->
   7 = 0 /\ (2 ^ 24 + 5) mod 2 ^ 24 = 0 /\ 9 = 0).
Proof.
  apply (codec_fields_and_null 7 (2 ^ 24 + 5) 9); unfold is_u8, is_u32; lia.
Defined.

(** ** The handle codec, from a handle to its fields and back *)

Lemma testbit_Position (h i : Z) :
  0 <= i -> Z.testbit (FdToken.Position h) i = Z.testbit h i && (i <? 32).
Proof.
  intros Hi. unfold FdToken.Position, wrap32. rewrite kPositionMask_ones.
  rewrite testbit_mod_pow2, Z.land_spec, Z.testbit_ones_nonneg by lia.
  cmp_cases; rewrite ?andb_true_r, ?andb_false_r; reflexivity.
Qed.

Lemma testbit_Generation (h i : Z) :
  0 <= i ->
  Z.testbit (FdToken.Generation h) i = Z.testbit h (i + 32) && (i <? 24).
Proof.
  intros Hi. unfold FdToken.Generation, wrap32. rewrite kGenerationMask_ones.
  change FdToken.kPositionBits with 32.
  rewrite testbit_mod_pow2, Z.shiftr_spec, testbit_land_field by lia.
  cmp_cases; rewrite ?andb_true_r, ?andb_false_r; reflexivity.
Qed.

Lemma testbit_Type (h i : Z) :
  0 <= i -> Z.testbit (FdToken.Type_ h) i = Z.testbit h (i + 56) && (i <? 8).
Proof.
  intros Hi. unfold FdToken.Type_, wrap8. rewrite kTypeMask_ones.
  change (FdToken.kPositionBits + FdToken.kGenerationBits) with 56.
  rewrite testbit_mod_pow2, Z.shiftr_spec, testbit_land_field by lia.
  cmp_cases; rewrite ?andb_true_r, ?andb_false_r; reflexivity.
Qed.

Lemma Generation_range (h : Z) : 0 <= FdToken.Generation h < 2 ^ 24.
Proof.
  assert (He : FdToken.Generation h = FdToken.Generation h mod 2 ^ 24).
  { apply Z.bits_inj'. intros i Hi.
    rewrite testbit_mod_pow2, testbit_Generation by lia.
    now rewrite <- andb_assoc, andb_diag. }
  rewrite He. apply Z.mod_pos_bound. lia.
Qed.

Lemma Make_of_fields (h : Z) :
  is_u64 h ->
  FdToken.Make (FdToken.Type_ h) (FdToken.Generation h) (FdToken.Position h) = h.
Proof.
  intros Hx. apply Z.bits_inj'. intros i Hi.
  pose proof (Generation_range h) as HG.
  assert (HT : is_u8 (FdToken.Type_ h)) by (apply Z.mod_pos_bound; lia).
  assert (HP : is_u32 (FdToken.Position h)) by (apply Z.mod_pos_bound; lia).
  assert (HG32 : is_u32 (FdToken.Generation h)) by (unfold is_u32; lia).
  rewrite testbit_Make by auto.
  destruct (Z.ltb_spec i 32); [|destruct (Z.ltb_spec i 56)].
  - rewrite testbit_Position by lia.
    cmp_cases; now rewrite andb_true_r.
  - rewrite testbit_Generation by lia. replace (i - 32 + 32) with i by lia.
    cmp_cases; now rewrite andb_true_r.
  - rewrite testbit_Type by lia. replace (i - 56 + 56) with i by lia.
    cmp_cases; rewrite ?andb_true_r, ?andb_false_r; try reflexivity.
    symmetry. apply (testbit_high h 64); unfold is_u64 in Hx; lia.
Qed.

(** X1 -- [Make] and the three accessors are inverse to each other: a
    64-bit handle is rebuilt by [Make] from its [Type], [Generation] and
    [Position], which are an 8-bit, a 24-bit and a 32-bit number; so two
    handles with the same three fields are the same handle, and [Make]
    maps different triples of such numbers to different handles. *)
Theorem handle_rebuilt_from_fields (h : Z) :
  is_u64 h ->
  FdToken.Make (FdToken.Type_ h) (FdToken.Generation h) (FdToken.Position h) = h /\
  is_u8 (FdToken.Type_ h) /\ 0 <= FdToken.Generation h < 2 ^ 24 /\
  is_u32 (FdToken.Position h) /\
  (forall h', is_u64 h' ->
      FdToken.Type_ h' = FdToken.Type_ h ->
      FdToken.Generation h' = FdToken.Generation h ->
      FdToken.Position h' = FdToken.Position h -> h' = h) /\
  (forall t g p t' g' p',
      is_u8 t -> 0 <= g < 2 ^ 24 -> is_u32 p ->
      is_u8 t' -> 0 <= g' < 2 ^ 24 -> is_u32 p' ->
      FdToken.Make t g p = FdToken.Make t' g' p' -> t = t' /\ g = g' /\ p = p').
Proof.
  intros Hh.
  assert (HT : forall x, is_u8 (FdToken.Type_ x))
    by (intros x; apply Z.mod_pos_bound; lia).
  assert (HP : forall x, is_u32 (FdToken.Position x))
    by (intros x; apply Z.mod_pos_bound; lia).
  pose proof Make_of_fields as Hback.
  split; [auto|]. split; [auto|]. split; [apply Generation_range|].
  split; [auto|]. split.
  - intros h' Hh' ET EG EP.
    rewrite <- (Hback h' Hh'), <- (Hback h Hh). now rewrite ET, EG, EP.
  - intros t g p t' g' p' Ht Hg Hp Ht' Hg' Hp' E.
    assert (Hg32 : is_u32 g) by (unfold is_u32; lia).
    assert (Hg32' : is_u32 g') by (unfold is_u32; lia).
    pose proof (Type_Make t g p Ht Hg32 Hp) as E1.
    pose proof (Generation_Make t g p Ht Hg32 Hp) as E2.
    pose proof (Position_Make t g p Ht Hg32 Hp) as E3.
    rewrite E in E1, E2, E3.
    rewrite (Type_Make t' g' p' Ht' Hg32' Hp') in E1.
    rewrite (Generation_Make t' g' p' Ht' Hg32' Hp') in E2.
    rewrite (Position_Make t' g' p' Ht' Hg32' Hp') in E3.
    rewrite (Z.mod_small g), (Z.mod_small g') in E2 by lia. auto.
Qed.

Lemma handle_rebuilt_from_fields_witness :
  let h := 0x0500000200000003 in
  FdToken.Make (FdToken.Type_ h) (FdToken.Generation h) (FdToken.Position h) = h /\
  is_u8 (FdToken.Type_ h) /\ 0 <= FdToken.Generation h < 2 ^ 24 /\
  is_u32 (FdToken.Position h) /\
  (forall h', is_u64 h' ->
      FdToken.Type_ h' = FdToken.Type_ h ->
      FdToken.Generation h' = FdToken.Generation h ->
      FdToken.Position h' = FdToken.Position h -> h' = h) /\
  (forall t g p t' g' p',
      is_u8 t -> 0 <= g < 2 ^ 24 -> is_u32 p ->
      is_u8 t' -> 0 <= g' < 2 ^ 24 -> is_u32 p' ->
      FdToken.Make t g p = FdToken.Make t' g' p' -> t = t' /\ g = g' /\ p = p').
Proof.
  cbv zeta. apply (handle_rebuilt_from_fields 0x0500000200000003).
  unfold is_u64. lia.
Defined.

(** ** Counting the elements of a vector that satisfy a test *)

Section Count.

Context {A : Type}.
Variable f : A -> bool.

Fixpoint countb (l : list A) : Z :=
  match l with
  | [] => 0
  | x :: l' => (if f x then 1 else 0) + countb l'
  end.

Lemma countb_bounds (l : list A) : 0 <= countb l <= Z.of_nat (length l).
Proof.
  induction l as [|x l IH]; cbn [countb length]; [lia|].
  destruct (f x); lia.
Qed.

Lemma countb_insert (l : list A) (n : nat) (old x' : A) :
  l !! n = Some old ->
  countb (<[n:=x']> l) =
  countb l - (if f old then 1 else 0) + (if f x' then 1 else 0).
Proof.
  revert n. induction l as [|x l IH]; intros n Hn; [discriminate|].
  destruct n as [|n]; csimpl in *.
  - inversion Hn; subst. lia.
  - rewrite (IH n Hn). lia.
Qed.

Lemma countb_all (l : list A) :
  (forall n, (n < length l)%nat -> exists x, l !! n = Some x /\ f x = true) ->
  countb l = Z.of_nat (length l).
Proof.
  induction l as [|x l IH]; intros H; [reflexivity|].
  cbn [countb length].
  destruct (H 0%nat) as (x0 & Hx0 & Hf); [cbn; lia|].
  cbn in Hx0. inversion Hx0; subst x0. rewrite Hf.
  rewrite IH; [lia|].
  intros n Hn. apply (H (S n)). cbn. lia.
Qed.

Lemma countb_full (l : list A) :
  countb l = Z.of_nat (length l) ->
  forall n x, l !! n = Some x -> f x = true.
Proof.
  induction l as [|y l IH]; intros Hc n x Hn; [discriminate|].
  cbn [countb length] in Hc. pose proof (countb_bounds l).
  destruct n as [|n]; csimpl in *.
  - inversion Hn; subst. destruct (f x); [reflexivity|lia].
  - apply (IH ltac:(destruct (f y); lia) n x Hn).
Qed.

Lemma countb_pos (l : list A) (n : nat) (x : A) :
  l !! n = Some x -> f x = true -> 1 <= countb l.
Proof.
  revert n. induction l as [|y l IH]; intros n Hn Hf; [discriminate|].
  cbn [countb]. pose proof (countb_bounds l).
  destruct n as [|n]; csimpl in *.
  - inversion Hn; subst. rewrite Hf. lia.
  - specialize (IH n Hn Hf). destruct (f y); lia.
Qed.

Lemma countb_replicate_false (x : A) (n : nat) :
  f x = false -> countb (replicate n x) = 0.
Proof.
  intros Hf. induction n as [|n IH]; cbn; [reflexivity|].
  rewrite Hf. lia.
Qed.

End Count.

Lemma list_alter_as_insert {A : Type} (g : A -> A) (l : list A) (n : nat) (x : A) :
  l !! n = Some x -> alter g n l = <[n:=g x]> l.
Proof.
  revert n. induction l as [|y l IH]; intros n Hn; [discriminate|].
  destruct n as [|n]; csimpl in *.
  - inversion Hn; subst. reflexivity.
  - f_equal. now apply IH.
Qed.

(** ** detail/flat_index_map.h *)

(** [NextPowerOfTwo] on a 64-bit [std::size_t]. *)
Definition NextPowerOfTwo (n : Z) : Z :=
  if n <=? 1 then 1
  else
    let n := wrap64 (n - 1) in
    let n := Z.lor n (Z.shiftr n 1) in
    let n := Z.lor n (Z.shiftr n 2) in
    let n := Z.lor n (Z.shiftr n 4) in
    let n := Z.lor n (Z.shiftr n 8) in
    let n := Z.lor n (Z.shiftr n 16) in
    let n := Z.lor n (Z.shiftr n 32) in
    wrap64 (n + 1).

Inductive EntryState : Set := kEmpty | kOccupied | kDeleted.

#[global] Instance EntryState_eq_dec : EqDecision EntryState.
Proof. solve_decision. Defined.

(** [kNpos = std::numeric_limits<std::size_t>::max()] *)
Definition kNpos : Z := 2 ^ 64 - 1.

Module Flat.

Section FlatIndexMap.

(** The template parameters: a default-constructible [Key], the [Hash]
    functor (its result is a [std::size_t]) and the [KeyEqual] functor. *)
Context {Key : Type}.
Variable key_default : Key.
Variable hasher : Key -> Z.
Variable equal_ : Key -> Key -> bool.

Record Entry := mkEntry {
  e_key : Key;
  e_value : Z;            (* mapped_type = std::uint32_t *)
  e_state : EntryState
}.

(** [Entry{}] *)
Definition Entry0 : Entry := mkEntry key_default 0 kEmpty.

Record FlatIndexMap := mkFlat {
  table_ : list Entry;
  mask_ : Z;
  max_entries_ : Z;
  size_ : Z;
  tombstones_ : Z
}.

(** A default-constructed map: empty table, every counter 0. *)
Definition FlatIndexMap0 : FlatIndexMap := mkFlat [] 0 0 0 0.

Definition Init (max_entries : Z) : FlatIndexMap :=
  let max_entries := if max_entries =? 0 then 1 else max_entries in
  let capacity := NextPowerOfTwo (wrap64 (max_entries * 2)) in
  mkFlat (replicate (Z.to_nat capacity) Entry0)
         (wrap64 (capacity - 1)) max_entries 0 0.

Definition ProbeStart (m : FlatIndexMap) (key : Key) : Z :=
  Z.land (wrap64 (hasher key)) (mask_ m).

Definition NextIndex (m : FlatIndexMap) (idx : Z) : Z :=
  Z.land (wrap64 (idx + 1)) (mask_ m).

Definition CanInsertNew (m : FlatIndexMap) : bool :=
  size_ m <? max_entries_ m.

(** [table_[idx]]; the source only indexes with [idx <= mask_], an
    index outside the table is not modelled further. *)
Definition entry_at (m : FlatIndexMap) (idx : Z) : option Entry :=
  table_ m !! Z.to_nat idx.

Definition set_entry (m : FlatIndexMap) (idx : Z) (e : Entry) : FlatIndexMap :=
  mkFlat (<[Z.to_nat idx := e]> (table_ m))
         (mask_ m) (max_entries_ m) (size_ m) (tombstones_ m).

(** The probe loop of [Find]: [i] counts the remaining iterations of
    [for (i = 0; i < table_.size(); ++i)]. *)
Fixpoint FindLoop (m : FlatIndexMap) (key : Key) (idx : Z) (i : nat)
  : option Z :=
  match i with
  | O => None
  | S i' =>
    match entry_at m idx with
    | None => None
    | Some entry =>
      match e_state entry with
      | kEmpty => None
      | kOccupied =>
        if equal_ (e_key entry) key then Some (e_value entry)
        else FindLoop m key (NextIndex m idx) i'
      | kDeleted => FindLoop m key (NextIndex m idx) i'
      end
    end
  end.

(** [Find]: [Some v] stands for [true] with [*out_value = v]. *)
Definition Find (m : FlatIndexMap) (key : Key) : option Z :=
  match table_ m with
  | [] => None
  | _ => FindLoop m key (ProbeStart m key) (length (table_ m))
  end.

Definition InsertAt (m : FlatIndexMap) (idx : Z) (key : Key) (value : Z)
  : bool * FlatIndexMap :=
  match entry_at m idx with
  | None => (false, m)
  | Some entry =>
    match e_state entry with
    | kOccupied =>
      (true, set_entry m idx (mkEntry (e_key entry) value kOccupied))
    | st =>
      if negb (CanInsertNew m) then (false, m)
      else
        let tombstones :=
          match st with
          | kDeleted => wrap64 (tombstones_ m - 1)
          | _ => tombstones_ m
          end in
        (true, mkFlat (<[Z.to_nat idx := mkEntry key value kOccupied]> (table_ m))
                      (mask_ m) (max_entries_ m)
                      (wrap64 (size_ m + 1)) tombstones)
    end
  end.

(** The probe loop of [Insert], with the code after the loop as the
    case of no iteration left. *)
Fixpoint InsertLoop (m : FlatIndexMap) (key : Key) (value : Z)
         (idx first_deleted : Z) (i : nat) : bool * FlatIndexMap :=
  match i with
  | O =>
    if negb (first_deleted =? kNpos) then InsertAt m first_deleted key value
    else (false, m)
  | S i' =>
    match entry_at m idx with
    | None => (false, m)
    | Some entry =>
      match e_state entry with
      | kEmpty =>
        InsertAt m (if first_deleted =? kNpos then idx else first_deleted)
                 key value
      | kDeleted =>
        InsertLoop m key value (NextIndex m idx)
                   (if first_deleted =? kNpos then idx else first_deleted) i'
      | kOccupied =>
        if equal_ (e_key entry) key
        then (true, set_entry m idx (mkEntry (e_key entry) value kOccupied))
        else InsertLoop m key value (NextIndex m idx) first_deleted i'
      end
    end
  end.

Definition Insert (m : FlatIndexMap) (key : Key) (value : Z)
  : bool * FlatIndexMap :=
  match table_ m with
  | [] => (false, m)
  | _ => InsertLoop m key value (ProbeStart m key) kNpos (length (table_ m))
  end.

Fixpoint EraseLoop (m : FlatIndexMap) (key : Key) (idx : Z) (i : nat)
  : bool * FlatIndexMap :=
  match i with
  | O => (false, m)
  | S i' =>
    match entry_at m idx with
    | None => (false, m)
    | Some entry =>
      match e_state entry with
      | kEmpty => (false, m)
      | kOccupied =>
        if equal_ (e_key entry) key
        then (true, mkFlat (<[Z.to_nat idx :=
                                mkEntry (e_key entry) (e_value entry) kDeleted]>
                              (table_ m))
                           (mask_ m) (max_entries_ m)
                           (wrap64 (size_ m - 1))
                           (wrap64 (tombstones_ m + 1)))
        else EraseLoop m key (NextIndex m idx) i'
      | kDeleted => EraseLoop m key (NextIndex m idx) i'
      end
    end
  end.

Definition Erase (m : FlatIndexMap) (key : Key) : bool * FlatIndexMap :=
  match table_ m with
  | [] => (false, m)
  | _ => EraseLoop m key (ProbeStart m key) (length (table_ m))
  end.

End FlatIndexMap.

Arguments Entry Key : clear implicits.
Arguments FlatIndexMap Key : clear implicits.

(** ** [NextPowerOfTwo] returns a power of two that is no less than its argument *)

(** One smearing step [n |= n >> w] doubles the window of bits of [x]
    that bit [i] of [n] summarises. *)
Lemma smear_step (x y w : Z) :
  0 < w ->
  (forall i, 0 <= i ->
     Z.testbit y i = true <-> exists j, i <= j < i + w /\ Z.testbit x j = true) ->
  forall i, 0 <= i ->
    Z.testbit (Z.lor y (Z.shiftr y w)) i = true <->
    exists j, i <= j < i + 2 * w /\ Z.testbit x j = true.
Proof.
  intros Hw Hy i Hi.
  rewrite Z.lor_spec, Z.shiftr_spec, orb_true_iff by lia.
  rewrite (Hy i), (Hy (i + w)) by lia.
  split.
  - intros [(j & Hj & Hb)|(j & Hj & Hb)]; exists j; split; auto; lia.
  - intros (j & Hj & Hb).
    destruct (Z.lt_ge_cases j (i + w)); [left|right]; exists j; split; auto; lia.
Qed.

Lemma smear_ones (x : Z) :
  0 < x < 2 ^ 64 ->
  let n1 := Z.lor x (Z.shiftr x 1) in
  let n2 := Z.lor n1 (Z.shiftr n1 2) in
  let n3 := Z.lor n2 (Z.shiftr n2 4) in
  let n4 := Z.lor n3 (Z.shiftr n3 8) in
  let n5 := Z.lor n4 (Z.shiftr n4 16) in
  let n6 := Z.lor n5 (Z.shiftr n5 32) in
  n6 = Z.ones (Z.log2 x + 1).
Proof.
  intros Hx n1 n2 n3 n4 n5 n6.
  assert (H0 : forall i, 0 <= i ->
            Z.testbit x i = true <-> exists j, i <= j < i + 1 /\ Z.testbit x j = true).
  { intros i Hi. split.
    - intros Hb. exists i. split; auto; lia.
    - intros (j & Hj & Hb). now replace i with j by lia. }
  pose proof (smear_step x x 1 ltac:(lia) H0) as H1. fold n1 in H1.
  pose proof (smear_step x n1 2 ltac:(lia) H1) as H2. fold n2 in H2.
  pose proof (smear_step x n2 4 ltac:(lia) H2) as H3. fold n3 in H3.
  pose proof (smear_step x n3 8 ltac:(lia) H3) as H4. fold n4 in H4.
  pose proof (smear_step x n4 16 ltac:(lia) H4) as H5. fold n5 in H5.
  pose proof (smear_step x n5 32 ltac:(lia) H5) as H6. fold n6 in H6.
  assert (Hlog : 0 <= Z.log2 x < 64).
  { split; [apply Z.log2_nonneg|]. apply Z.log2_lt_pow2; lia. }
  apply Z.bits_inj'. intros i Hi.
  rewrite Z.testbit_ones_nonneg by lia.
  destruct (Z.ltb_spec i (Z.log2 x + 1)) as [Hlt|Hge].
  - apply H6; [lia|]. exists (Z.log2 x). split; [lia|].
    apply Z.bit_log2. lia.
  - destruct (Z.testbit n6 i) eqn:Hb; [|reflexivity].
    apply H6 in Hb; [|lia]. destruct Hb as (j & Hj & Hb).
    rewrite Z.bits_above_log2 in Hb by lia. discriminate.
Qed.

Lemma NextPowerOfTwo_pow2 (n : Z) :
  0 <= n <= 2 ^ 63 ->
  exists k, 0 <= k <= 63 /\ NextPowerOfTwo n = 2 ^ k /\ n <= 2 ^ k.
Proof.
  intros Hn. unfold NextPowerOfTwo.
  destruct (Z.leb_spec n 1) as [Hle|Hgt].
  - exists 0. cbn. lia.
  - assert (Hw : wrap64 (n - 1) = n - 1) by (apply Z.mod_small; lia).
    rewrite Hw. cbv zeta.
    rewrite (smear_ones (n - 1)) by lia.
    assert (Hlog : 0 <= Z.log2 (n - 1) < 63).
    { split; [apply Z.log2_nonneg|]. apply Z.log2_lt_pow2; lia. }
    pose proof (Z.log2_spec (n - 1) ltac:(lia)) as Hs.
    replace (Z.succ (Z.log2 (n - 1))) with (Z.log2 (n - 1) + 1) in Hs by lia.
    rewrite Z.ones_equiv.
    replace (Z.pred (2 ^ (Z.log2 (n - 1) + 1)) + 1)
      with (2 ^ (Z.log2 (n - 1) + 1)) by lia.
    assert (Hp : 2 ^ (Z.log2 (n - 1) + 1) <= 2 ^ 63)
      by (apply Z.pow_le_mono_r; lia).
    exists (Z.log2 (n - 1) + 1). repeat split; try lia.
    apply Z.mod_small. lia.
Qed.

(** ** Theory of the flat index *)

Lemma option_eq_Some {A : Type} (o1 o2 : option A) :
  (forall v, o1 = Some v <-> o2 = Some v) -> o1 = o2.
Proof.
  intros H. destruct o1 as [a|], o2 as [b|]; auto.
  - symmetry. now apply H.
  - symmetry. now apply H.
  - now apply H.
Qed.

Lemma bd_occ_occ : bool_decide (kOccupied = kOccupied) = true.
Proof. reflexivity. Qed.
Lemma bd_occ_del : bool_decide (kOccupied = kDeleted) = false.
Proof. reflexivity. Qed.
Lemma bd_del_occ : bool_decide (kDeleted = kOccupied) = false.
Proof. reflexivity. Qed.
Lemma bd_del_del : bool_decide (kDeleted = kDeleted) = true.
Proof. reflexivity. Qed.

Ltac bd_states := rewrite ?bd_occ_occ, ?bd_occ_del, ?bd_del_occ, ?bd_del_del.

Section FlatIndexTheory.

Context {Key : Type}.
Variable key_default : Key.
Variable hasher : Key -> Z.
Variable equal_ : Key -> Key -> bool.

(** [KeyEqual] decides equality of keys (as [std::equal_to<Key>] does). *)
Hypothesis equal_spec : forall a b, equal_ a b = true <-> a = b.

Local Abbreviation FMap := (FlatIndexMap Key).
Local Abbreviation Ent := (Entry Key).
Local Abbreviation pstart := (ProbeStart hasher).
Local Abbreviation find_loop := (FindLoop equal_).
Local Abbreviation find := (Find hasher equal_).
Local Abbreviation insert_loop := (InsertLoop equal_).
Local Abbreviation insert := (Insert hasher equal_).
Local Abbreviation erase_loop := (EraseLoop equal_).
Local Abbreviation erase := (Erase hasher equal_).

Lemma equal_refl (k : Key) : equal_ k k = true.
Proof. now apply equal_spec. Qed.

Lemma equal_false (a b : Key) : a <> b -> equal_ a b = false.
Proof.
  intros Hne. destruct (equal_ a b) eqn:E; [|reflexivity].
  apply equal_spec in E. contradiction.
Qed.

(** Number of table entries in a given state. *)
Definition count_state (st : EntryState) (l : list Ent) : Z :=
  countb (fun e => bool_decide (e_state e = st)) l.

Lemma count_state_bounds st (l : list Ent) :
  0 <= count_state st l <= Z.of_nat (length l).
Proof. apply countb_bounds. Qed.

Lemma count_state_insert st (l : list Ent) (n : nat) (old e' : Ent) :
  l !! n = Some old ->
  count_state st (<[n:=e']> l) =
  count_state st l
  - (if bool_decide (e_state old = st) then 1 else 0)
  + (if bool_decide (e_state e' = st) then 1 else 0).
Proof. apply (countb_insert (fun e => bool_decide (e_state e = st))). Qed.

Lemma count_state_all st (l : list Ent) :
  (forall n, (n < length l)%nat ->
             exists e, l !! n = Some e /\ e_state e = st) ->
  count_state st l = Z.of_nat (length l).
Proof.
  intros H. apply countb_all. intros n Hn.
  destruct (H n Hn) as (e & He & Hst). exists e. split; auto.
  now apply bool_decide_eq_true.
Qed.

Lemma count_replicate_other st (e : Ent) (n : nat) :
  e_state e <> st -> count_state st (replicate n e) = 0.
Proof.
  intros Hne. apply countb_replicate_false. now apply bool_decide_eq_false.
Qed.

Lemma count_state_pos st (l : list Ent) (n : nat) (e : Ent) :
  l !! n = Some e -> e_state e = st -> 1 <= count_state st l.
Proof.
  intros Hn Hst. apply (countb_pos _ l n e Hn). now apply bool_decide_eq_true.
Qed.

(** An entry that a probe for [k] steps over. *)
Definition passes (k : Key) (e : Ent) : Prop :=
  e_state e = kDeleted \/ (e_state e = kOccupied /\ e_key e <> k).

(** [Chain m k idx i n]: a probe for [k] that starts at index [idx]
    with [i] iterations left reaches table position [n], stepping only
    over entries that it passes. *)
Inductive Chain (m : FMap) (k : Key) : Z -> nat -> nat -> Prop :=
| chain_here idx i : Chain m k idx (S i) (Z.to_nat idx)
| chain_next idx i n e :
    entry_at m idx = Some e -> passes k e ->
    Chain m k (NextIndex m idx) i n ->
    Chain m k idx (S i) n.

Lemma FindLoop_Some_iff (m : FMap) (k : Key) (i : nat) (idx v : Z) :
  find_loop m k idx i = Some v <->
  exists n e, Chain m k idx i n /\ table_ m !! n = Some e /\
              e_state e = kOccupied /\ e_key e = k /\ e_value e = v.
Proof.
  revert idx. induction i as [|i IH]; intros idx; cbn [FindLoop].
  - split; [discriminate|]. intros (n & e & Hc & _). inversion Hc.
  - split.
    + destruct (entry_at m idx) as [e|] eqn:He; [|discriminate].
      destruct (e_state e) eqn:Hst; [discriminate| |].
      * destruct (equal_ (e_key e) k) eqn:Heq.
        -- intros [= <-]. apply equal_spec in Heq.
           exists (Z.to_nat idx), e. repeat split; auto. constructor.
        -- intros Hf. apply IH in Hf as (n & e1 & Hc & Hrest).
           exists n, e1. split; [|exact Hrest].
           eapply chain_next; eauto. right. split; auto.
           intros Hk. rewrite Hk, equal_refl in Heq. discriminate.
      * intros Hf. apply IH in Hf as (n & e1 & Hc & Hrest).
        exists n, e1. split; [|exact Hrest].
        eapply chain_next; eauto. now left.
    + intros (n & e & Hc & Hl & Hst & Hk & Hv).
      inversion Hc as [idx' i' Hidx|idx' i' n' e1 He1 Hp Hc']; subst.
      * unfold entry_at. rewrite Hl, Hst, equal_refl. reflexivity.
      * rewrite He1.
        assert (Hrec : find_loop m (e_key e) (NextIndex m idx) i = Some (e_value e))
          by (apply IH; eauto 10).
        destruct Hp as [Hd|[Ho Hne]].
        -- now rewrite Hd.
        -- rewrite Ho, (equal_false _ _ Hne). exact Hrec.
Qed.

(** A probe reaches at most one occupied entry that holds its key. *)
Lemma Chain_hit_unique (m : FMap) (k : Key) idx i n n' (e e' : Ent) :
  Chain m k idx i n -> table_ m !! n = Some e ->
  e_state e = kOccupied -> e_key e = k ->
  Chain m k idx i n' -> table_ m !! n' = Some e' ->
  e_state e' = kOccupied -> e_key e' = k ->
  n = n'.
Proof.
  intros Hc. revert n' e'.
  induction Hc as [idx i|idx i n e1 He1 Hp Hc IH];
    intros n' e' Hl Hst Hk Hc' Hl' Hst' Hk';
    inversion Hc' as [idx' i' Hidx|idx' i' n'' e2 He2 Hp2 Hc2]; subst; auto.
  - unfold entry_at in He2. rewrite Hl in He2. inversion He2; subst e2.
    destruct Hp2 as [Hd|[_ Hne]]; congruence.
  - unfold entry_at in He1. rewrite Hl' in He1. inversion He1; subst e1.
    destruct Hp as [Hd|[_ Hne]]; congruence.
  - eapply IH; eauto.
Qed.

(** The probe only reads the table and the mask. *)
Lemma Chain_update (m m' : FMap) (k : Key) (n0 : nat) (e' : Ent) idx i n :
  table_ m' = <[n0:=e']> (table_ m) -> mask_ m' = mask_ m ->
  Chain m k idx i n ->
  (n = n0 \/
   forall old, table_ m !! n0 = Some old -> passes k old -> passes k e') ->
  Chain m' k idx i n.
Proof.
  intros Ht Hm Hc Hor.
  induction Hc as [idx i|idx i n e1 He1 Hp Hc IH]; [constructor|].
  destruct (decide (Z.to_nat idx = n0)) as [Heq|Hne].
  - destruct Hor as [->|Hpass].
    + rewrite <- Heq. constructor.
    + apply (chain_next m' k idx i n e').
      * unfold entry_at in *. rewrite Ht, Heq.
        apply list_lookup_insert_eq. rewrite <- Heq.
        eapply lookup_lt_Some; eauto.
      * apply (Hpass e1); [|assumption].
        unfold entry_at in He1. now rewrite Heq in He1.
      * unfold NextIndex in *. rewrite Hm. apply IH. now right.
  - apply (chain_next m' k idx i n e1); auto.
    + unfold entry_at in *. rewrite Ht.
      rewrite list_lookup_insert_ne by auto. assumption.
    + unfold NextIndex in *. rewrite Hm. apply IH. exact Hor.
Qed.

(** *** Well-formed index states *)

(** The table has [2^kk] entries and the mask is [2^kk - 1]. *)
Definition table_shape (m : FMap) : Prop :=
  exists kk, 0 <= kk <= 63 /\ mask_ m = 2 ^ kk - 1 /\
             Z.of_nat (length (table_ m)) = 2 ^ kk.

(** Every occupied entry is reached by the probe for its own key. *)
Definition reach_inv (m : FMap) : Prop :=
  forall n e, table_ m !! n = Some e -> e_state e = kOccupied ->
    Chain m (e_key e) (pstart m (e_key e)) (length (table_ m)) n.

Record FWf (m : FMap) : Prop := mkFWf {
  wf_shape : table_shape m;
  wf_max : 1 <= max_entries_ m;
  wf_load : 2 * max_entries_ m <= Z.of_nat (length (table_ m));
  wf_size : size_ m = count_state kOccupied (table_ m);
  wf_tomb : tombstones_ m = count_state kDeleted (table_ m);
  wf_le : size_ m <= max_entries_ m;
  wf_reach : reach_inv m
}.

Lemma shape_mask (m : FMap) :
  table_shape m ->
  0 <= mask_ m < 2 ^ 63 /\ Z.of_nat (length (table_ m)) = mask_ m + 1.
Proof.
  intros (kk & Hk & Hm & Hl).
  assert (0 < 2 ^ kk) by (apply Z.pow_pos_nonneg; lia).
  assert (2 ^ kk <= 2 ^ 63) by (apply Z.pow_le_mono_r; lia).
  lia.
Qed.

Lemma land_mask (m : FMap) (x : Z) :
  table_shape m -> Z.land x (mask_ m) = x mod (mask_ m + 1).
Proof.
  intros (kk & Hk & Hm & Hl). rewrite Hm.
  replace (2 ^ kk - 1) with (Z.ones kk) by (rewrite Z.ones_equiv; lia).
  rewrite Z.land_ones by lia. f_equal. rewrite Z.ones_equiv. lia.
Qed.

Lemma ProbeStart_range (m : FMap) (k : Key) :
  table_shape m -> 0 <= pstart m k <= mask_ m.
Proof.
  intros Hs. unfold ProbeStart. rewrite land_mask by assumption.
  pose proof (shape_mask m Hs).
  pose proof (Z.mod_pos_bound (wrap64 (hasher k)) (mask_ m + 1)). lia.
Qed.

Lemma NextIndex_mod (m : FMap) (idx : Z) :
  table_shape m -> 0 <= idx <= mask_ m ->
  NextIndex m idx = (idx + 1) mod (mask_ m + 1).
Proof.
  intros Hs Hi. unfold NextIndex. rewrite land_mask by assumption.
  pose proof (shape_mask m Hs).
  unfold wrap64. rewrite (Z.mod_small (idx + 1) (2 ^ 64)) by lia.
  reflexivity.
Qed.

Lemma NextIndex_range (m : FMap) (idx : Z) :
  table_shape m -> 0 <= idx <= mask_ m ->
  0 <= NextIndex m idx <= mask_ m.
Proof.
  intros Hs Hi. rewrite NextIndex_mod by assumption.
  pose proof (shape_mask m Hs).
  pose proof (Z.mod_pos_bound (idx + 1) (mask_ m + 1)). lia.
Qed.

Lemma entry_at_in_range (m : FMap) (idx : Z) :
  table_shape m -> 0 <= idx <= mask_ m -> is_Some (entry_at m idx).
Proof.
  intros Hs Hi. pose proof (shape_mask m Hs).
  unfold entry_at. apply lookup_lt_is_Some. lia.
Qed.

Lemma table_nonempty (m : FMap) : table_shape m -> table_ m <> [].
Proof.
  intros Hs Hnil. pose proof (shape_mask m Hs) as [? Hl].
  rewrite Hnil in Hl. cbn in Hl. lia.
Qed.

Lemma Find_unfold (m : FMap) (k : Key) :
  table_shape m ->
  find m k = find_loop m k (pstart m k) (length (table_ m)).
Proof.
  intros Hs. pose proof (table_nonempty m Hs). unfold Find.
  destruct (table_ m); [contradiction|reflexivity].
Qed.

(** Under the invariant, [Find] returns the value of the occupied
    entry that holds the key, if there is one. *)
Lemma Find_Some_iff (m : FMap) (k : Key) (v : Z) :
  FWf m ->
  find m k = Some v <->
  exists n e, table_ m !! n = Some e /\
              e_state e = kOccupied /\ e_key e = k /\ e_value e = v.
Proof.
  intros Hwf. rewrite Find_unfold by apply Hwf.
  rewrite FindLoop_Some_iff. split.
  - intros (n & e & _ & H). eauto.
  - intros (n & e & Hl & Hst & Hk & Hv). exists n, e.
    repeat split; auto. subst k. now apply (wf_reach m Hwf).
Qed.

(** *** The probe of [Insert] *)

(** Every entry met by [i] probe steps from [idx] is occupied. *)
Fixpoint AllOcc (m : FMap) (idx : Z) (i : nat) : Prop :=
  match i with
  | O => True
  | S i' =>
    (exists e, entry_at m idx = Some e /\ e_state e = kOccupied) /\
    AllOcc m (NextIndex m idx) i'
  end.

Lemma AllOcc_spec (m : FMap) :
  table_shape m ->
  forall i idx, 0 <= idx <= mask_ m -> AllOcc m idx i ->
  forall d, (d < i)%nat ->
    exists e, entry_at m ((idx + Z.of_nat d) mod (mask_ m + 1)) = Some e /\
              e_state e = kOccupied.
Proof.
  intros Hs. pose proof (shape_mask m Hs) as [Hm Hl].
  induction i as [|i IH]; intros idx Hi Hall d Hd; [lia|].
  destruct Hall as [Hhere Hrest].
  destruct d as [|d].
  - rewrite Z.add_0_r, Z.mod_small by lia. exact Hhere.
  - specialize (IH (NextIndex m idx) (NextIndex_range m idx Hs Hi) Hrest d
                   ltac:(lia)).
    rewrite NextIndex_mod in IH by assumption.
    rewrite Z.add_mod_idemp_l in IH by lia.
    replace (idx + Z.of_nat (S d)) with (idx + 1 + Z.of_nat d) by lia.
    exact IH.
Qed.

Lemma AllOcc_full (m : FMap) (s : Z) :
  table_shape m -> 0 <= s <= mask_ m ->
  AllOcc m s (length (table_ m)) ->
  count_state kOccupied (table_ m) = Z.of_nat (length (table_ m)).
Proof.
  intros Hs Hr Hall. pose proof (shape_mask m Hs) as [Hm Hl].
  apply count_state_all. intros n Hn.
  pose proof (Z.mod_pos_bound (Z.of_nat n - s) (mask_ m + 1) ltac:(lia)) as Hb.
  destruct (AllOcc_spec m Hs _ s Hr Hall
              (Z.to_nat ((Z.of_nat n - s) mod (mask_ m + 1))) ltac:(lia))
    as (e & He & Hst).
  exists e. split; [|exact Hst].
  rewrite Z2Nat.id in He by lia.
  rewrite Z.add_mod_idemp_r in He by lia.
  replace (s + (Z.of_nat n - s)) with (Z.of_nat n) in He by lia.
  rewrite Z.mod_small in He by lia.
  unfold entry_at in He. now rewrite Nat2Z.id in He.
Qed.

Lemma InsertLoop_absent (m : FMap) (k : Key) (v : Z) :
  table_shape m ->
  forall i idx fd,
    0 <= idx <= mask_ m ->
    find_loop m k idx i = None ->
    (fd <> kNpos ->
     exists old, entry_at m fd = Some old /\ e_state old = kDeleted) ->
    (exists j old,
        insert_loop m k v idx fd i = InsertAt m j k v /\
        entry_at m j = Some old /\ e_state old <> kOccupied /\
        ((fd <> kNpos /\ j = fd) \/
         (fd = kNpos /\ Chain m k idx i (Z.to_nat j))))
    \/ (fd = kNpos /\ insert_loop m k v idx fd i = (false, m) /\
        AllOcc m idx i).
Proof.
  intros Hs. pose proof (shape_mask m Hs) as [Hm Hl].
  induction i as [|i IH]; intros idx fd Hi Hf Hfd; cbn [InsertLoop FindLoop AllOcc] in *.
  - destruct (Z.eqb_spec fd kNpos) as [->|Hne]; cbn [negb].
    + right. auto.
    + left. destruct (Hfd Hne) as (old & Ho & Hst).
      exists fd, old. repeat split; auto. congruence.
  - destruct (entry_at_in_range m idx Hs Hi) as [e He]. rewrite He in *.
    assert (Hidx : idx <> kNpos) by (unfold kNpos; lia).
    destruct (e_state e) eqn:Hst.
    + (* kEmpty *)
      left. destruct (Z.eqb_spec fd kNpos) as [->|Hne].
      * exists idx, e. repeat split; auto; [congruence|].
        right. split; auto. constructor.
      * destruct (Hfd Hne) as (old & Ho & Hst').
        exists fd, old. repeat split; auto. congruence.
    + (* kOccupied *)
      destruct (equal_ (e_key e) k) eqn:Heq; [discriminate|].
      assert (Hne : e_key e <> k).
      { intros Hk. rewrite Hk, equal_refl in Heq. discriminate. }
      destruct (IH (NextIndex m idx) fd (NextIndex_range m idx Hs Hi) Hf Hfd)
        as [(j & old & Hins & Ho & Hso & Hwhere)|(Hk & Hins & Hall)].
      * left. exists j, old. repeat split; auto.
        destruct Hwhere as [Hw|[Hw Hc]]; [now left|right].
        split; auto. eapply chain_next; eauto. right. auto.
      * right. repeat split; eauto.
    + (* kDeleted *)
      set (fd' := if fd =? kNpos then idx else fd) in *.
      assert (Hfd' : fd' <> kNpos).
      { unfold fd'. destruct (Z.eqb_spec fd kNpos); auto. }
      destruct (IH (NextIndex m idx) fd' (NextIndex_range m idx Hs Hi) Hf)
        as [(j & old & Hins & Ho & Hso & Hwhere)|(Hk & _)];
        [| |contradiction].
      * intros _. unfold fd'.
        destruct (Z.eqb_spec fd kNpos); eauto.
      * left. exists j, old. repeat split; auto.
        destruct Hwhere as [[_ ->]|[Hk _]]; [|contradiction].
        unfold fd'. destruct (Z.eqb_spec fd kNpos) as [->|Hne].
        -- right. split; auto. constructor.
        -- left. auto.
Qed.

Lemma InsertAt_free (m : FMap) (j : Z) (k : Key) (v : Z) (old : Ent) :
  entry_at m j = Some old -> e_state old <> kOccupied ->
  InsertAt m j k v =
  if CanInsertNew m
  then (true, mkFlat (<[Z.to_nat j := mkEntry k v kOccupied]> (table_ m))
                     (mask_ m) (max_entries_ m) (wrap64 (size_ m + 1))
                     (if bool_decide (e_state old = kDeleted)
                      then wrap64 (tombstones_ m - 1) else tombstones_ m))
  else (false, m).
Proof.
  intros He Hst. unfold InsertAt. rewrite He.
  destruct (e_state old); try contradiction;
    destruct (CanInsertNew m); reflexivity.
Qed.

Lemma InsertLoop_present (m : FMap) (k : Key) (v p : Z) :
  forall i idx fd,
    find_loop m k idx i = Some p ->
    exists j old,
      entry_at m j = Some old /\ e_state old = kOccupied /\ e_key old = k /\
      insert_loop m k v idx fd i =
      (true, set_entry m j (mkEntry (e_key old) v kOccupied)).
Proof.
  induction i as [|i IH]; intros idx fd Hf; cbn [InsertLoop FindLoop] in *;
    [discriminate|].
  destruct (entry_at m idx) as [e|] eqn:He; [|discriminate].
  destruct (e_state e) eqn:Hst; [discriminate| |].
  - destruct (equal_ (e_key e) k) eqn:Heq.
    + apply equal_spec in Heq. exists idx, e. auto.
    + apply IH. exact Hf.
  - apply IH. exact Hf.
Qed.

(** *** The probe of [Erase] *)

Lemma EraseLoop_present (m : FMap) (k : Key) (p : Z) :
  forall i idx,
    find_loop m k idx i = Some p ->
    exists j old,
      entry_at m j = Some old /\ e_state old = kOccupied /\ e_key old = k /\
      e_value old = p /\
      erase_loop m k idx i =
      (true, mkFlat (<[Z.to_nat j := mkEntry (e_key old) (e_value old) kDeleted]>
                       (table_ m))
                    (mask_ m) (max_entries_ m)
                    (wrap64 (size_ m - 1)) (wrap64 (tombstones_ m + 1))).
Proof.
  induction i as [|i IH]; intros idx Hf; cbn [EraseLoop FindLoop] in *;
    [discriminate|].
  destruct (entry_at m idx) as [e|] eqn:He; [|discriminate].
  destruct (e_state e) eqn:Hst; [discriminate| |].
  - destruct (equal_ (e_key e) k) eqn:Heq.
    + apply equal_spec in Heq. inversion Hf; subst p.
      exists idx, e. auto 10.
    + apply IH. exact Hf.
  - apply IH. exact Hf.
Qed.

Lemma EraseLoop_absent (m : FMap) (k : Key) :
  forall i idx, find_loop m k idx i = None -> erase_loop m k idx i = (false, m).
Proof.
  induction i as [|i IH]; intros idx Hf; cbn [EraseLoop FindLoop] in *;
    [reflexivity|].
  destruct (entry_at m idx) as [e|] eqn:He; [|reflexivity].
  destruct (e_state e) eqn:Hst; [reflexivity| |].
  - destruct (equal_ (e_key e) k) eqn:Heq; [discriminate|]. now apply IH.
  - now apply IH.
Qed.




(** *** One table entry changes: what is kept *)

Lemma reach_inv_update (m m' : FMap) (n0 : nat) (e' : Ent) :
  table_ m' = <[n0:=e']> (table_ m) -> mask_ m' = mask_ m ->
  reach_inv m ->
  (forall n e old, n <> n0 -> table_ m !! n = Some e -> e_state e = kOccupied ->
                   table_ m !! n0 = Some old ->
                   passes (e_key e) old -> passes (e_key e) e') ->
  (e_state e' = kOccupied ->
   Chain m (e_key e') (pstart m (e_key e')) (length (table_ m)) n0) ->
  reach_inv m'.
Proof.
  intros Ht Hm Hr Hothers Hnew n e Hl Hst.
  assert (Hps : forall k, pstart m' k = pstart m k)
    by (intros k; unfold ProbeStart; now rewrite Hm).
  rewrite Hps, Ht, length_insert. rewrite Ht in Hl.
  destruct (decide (n = n0)) as [->|Hne].
  - assert (Hlt : (n0 < length (table_ m))%nat).
    { apply lookup_lt_Some in Hl. now rewrite length_insert in Hl. }
    rewrite list_lookup_insert_eq in Hl by assumption.
    inversion Hl; subst e'.
    apply (Chain_update m m' _ n0 e); auto.
  - rewrite list_lookup_insert_ne in Hl by auto.
    apply (Chain_update m m' _ n0 e'); auto.
    right. intros old Ho Hp. eapply Hothers; eauto.
Qed.

Lemma FWf_update (m m' : FMap) (n0 : nat) (old e' : Ent) :
  FWf m ->
  table_ m !! n0 = Some old ->
  table_ m' = <[n0:=e']> (table_ m) -> mask_ m' = mask_ m ->
  max_entries_ m' = max_entries_ m ->
  size_ m' = size_ m - (if bool_decide (e_state old = kOccupied) then 1 else 0)
             + (if bool_decide (e_state e' = kOccupied) then 1 else 0) ->
  tombstones_ m' =
    tombstones_ m - (if bool_decide (e_state old = kDeleted) then 1 else 0)
    + (if bool_decide (e_state e' = kDeleted) then 1 else 0) ->
  size_ m' <= max_entries_ m ->
  (forall n e, n <> n0 -> table_ m !! n = Some e -> e_state e = kOccupied ->
               passes (e_key e) old -> passes (e_key e) e') ->
  (e_state e' = kOccupied ->
   Chain m (e_key e') (pstart m (e_key e')) (length (table_ m)) n0) ->
  FWf m'.
Proof.
  intros Hwf Ho Ht Hm Hmax Hsz Htb Hle Hothers Hnew.
  destruct Hwf as [Hs H1 Hload Hsize Htomb Hsle Hr].
  constructor.
  - destruct Hs as (kk & Hk & Hmk & Hl). exists kk.
    rewrite Hm, Ht, length_insert. auto.
  - lia.
  - rewrite Ht, length_insert. lia.
  - rewrite Hsz, Ht, (count_state_insert _ _ _ old) by assumption. lia.
  - rewrite Htb, Ht, (count_state_insert _ _ _ old) by assumption. lia.
  - lia.
  - eapply reach_inv_update; eauto.
    intros n e old' Hne Hl Hst Ho'. rewrite Ho in Ho'. inversion Ho'; subst old'.
    eauto.
Qed.

(** A key whose entry is not the changed one is found as before. *)
Lemma Find_update_other (m m' : FMap) (n0 : nat) (old e' : Ent) (k : Key) :
  FWf m -> FWf m' ->
  table_ m !! n0 = Some old -> table_ m' = <[n0:=e']> (table_ m) ->
  ~ (e_state old = kOccupied /\ e_key old = k) ->
  ~ (e_state e' = kOccupied /\ e_key e' = k) ->
  find m' k = find m k.
Proof.
  intros Hwf Hwf' Ho Ht Hold Hnew. apply option_eq_Some. intros v.
  rewrite !Find_Some_iff by assumption. rewrite Ht.
  assert (Hlt : (n0 < length (table_ m))%nat) by (eapply lookup_lt_Some; eauto).
  split; intros (n & e & Hl & Hst & Hk & Hv).
  - destruct (decide (n = n0)) as [->|Hne].
    + rewrite list_lookup_insert_eq in Hl by assumption.
      inversion Hl; subst e'. tauto.
    + rewrite list_lookup_insert_ne in Hl by auto. eauto 10.
  - destruct (decide (n = n0)) as [->|Hne].
    + rewrite Ho in Hl. inversion Hl; subst old. tauto.
    + exists n, e. rewrite list_lookup_insert_ne by auto. auto.
Qed.

(** *** [Insert] and [Erase] on well-formed states *)

Lemma Insert_unfold (m : FMap) (k : Key) (v : Z) :
  table_shape m ->
  insert m k v =
  insert_loop m k v (pstart m k) kNpos (length (table_ m)).
Proof.
  intros Hs. pose proof (table_nonempty m Hs). unfold Insert.
  destruct (table_ m); [contradiction|reflexivity].
Qed.

Lemma Erase_unfold (m : FMap) (k : Key) :
  table_shape m ->
  erase m k = erase_loop m k (pstart m k) (length (table_ m)).
Proof.
  intros Hs. pose proof (table_nonempty m Hs). unfold Erase.
  destruct (table_ m); [contradiction|reflexivity].
Qed.

Lemma FWf_bounds (m : FMap) :
  FWf m ->
  0 <= size_ m <= max_entries_ m /\ max_entries_ m <= 2 ^ 62 /\
  0 <= tombstones_ m <= 2 ^ 63.
Proof.
  intros [Hs H1 Hload Hsize Htomb Hsle Hr].
  pose proof (shape_mask m Hs) as [Hm Hl].
  pose proof (count_state_bounds kOccupied (table_ m)).
  pose proof (count_state_bounds kDeleted (table_ m)).
  lia.
Qed.

(** A key that is absent is inserted exactly when [size_ < max_entries_]. *)
Lemma Insert_absent_spec (m : FMap) (k : Key) (v : Z) :
  FWf m -> find m k = None ->
  (size_ m < max_entries_ m ->
   exists m', insert m k v = (true, m') /\ FWf m' /\
              find m' k = Some v /\
              (forall k', k' <> k -> find m' k' = find m k') /\
              size_ m' = size_ m + 1 /\ max_entries_ m' = max_entries_ m) /\
  (max_entries_ m <= size_ m -> insert m k v = (false, m)).
Proof.
  intros Hwf Hf.
  pose proof (wf_shape m Hwf) as Hs.
  pose proof (FWf_bounds m Hwf) as (Hsz & Hmx & Htb).
  rewrite Find_unfold in Hf by assumption.
  rewrite Insert_unfold by assumption.
  destruct (InsertLoop_absent m k v Hs (length (table_ m)) (pstart m k) kNpos
              (ProbeStart_range m k Hs) Hf ltac:(congruence))
    as [(j & old & Hins & Ho & Hso & [[Hc _]|[_ Hc]])|(_ & Hins & Hall)];
    [congruence| |].
  - rewrite Hins, (InsertAt_free m j k v old) by assumption.
    unfold CanInsertNew. split; intros Hlt.
    + replace (size_ m <? max_entries_ m) with true
        by (symmetry; apply Z.ltb_lt; lia).
      eexists. split; [reflexivity|].
      set (m' := mkFlat _ _ _ _ _).
      assert (Hwf' : FWf m').
      { apply (FWf_update m m' (Z.to_nat j) old (mkEntry k v kOccupied));
          auto; cbn.
        - rewrite (bool_decide_false (e_state old = kOccupied)) by assumption.
          bd_states. unfold wrap64. rewrite Z.mod_small by lia. lia.
        - bd_states.
          destruct (bool_decide (e_state old = kDeleted)) eqn:Hd; [|lia].
          apply bool_decide_eq_true in Hd.
          pose proof (count_state_pos kDeleted (table_ m) _ old Ho Hd).
          rewrite <- (wf_tomb m Hwf) in *.
          unfold wrap64. rewrite Z.mod_small by lia. lia.
        - unfold wrap64. rewrite Z.mod_small by lia. lia.
        - intros n e Hne Hl Hst _. right. cbn. split; auto.
          intros Hk.
          assert (Hfind : find m k = Some (e_value e))
            by (apply Find_Some_iff; eauto 10).
          rewrite Find_unfold in Hfind by assumption. congruence. }
      refine (conj Hwf' (conj _ (conj _ (conj _ eq_refl)))).
      * apply Find_Some_iff; auto.
        exists (Z.to_nat j), (mkEntry k v kOccupied). cbn. repeat split; auto.
        apply list_lookup_insert_eq. eapply lookup_lt_Some; eauto.
      * intros k' Hne.
        apply (Find_update_other m m' (Z.to_nat j) old (mkEntry k v kOccupied));
          auto; cbn; intros [? ?]; congruence.
      * cbn. unfold wrap64. rewrite Z.mod_small by lia. reflexivity.
    + replace (size_ m <? max_entries_ m) with false
        by (symmetry; apply Z.ltb_ge; lia).
      reflexivity.
  - exfalso.
    pose proof (AllOcc_full m _ Hs (ProbeStart_range m k Hs) Hall) as Hfull.
    pose proof (wf_size m Hwf). pose proof (wf_load m Hwf).
    pose proof (wf_max m Hwf). lia.
Qed.

Lemma Insert_present_spec (m : FMap) (k : Key) (v p : Z) :
  FWf m -> find m k = Some p ->
  exists m', insert m k v = (true, m') /\ FWf m' /\
             find m' k = Some v /\
             (forall k', k' <> k -> find m' k' = find m k') /\
             size_ m' = size_ m /\ max_entries_ m' = max_entries_ m.
Proof.
  intros Hwf Hf.
  pose proof (wf_shape m Hwf) as Hs.
  rewrite Find_unfold in Hf by assumption.
  rewrite Insert_unfold by assumption.
  destruct (InsertLoop_present m k v p (length (table_ m)) (pstart m k) kNpos Hf)
    as (j & old & Ho & Hst & Hk & Hins).
  rewrite Hins. eexists. split; [reflexivity|].
  set (m' := set_entry _ _ _).
  assert (Hwf' : FWf m').
  { apply (FWf_update m m' (Z.to_nat j) old (mkEntry (e_key old) v kOccupied));
      auto; cbn.
    - rewrite (bool_decide_true (e_state old = kOccupied)) by assumption.
      bd_states. lia.
    - rewrite (bool_decide_false (e_state old = kDeleted)) by congruence.
      bd_states. lia.
    - apply Hwf.
    - intros n e Hne Hl Hst' [Hd|[_ Hkk]]; [congruence|]. right. auto.
    - intros _. now apply (wf_reach m Hwf). }
  refine (conj Hwf' (conj _ (conj _ (conj eq_refl eq_refl)))).
  - apply Find_Some_iff; auto.
    exists (Z.to_nat j), (mkEntry (e_key old) v kOccupied). cbn.
    repeat split; auto.
    apply list_lookup_insert_eq. eapply lookup_lt_Some; eauto.
  - intros k' Hne.
    apply (Find_update_other m m' (Z.to_nat j) old
                             (mkEntry (e_key old) v kOccupied));
      auto; cbn; intros [_ Hk']; congruence.
Qed.

Lemma Erase_present_spec (m : FMap) (k : Key) (p : Z) :
  FWf m -> find m k = Some p ->
  exists m', erase m k = (true, m') /\ FWf m' /\
             find m' k = None /\
             (forall k', k' <> k -> find m' k' = find m k') /\
             size_ m' = size_ m - 1 /\ max_entries_ m' = max_entries_ m.
Proof.
  intros Hwf Hf.
  pose proof (wf_shape m Hwf) as Hs.
  pose proof (FWf_bounds m Hwf) as (Hsz & Hmx & Htb).
  rewrite Find_unfold in Hf by assumption.
  rewrite Erase_unfold by assumption.
  destruct (EraseLoop_present m k p (length (table_ m)) (pstart m k) Hf)
    as (j & old & Ho & Hst & Hk & Hv & Her).
  rewrite Her. eexists. split; [reflexivity|].
  set (m' := mkFlat _ _ _ _ _).
  pose proof (count_state_pos kOccupied (table_ m) _ old Ho Hst) as Hpos.
  rewrite <- (wf_size m Hwf) in Hpos.
  assert (Hwf' : FWf m').
  { apply (FWf_update m m' (Z.to_nat j) old
                      (mkEntry (e_key old) (e_value old) kDeleted));
      auto; cbn.
    - rewrite (bool_decide_true (e_state old = kOccupied)) by assumption.
      bd_states. unfold wrap64. rewrite Z.mod_small by lia. lia.
    - rewrite (bool_decide_false (e_state old = kDeleted)) by congruence.
      bd_states. unfold wrap64. rewrite Z.mod_small by lia. lia.
    - unfold wrap64. rewrite Z.mod_small by lia. lia.
    - intros n e Hne Hl Hst' _. left. reflexivity.
    - discriminate. }
  refine (conj Hwf' (conj _ (conj _ (conj _ eq_refl)))).
  - destruct (find m' k) as [v|] eqn:Hf'; [|reflexivity]. exfalso.
    apply Find_Some_iff in Hf' as (n & e & Hl & Hste & Hke & _); auto.
    assert (Hlt : (Z.to_nat j < length (table_ m))%nat)
      by (eapply lookup_lt_Some; eauto).
    cbn in Hl.
    destruct (decide (n = Z.to_nat j)) as [->|Hne].
    + rewrite list_lookup_insert_eq in Hl by assumption.
      inversion Hl; subst e. discriminate.
    + rewrite list_lookup_insert_ne in Hl by auto.
      apply Hne.
      apply (Chain_hit_unique m k (pstart m k) (length (table_ m)) n
                              (Z.to_nat j) e old); auto.
      * subst k. rewrite <- Hke at 1 2. now apply (wf_reach m Hwf).
      * subst k. now apply (wf_reach m Hwf).
  - intros k' Hne.
    apply (Find_update_other m m' (Z.to_nat j) old
             (mkEntry (e_key old) (e_value old) kDeleted));
      auto; cbn; intros [Hx Hk']; congruence.
  - cbn. unfold wrap64. rewrite Z.mod_small by lia. reflexivity.
Qed.

Lemma Erase_absent_spec (m : FMap) (k : Key) :
  find m k = None -> erase m k = (false, m).
Proof.
  unfold Find, Erase. destruct (table_ m); [reflexivity|].
  apply EraseLoop_absent.
Qed.

Lemma Insert_false_inv (m m' : FMap) (k : Key) (v : Z) :
  FWf m -> insert m k v = (false, m') ->
  m' = m /\ find m k = None /\ size_ m = max_entries_ m.
Proof.
  intros Hwf Hins.
  pose proof (FWf_bounds m Hwf) as (Hsz & _).
  destruct (find m k) as [p|] eqn:Hf.
  - destruct (Insert_present_spec m k v p Hwf Hf) as (m1 & H1 & _).
    congruence.
  - destruct (Insert_absent_spec m k v Hwf Hf) as [Hlt Hge].
    destruct (Z.lt_ge_cases (size_ m) (max_entries_ m)) as [Hc|Hc].
    + destruct (Hlt Hc) as (m1 & H1 & _). congruence.
    + rewrite (Hge Hc) in Hins. inversion Hins; subst m'.
      repeat split; auto. lia.
Qed.

Lemma Insert_wf (m : FMap) (k : Key) (v : Z) :
  FWf m ->
  FWf (snd (insert m k v)) /\
  max_entries_ (snd (insert m k v)) = max_entries_ m.
Proof.
  intros Hwf.
  destruct (find m k) as [p|] eqn:Hf.
  - destruct (Insert_present_spec m k v p Hwf Hf) as (m1 & -> & H1 & _ & _ & _ & H2).
    auto.
  - destruct (Insert_absent_spec m k v Hwf Hf) as [Hlt Hge].
    destruct (Z.lt_ge_cases (size_ m) (max_entries_ m)) as [Hc|Hc].
    + destruct (Hlt Hc) as (m1 & -> & H1 & _ & _ & _ & H2). auto.
    + rewrite (Hge Hc). auto.
Qed.

Lemma Erase_wf (m : FMap) (k : Key) :
  FWf m ->
  FWf (snd (erase m k)) /\ max_entries_ (snd (erase m k)) = max_entries_ m.
Proof.
  intros Hwf.
  destruct (find m k) as [p|] eqn:Hf.
  - destruct (Erase_present_spec m k p Hwf Hf) as (m1 & -> & H1 & _ & _ & _ & H2).
    auto.
  - rewrite (Erase_absent_spec m k Hf). auto.
Qed.

(** *** Construction *)

Lemma Init_wf (n : Z) :
  0 <= n <= 2 ^ 62 ->
  FWf (Init key_default n) /\
  max_entries_ (Init key_default n) = (if n =? 0 then 1 else n) /\
  size_ (Init key_default n) = 0 /\
  tombstones_ (Init key_default n) = 0 /\
  forall k, find (Init key_default n) k = None.
Proof.
  intros Hn. unfold Init.
  set (mx := if n =? 0 then 1 else n).
  assert (Hmx : 1 <= mx <= 2 ^ 62)
    by (unfold mx; destruct (Z.eqb_spec n 0); lia).
  assert (Hw : wrap64 (mx * 2) = mx * 2) by (apply Z.mod_small; lia).
  rewrite Hw.
  destruct (NextPowerOfTwo_pow2 (mx * 2) ltac:(lia)) as (kk & Hk & Hp & Hle).
  rewrite Hp.
  assert (Hpos : 0 < 2 ^ kk) by (apply Z.pow_pos_nonneg; lia).
  assert (Hup : 2 ^ kk <= 2 ^ 63) by (apply Z.pow_le_mono_r; lia).
  assert (Hnone : forall n0 e, replicate (Z.to_nat (2 ^ kk)) (Entry0 key_default) !! n0 = Some e ->
                               e_state e = kEmpty).
  { intros n0 e Hl. apply lookup_replicate in Hl as [-> _]. reflexivity. }
  assert (Hwf : FWf (mkFlat (replicate (Z.to_nat (2 ^ kk)) (Entry0 key_default))
                            (wrap64 (2 ^ kk - 1)) mx 0 0)).
  { constructor; cbn.
    - exists kk. cbn. rewrite length_replicate, Z2Nat.id by lia.
      repeat split; try lia. apply Z.mod_small. lia.
    - lia.
    - rewrite length_replicate, Z2Nat.id by lia. lia.
    - symmetry. apply count_replicate_other. discriminate.
    - symmetry. apply count_replicate_other. discriminate.
    - lia.
    - intros n0 e Hl Hst. cbn in Hl. apply Hnone in Hl. congruence. }
  repeat split; try exact Hwf; try apply Hwf; auto.
  intros k.
  destruct (find _ k) as [v|] eqn:Hf; [|reflexivity].
  apply Find_Some_iff in Hf as (n0 & e & Hl & Hst & _); auto.
  cbn in Hl. apply Hnone in Hl. congruence.
Qed.

(** *** Reachable index states: [Init] followed by [Insert]s and
    [Erase]s ([Find] is [const]). *)
Inductive FReachable (n : Z) : FMap -> Prop :=
| FR_init : FReachable n (Init key_default n)
| FR_insert m k v : FReachable n m -> FReachable n (snd (insert m k v))
| FR_erase m k : FReachable n m -> FReachable n (snd (erase m k)).

Lemma FReachable_wf (n : Z) (m : FMap) :
  0 <= n <= 2 ^ 62 -> FReachable n m ->
  FWf m /\ max_entries_ m = (if n =? 0 then 1 else n).
Proof.
  intros Hn Hr. induction Hr as [|m k v Hr [IH1 IH2]|m k Hr [IH1 IH2]].
  - destruct (Init_wf n Hn) as (H1 & H2 & _). auto.
  - destruct (Insert_wf m k v IH1) as [H1 H2]. split; congruence.
  - destruct (Erase_wf m k IH1) as [H1 H2]. split; congruence.
Qed.

(** C1 (as the code has it) -- for an index built with a
    [max_entries] whose doubling fits the table size type, in every
    reachable state [size_ <= max_entries_], the insertion of a key
    that is not present succeeds whenever [size_ < max_entries_],
    whatever the number of tombstones, and fails, leaving the index
    as it is, exactly when [size_ = max_entries_]. *)
Theorem Insert_new_key_fails_iff_size_is_max (n : Z) (m : FMap) (k : Key) (v : Z) :
  0 <= n <= 2 ^ 62 -> FReachable n m -> find m k = None ->
  size_ m <= max_entries_ m /\
  (size_ m < max_entries_ m -> fst (insert m k v) = true) /\
  (size_ m = max_entries_ m -> insert m k v = (false, m)) /\
  (fst (insert m k v) = false <-> size_ m = max_entries_ m).
Proof.
  intros Hn Hr Hf.
  destruct (FReachable_wf n m Hn Hr) as [Hwf _].
  pose proof (FWf_bounds m Hwf) as (Hsz & _).
  destruct (Insert_absent_spec m k v Hwf Hf) as [Hlt Hge].
  assert (H1 : size_ m < max_entries_ m -> fst (insert m k v) = true).
  { intros Hc. destruct (Hlt Hc) as (m1 & -> & _). reflexivity. }
  assert (H2 : size_ m = max_entries_ m -> insert m k v = (false, m)).
  { intros Hc. apply Hge. lia. }
  repeat split; auto; try lia.
  - intros Hfalse.
    destruct (Z.lt_ge_cases (size_ m) (max_entries_ m)) as [Hc|Hc]; [|lia].
    rewrite (H1 Hc) in Hfalse. discriminate.
  - intros Hc. now rewrite (H2 Hc).
Qed.

(** *** What a user of the index can rely on *)

Lemma NextPowerOfTwo_bounds (n : Z) :
  1 <= n <= 2 ^ 63 ->
  exists k, 0 <= k <= 63 /\ NextPowerOfTwo n = 2 ^ k /\
            n <= 2 ^ k /\ 2 ^ k < 2 * n.
Proof.
  intros Hn. unfold NextPowerOfTwo.
  destruct (Z.leb_spec n 1) as [Hle|Hgt].
  - exists 0. assert (n = 1) by lia. subst n. cbn. lia.
  - assert (Hw : wrap64 (n - 1) = n - 1) by (apply Z.mod_small; lia).
    rewrite Hw. cbv zeta. rewrite (smear_ones (n - 1)) by lia.
    assert (Hlog : 0 <= Z.log2 (n - 1) < 63).
    { split; [apply Z.log2_nonneg|]. apply Z.log2_lt_pow2; lia. }
    pose proof (Z.log2_spec (n - 1) ltac:(lia)) as Hs.
    replace (Z.succ (Z.log2 (n - 1))) with (Z.log2 (n - 1) + 1) in Hs by lia.
    rewrite Z.ones_equiv.
    replace (Z.pred (2 ^ (Z.log2 (n - 1) + 1)) + 1)
      with (2 ^ (Z.log2 (n - 1) + 1)) by lia.
    assert (Hp : 2 ^ (Z.log2 (n - 1) + 1) <= 2 ^ 63)
      by (apply Z.pow_le_mono_r; lia).
    assert (Hd : 2 ^ (Z.log2 (n - 1) + 1) = 2 * 2 ^ Z.log2 (n - 1))
      by (rewrite Z.pow_add_r by lia; lia).
    exists (Z.log2 (n - 1) + 1). conj_split; try lia.
    apply Z.mod_small. lia.
Qed.

(** The probe loops write one table entry at most and never resize the
    table. *)
Lemma InsertAt_length (m : FMap) (idx : Z) (k : Key) (v : Z) :
  length (table_ (snd (InsertAt m idx k v))) = length (table_ m) /\
  mask_ (snd (InsertAt m idx k v)) = mask_ m.
Proof.
  unfold InsertAt.
  destruct (entry_at m idx) as [e|]; [|auto].
  destruct (e_state e); cbn; try destruct (negb (CanInsertNew m)); cbn;
    rewrite ?length_insert; auto.
Qed.

Lemma InsertLoop_length (m : FMap) (k : Key) (v : Z) (i : nat) :
  forall idx fd,
    length (table_ (snd (insert_loop m k v idx fd i))) = length (table_ m) /\
    mask_ (snd (insert_loop m k v idx fd i)) = mask_ m.
Proof.
  induction i as [|i IH]; intros idx fd; cbn.
  - destruct (negb (fd =? kNpos)); [apply InsertAt_length|auto].
  - destruct (entry_at m idx) as [e|]; [|auto].
    destruct (e_state e).
    + apply InsertAt_length.
    + destruct (equal_ (e_key e) k); [|apply IH].
      cbn. rewrite length_insert. auto.
    + apply IH.
Qed.

Lemma EraseLoop_length (m : FMap) (k : Key) (i : nat) :
  forall idx,
    length (table_ (snd (erase_loop m k idx i))) = length (table_ m) /\
    mask_ (snd (erase_loop m k idx i)) = mask_ m.
Proof.
  induction i as [|i IH]; intros idx; cbn; [auto|].
  destruct (entry_at m idx) as [e|]; [|auto].
  destruct (e_state e); [auto| |apply IH].
  destruct (equal_ (e_key e) k); [|apply IH].
  cbn. rewrite length_insert. auto.
Qed.

Lemma FReachable_length (n : Z) (m : FMap) :
  FReachable n m ->
  length (table_ m) = length (table_ (Init key_default n)) /\
  mask_ m = mask_ (Init key_default n).
Proof.
  induction 1 as [|m k v Hr [IHl IHm]|m k Hr [IHl IHm]]; [auto| |].
  - unfold Insert. destruct (table_ m) eqn:Ht; [cbn; rewrite Ht; auto|].
    rewrite <- Ht in *.
    destruct (InsertLoop_length m k v (length (table_ m)) (pstart m k) kNpos)
      as [-> ->]. auto.
  - unfold Erase. destruct (table_ m) eqn:Ht; [cbn; rewrite Ht; auto|].
    rewrite <- Ht in *.
    destruct (EraseLoop_length m k (length (table_ m)) (pstart m k))
      as [-> ->]. auto.
Qed.

Lemma count_states_le (l : list Ent) :
  count_state kOccupied l + count_state kDeleted l <= Z.of_nat (length l).
Proof.
  unfold count_state.
  induction l as [|e l IH]; cbn [countb length]; [lia|].
  destruct (e_state e); bd_states;
    rewrite ?bool_decide_eq_false_2 by discriminate; lia.
Qed.

(** X3 -- a flat index initialised for [n] entries ([0] is read as 1,
    [n <= 2^62]) has logical capacity [max 1 n], no entry and no
    tombstone; its bucket array has a power-of-two length between two
    and four times the logical capacity, every bucket is empty, no key
    is found and no key can be erased. *)
Theorem Init_is_empty (n : Z) :
  0 <= n <= 2 ^ 62 ->
  let m := Init key_default n in
  let buckets := Z.of_nat (length (table_ m)) in
  max_entries_ m = Z.max 1 n /\
  size_ m = 0 /\ tombstones_ m = 0 /\
  (exists k, 0 <= k /\ buckets = 2 ^ k) /\
  2 * Z.max 1 n <= buckets < 4 * Z.max 1 n /\
  mask_ m = buckets - 1 /\
  (forall i e, table_ m !! i = Some e -> e_state e = kEmpty) /\
  (forall k, find m k = None) /\
  (forall k, erase m k = (false, m)).
Proof.
  intros Hn. cbv zeta.
  destruct (Init_wf n Hn) as (Hwf & Hmax & Hsz & Htomb & Hfind).
  assert (Hmx : (if n =? 0 then 1 else n) = Z.max 1 n)
    by (destruct (Z.eqb_spec n 0); lia).
  rewrite Hmx in Hmax.
  assert (Hw : wrap64 (Z.max 1 n * 2) = Z.max 1 n * 2)
    by (apply Z.mod_small; lia).
  destruct (NextPowerOfTwo_bounds (Z.max 1 n * 2) ltac:(lia))
    as (k & Hk & Hp & Hlo & Hhi).
  assert (Hlen : Z.of_nat (length (table_ (Init key_default n))) = 2 ^ k).
  { unfold Init. cbn [table_]. rewrite Hmx, Hw, Hp, length_replicate.
    apply Z2Nat.id. lia. }
  rewrite Hlen.
  split; [exact Hmax|]. split; [exact Hsz|]. split; [exact Htomb|].
  split; [exists k; split; [lia|reflexivity]|]. split; [lia|].
  split; [|split; [|split]].
  - unfold Init. cbn [mask_]. rewrite Hmx, Hw, Hp.
    apply Z.mod_small.
    assert (2 ^ k <= 2 ^ 63) by (apply Z.pow_le_mono_r; lia). lia.
  - intros i e Hl. unfold Init in Hl. cbn [table_] in Hl.
    apply lookup_replicate in Hl as [-> _]. reflexivity.
  - exact Hfind.
  - intros key. apply Erase_absent_spec. apply Hfind.
Qed.

(** X4 -- on an index that was initialised for at most 2^62 entries
    (above that the computation of the number of buckets overflows),
    [Insert k v] returns true exactly when [k]
    is already there or there is room for one more entry; when it
    returns true, [Find k] yields [v]; no other key is affected; the
    size grows by one for a new key and is kept for a key that was
    there; when it returns false the index is unchanged. *)
Theorem Insert_then_Find (n : Z) (m : FMap) (k : Key) (v : Z) :
  0 <= n <= 2 ^ 62 -> FReachable n m ->
  let r := insert m k v in
  (fst r = true <-> find m k <> None \/ size_ m < max_entries_ m) /\
  (fst r = true -> find (snd r) k = Some v) /\
  (forall k', k' <> k -> find (snd r) k' = find m k') /\
  (fst r = true -> find m k = None -> size_ (snd r) = size_ m + 1) /\
  (find m k <> None -> size_ (snd r) = size_ m) /\
  (fst r = false -> snd r = m).
Proof.
  intros Hn Hr. cbv zeta.
  destruct (FReachable_wf n m Hn Hr) as [Hwf _].
  pose proof (FWf_bounds m Hwf) as Hb.
  destruct (find m k) as [p|] eqn:Hf.
  - destruct (Insert_present_spec m k v p Hwf Hf)
      as (m' & Hi & _ & Hfk & Hoth & Hsz & _).
    rewrite Hi. cbn [fst snd].
    split; [split; [intros _; now left|reflexivity]|].
    split; [auto|]. split; [auto|]. split; [discriminate|].
    split; [auto|discriminate].
  - destruct (Insert_absent_spec m k v Hwf Hf) as [Hroom Hfull].
    destruct (Z.lt_ge_cases (size_ m) (max_entries_ m)) as [Hlt|Hge].
    + destruct (Hroom Hlt) as (m' & Hi & _ & Hfk & Hoth & Hsz & _).
      rewrite Hi. cbn [fst snd].
      split; [split; [intros _; now right|reflexivity]|].
      split; [auto|]. split; [auto|]. split; [auto|].
      split; [intros Hc; contradiction|discriminate].
    + rewrite (Hfull Hge). cbn [fst snd].
      split; [split; [discriminate|intros [Hc|Hc]; [contradiction|lia]]|].
      split; [discriminate|]. split; [auto|]. split; [discriminate|].
      split; [intros Hc; contradiction|auto].
Qed.

(** X5 -- [Erase k] returns true exactly when [k] is in the index;
    afterwards [k] is not found, every other key is found as before, and
    a successful call has turned one entry into a tombstone ([size] one
    less, [tombstones] one more); an unsuccessful call changes nothing. *)
Theorem Erase_then_Find (n : Z) (m : FMap) (k : Key) :
  0 <= n <= 2 ^ 62 -> FReachable n m ->
  let r := erase m k in
  (fst r = true <-> find m k <> None) /\
  find (snd r) k = None /\
  (forall k', k' <> k -> find (snd r) k' = find m k') /\
  (fst r = true ->
   size_ (snd r) = size_ m - 1 /\ tombstones_ (snd r) = tombstones_ m + 1) /\
  (fst r = false -> snd r = m).
Proof.
  intros Hn Hr. cbv zeta.
  destruct (FReachable_wf n m Hn Hr) as [Hwf _].
  pose proof (FWf_bounds m Hwf) as Hb.
  destruct (find m k) as [p|] eqn:Hf.
  - destruct (Erase_present_spec m k p Hwf Hf)
      as (m' & He & _ & Hfk & Hoth & Hsz & _).
    assert (Htomb : tombstones_ m' = tombstones_ m + 1).
    { pose proof (wf_shape m Hwf) as Hsh.
      rewrite (Erase_unfold m k Hsh) in He.
      rewrite (Find_unfold m k Hsh) in Hf.
      destruct (EraseLoop_present m k p _ _ Hf)
        as (j & old & _ & _ & _ & _ & Hel).
      rewrite Hel in He. inversion He. cbn [tombstones_].
      apply Z.mod_small. lia. }
    rewrite He. cbn [fst snd].
    split; [split; [discriminate|reflexivity]|].
    split; [auto|]. split; [auto|]. split; [auto|discriminate].
  - rewrite (Erase_absent_spec m k Hf). cbn [fst snd].
    split; [split; [discriminate|intros Hc; contradiction]|].
    split; [auto|]. split; [auto|]. split; [discriminate|auto].
Qed.

(** X6 -- whatever sequence of [Insert] and [Erase] calls an index has
    seen, its two counters are exact ([size] is the number of occupied
    buckets, [tombstones] the number of deleted ones), [size] never
    exceeds the logical capacity, the logical capacity is the one it
    was initialised with, and the bucket array has never been resized. *)
Theorem index_counters_exact (n : Z) (m : FMap) :
  0 <= n <= 2 ^ 62 -> FReachable n m ->
  size_ m = count_state kOccupied (table_ m) /\
  tombstones_ m = count_state kDeleted (table_ m) /\
  0 <= size_ m <= max_entries_ m /\
  size_ m + tombstones_ m <= Z.of_nat (length (table_ m)) /\
  max_entries_ m = Z.max 1 n /\
  length (table_ m) = length (table_ (Init key_default n)) /\
  mask_ m = mask_ (Init key_default n).
Proof.
  intros Hn Hr.
  destruct (FReachable_wf n m Hn Hr) as [Hwf Hmax].
  pose proof (FWf_bounds m Hwf) as Hb.
  pose proof (wf_size m Hwf) as Hsz.
  pose proof (wf_tomb m Hwf) as Htb.
  pose proof (count_states_le (table_ m)) as Hle.
  destruct (FReachable_length n m Hr) as [Hlen Hmask].
  split; [exact Hsz|]. split; [exact Htb|]. split; [lia|]. split; [lia|].
  split; [|split; assumption].
  rewrite Hmax. destruct (Z.eqb_spec n 0); lia.
Qed.

(** X7 -- an index in use never stores a key twice, and [Find] sees
    through tombstones: [Find k] yields [v] exactly when some bucket is
    occupied by [k] with value [v], and two occupied buckets with the
    same key are the same bucket. *)
Theorem no_key_stored_twice (n : Z) (m : FMap) :
  0 <= n <= 2 ^ 62 -> FReachable n m ->
  (forall k v,
      find m k = Some v <->
      exists i e, table_ m !! i = Some e /\ e_state e = kOccupied /\
                  e_key e = k /\ e_value e = v) /\
  (forall i j e e',
      table_ m !! i = Some e -> table_ m !! j = Some e' ->
      e_state e = kOccupied -> e_state e' = kOccupied ->
      e_key e = e_key e' -> i = j).
Proof.
  intros Hn Hr.
  destruct (FReachable_wf n m Hn Hr) as [Hwf _].
  split.
  - intros k v. now apply Find_Some_iff.
  - intros i j e e' Hi Hj Hoi Hoj Hk.
    pose proof (wf_reach m Hwf) as Hreach.
    pose proof (Hreach i e Hi Hoi) as Ci.
    pose proof (Hreach j e' Hj Hoj) as Cj. rewrite <- Hk in Cj.
    exact (Chain_hit_unique m (e_key e) _ _ i j e e'
             Ci Hi Hoi eq_refl Cj Hj Hoj (eq_sym Hk)).
Qed.

End FlatIndexTheory.

(** *** Integral keys: [std::hash] of an integer is the identity
    (libstdc++, libc++) and [std::equal_to] is [==]. *)
Definition int_hash (k : Z) : Z := k.
Definition int_equal (a b : Z) : bool := a =? b.

Lemma int_equal_spec (a b : Z) : int_equal a b = true <-> a = b.
Proof. apply Z.eqb_eq. Qed.

(** C1 (as the spec has it) fails: after one insertion and one erasure
    on an index built with [max_entries = 1] the counters satisfy
    [size_ + tombstones_ = max_entries_], key 2 is absent, and its
    insertion still succeeds (it reuses the tombstone). *)
Lemma Insert_succeeds_at_full_tombstone_load :
  let m := snd (Erase int_hash int_equal
                      (snd (Insert int_hash int_equal (Init 0 1) 0 0)) 0) in
  FReachable 0 int_hash int_equal 1 m /\
  Find int_hash int_equal m 2 = None /\
  size_ m + tombstones_ m = max_entries_ m /\
  fst (Insert int_hash int_equal m 2 5) = true.
Proof.
  cbv zeta. split; [|vm_compute; auto].
  apply FR_erase, FR_insert, FR_init.
Qed.

Lemma Insert_new_key_fails_iff_size_is_max_witness :
  let m := snd (Insert int_hash int_equal (Init 0 1) 7 0) in
  size_ m <= max_entries_ m /\
  (size_ m < max_entries_ m -> fst (Insert int_hash int_equal m 2 5) = true) /\
  (size_ m = max_entries_ m -> Insert int_hash int_equal m 2 5 = (false, m)) /\
  (fst (Insert int_hash int_equal m 2 5) = false <-> size_ m = max_entries_ m).
Proof.
  cbv zeta.
  apply (Insert_new_key_fails_iff_size_is_max 0 int_hash int_equal int_equal_spec 1).
  - lia.
  - apply FR_insert, FR_init.
  - vm_compute. reflexivity.
Defined.

End Flat.

(** ** fd_kv_cache_single.h : the single-owner cache *)

Definition kInvalidPosition : Z := 0xffffffff.

Definition kMaxGeneration : Z := Z.shiftl 1 FdToken.kGenerationBits - 1.

Definition NextGeneration (g : Z) : Z :=
  if g >=? kMaxGeneration then 1 else wrap32 (g + 1).

(** *** The generation counter *)

Lemma kMaxGeneration_val : kMaxGeneration = 2 ^ 24 - 1.
Proof. reflexivity. Qed.

Lemma NextGeneration_range (g : Z) :
  1 <= g <= kMaxGeneration -> 1 <= NextGeneration g <= kMaxGeneration.
Proof.
  unfold NextGeneration. rewrite Z.geb_leb, kMaxGeneration_val. intros Hg.
  destruct (Z.leb_spec (2 ^ 24 - 1) g); [lia|].
  unfold wrap32. rewrite Z.mod_small; lia.
Qed.

Lemma NextGeneration_rule (g : Z) :
  1 <= g <= kMaxGeneration ->
  NextGeneration g = if g =? 2 ^ 24 - 1 then 1 else g + 1.
Proof.
  unfold NextGeneration. rewrite Z.geb_leb, kMaxGeneration_val. intros Hg.
  destruct (Z.leb_spec (2 ^ 24 - 1) g), (Z.eqb_spec g (2 ^ 24 - 1));
    try lia; try reflexivity.
  unfold wrap32. apply Z.mod_small. lia.
Qed.

(** The generation reached from [g] after [d] bumps: the generations
    cycle through [1 .. 2^24 - 1]. *)
Definition gen_after (g d : Z) : Z := (g - 1 + d) mod (2 ^ 24 - 1) + 1.




(** Fewer than [2^24 - 1] bumps never lead back to the generation they
    started from. *)
Lemma gen_after_neq (g d : Z) :
  1 <= g <= kMaxGeneration -> 0 < d < 2 ^ 24 - 1 -> gen_after g d <> g.
Proof.
  rewrite kMaxGeneration_val. intros Hg Hd. unfold gen_after.
  destruct (Z.lt_ge_cases (g - 1 + d) (2 ^ 24 - 1)) as [Hlt|Hge].
  - rewrite Z.mod_small by lia. lia.
  - replace (g - 1 + d) with ((g - 1 + d - (2 ^ 24 - 1)) + 1 * (2 ^ 24 - 1)) by lia.
    rewrite Z.mod_add, Z.mod_small by lia. lia.
Qed.


Module Single.

Section FdKVCache.

Context {Key Value : Type}.
Variable key_default : Key.
Variable value_default : Value.
Variable hasher : Key -> Z.
Variable equal_ : Key -> Key -> bool.

(** [struct Slot]; the [reserved] padding is never read or written
    and is left out.  [occupied] only ever holds 0 or 1. *)
Record Slot := mkSlot {
  slot_key : Key;
  slot_value : Value;
  slot_generation : Z;      (* std::uint32_t, initially 1 *)
  slot_type : Z;            (* std::uint8_t *)
  slot_occupied : bool
}.

(** [Slot{}] *)
Definition Slot0 : Slot := mkSlot key_default value_default 1 0 false.

(** The members of [FdKVCache].  [free_positions_] is kept with the
    back of the vector at the head of the list: [push_back] is a cons
    and [back]/[pop_back] take the head. *)
Record FdKVCache := mkCache {
  slots_ : list Slot;
  free_positions_ : list Z;
  key_to_position_ : Flat.FlatIndexMap Key;
  next_unused_ : Z;         (* std::uint32_t *)
  cache_size_ : Z           (* the member size_ *)
}.

(** [slots_[pos]] as an rvalue; the source only reads positions below
    [slots_.size()]. *)
Definition slot_at (c : FdKVCache) (pos : Z) : Slot :=
  default Slot0 (slots_ c !! Z.to_nat pos).

Definition Reserve (n : Z) : FdKVCache :=
  let n := if n =? 0 then 1 else n in
  mkCache (replicate (Z.to_nat n) Slot0) []
          (Flat.Init key_default n) 0 0.

Definition size (c : FdKVCache) : Z := cache_size_ c.

Definition empty (c : FdKVCache) : bool := cache_size_ c =? 0.

Definition AllocatePosition (c : FdKVCache) : Z * FdKVCache :=
  match free_positions_ c with
  | pos :: rest =>
    (pos, mkCache (slots_ c) rest (key_to_position_ c)
                  (next_unused_ c) (cache_size_ c))
  | [] =>
    if next_unused_ c >=? Z.of_nat (length (slots_ c))
    then (kInvalidPosition, c)
    else (next_unused_ c,
          mkCache (slots_ c) [] (key_to_position_ c)
                  (wrap32 (next_unused_ c + 1)) (cache_size_ c))
  end.

Definition BuildHandle (c : FdKVCache) (pos : Z) : Z :=
  let slot := slot_at c pos in
  FdToken.Make (slot_type slot) (slot_generation slot) pos.

Definition ValidateHandle (c : FdKVCache) (handle : Z) : Z :=
  if FdToken.IsNull handle then kInvalidPosition
  else
    let pos := FdToken.Position handle in
    if pos >=? Z.of_nat (length (slots_ c)) then kInvalidPosition
    else
      let slot := slot_at c pos in
      if negb (slot_occupied slot) then kInvalidPosition
      else if negb (slot_type slot =? FdToken.Type_ handle)
           then kInvalidPosition
      else if negb (slot_generation slot =? FdToken.Generation handle)
           then kInvalidPosition
      else pos.

(** [Insert]; the result is the handle and the state after the call. *)
Definition Insert (c : FdKVCache) (type : Z) (key : Key) (value : Value)
  : Z * FdKVCache :=
  match Flat.Find hasher equal_ (key_to_position_ c) key with
  | Some pos => (BuildHandle c pos, c)
  | None =>
    let '(pos, c1) := AllocatePosition c in
    if pos =? kInvalidPosition then (FdToken.kNull, c1)
    else
      let slots1 :=
        alter (fun slot => mkSlot key value (slot_generation slot) type true)
              (Z.to_nat pos) (slots_ c1) in
      let '(ok, index1) :=
        Flat.Insert hasher equal_ (key_to_position_ c1) key pos in
      if negb ok then
        (FdToken.kNull,
         mkCache (alter (fun slot =>
                           mkSlot (slot_key slot) (slot_value slot)
                                  (slot_generation slot) (slot_type slot) false)
                        (Z.to_nat pos) slots1)
                 (pos :: free_positions_ c1) index1
                 (next_unused_ c1) (cache_size_ c1))
      else
        let c2 := mkCache slots1 (free_positions_ c1) index1
                          (next_unused_ c1) (wrap64 (cache_size_ c1 + 1)) in
        (BuildHandle c2 pos, c2)
  end.

Definition InsertOrAssign (c : FdKVCache) (type : Z) (key : Key) (value : Value)
  : Z * FdKVCache :=
  match Flat.Find hasher equal_ (key_to_position_ c) key with
  | Some pos =>
    let c1 :=
      mkCache (alter (fun slot =>
                        mkSlot (slot_key slot) value (slot_generation slot)
                               type (slot_occupied slot))
                     (Z.to_nat pos) (slots_ c))
              (free_positions_ c) (key_to_position_ c)
              (next_unused_ c) (cache_size_ c) in
    (BuildHandle c1 pos, c1)
  | None => Insert c type key value
  end.

(** [Get]: [None] is the null pointer, [Some v] a pointer to a slot
    value that holds [v]. *)
Definition Get (c : FdKVCache) (handle : Z) : option Value :=
  let pos := ValidateHandle c handle in
  if pos =? kInvalidPosition then None
  else Some (slot_value (slot_at c pos)).

(** A store through the pointer returned by the non-const [Get]:
    [if (Value* p = cache.Get(handle)) *p = value;]. *)
Definition StoreValue (c : FdKVCache) (handle : Z) (value : Value)
  : FdKVCache :=
  let pos := ValidateHandle c handle in
  if pos =? kInvalidPosition then c
  else mkCache (alter (fun slot =>
                         mkSlot (slot_key slot) value (slot_generation slot)
                                (slot_type slot) (slot_occupied slot))
                      (Z.to_nat pos) (slots_ c))
               (free_positions_ c) (key_to_position_ c)
               (next_unused_ c) (cache_size_ c).

Definition Erase (c : FdKVCache) (handle : Z) : bool * FdKVCache :=
  let pos := ValidateHandle c handle in
  if pos =? kInvalidPosition then (false, c)
  else
    let '(ok, index1) :=
      Flat.Erase hasher equal_ (key_to_position_ c) (slot_key (slot_at c pos)) in
    if negb ok then
      (false, mkCache (slots_ c) (free_positions_ c) index1
                      (next_unused_ c) (cache_size_ c))
    else
      (true,
       mkCache (alter (fun slot =>
                         mkSlot (slot_key slot) (slot_value slot)
                                (NextGeneration (slot_generation slot)) 0 false)
                      (Z.to_nat pos) (slots_ c))
               (pos :: free_positions_ c) index1
               (next_unused_ c) (wrap64 (cache_size_ c - 1))).

Definition FindHandle (c : FdKVCache) (key : Key) : Z :=
  match Flat.Find hasher equal_ (key_to_position_ c) key with
  | None => FdToken.kNull
  | Some pos => BuildHandle c pos
  end.

(** *** Sequences of calls *)

Inductive Op :=
| OpInsert (type : Z) (key : Key) (value : Value)
| OpInsertOrAssign (type : Z) (key : Key) (value : Value)
| OpErase (handle : Z)
| OpStore (handle : Z) (value : Value).

(** The [type] argument is a [std::uint8_t]. *)
Definition op_ok (o : Op) : Prop :=
  match o with
  | OpInsert t _ _ | OpInsertOrAssign t _ _ => is_u8 t
  | OpErase _ | OpStore _ _ => True
  end.

Definition step (c : FdKVCache) (o : Op) : FdKVCache :=
  match o with
  | OpInsert t k v => snd (Insert c t k v)
  | OpInsertOrAssign t k v => snd (InsertOrAssign c t k v)
  | OpErase h => snd (Erase c h)
  | OpStore h v => StoreValue c h v
  end.

Definition run (c : FdKVCache) (ops : list Op) : FdKVCache :=
  fold_left step ops c.

(** The states a cache constructed with [reserve_hint = n] can be in
    ([Get] [const], [FindHandle], [size] and [empty] do not change it). *)
Inductive Reachable (n : Z) : FdKVCache -> Prop :=
| R_init : Reachable n (Reserve n)
| R_step c o : Reachable n c -> op_ok o -> Reachable n (step c o).

End FdKVCache.

Arguments Slot : clear implicits.
Arguments FdKVCache : clear implicits.
Arguments Op : clear implicits.

(** ** Theory of the single-owner cache *)

Section SingleTheory.

Context {Key Value : Type}.
Variable key_default : Key.
Variable value_default : Value.
Variable hasher : Key -> Z.
Variable equal_ : Key -> Key -> bool.
Hypothesis equal_spec : forall a b, equal_ a b = true <-> a = b.

Local Abbreviation Cache := (FdKVCache Key Value).
Local Abbreviation SlotT := (Slot Key Value).
Local Abbreviation find := (Flat.Find hasher equal_).
Local Abbreviation c_insert := (Insert key_default value_default hasher equal_).
Local Abbreviation c_insert_or_assign :=
  (InsertOrAssign key_default value_default hasher equal_).
Local Abbreviation c_erase := (Erase key_default value_default hasher equal_).
Local Abbreviation c_get := (Get key_default value_default).
Local Abbreviation c_store := (StoreValue key_default value_default).
Local Abbreviation c_find_handle :=
  (FindHandle key_default value_default hasher equal_).
Local Abbreviation c_validate := (ValidateHandle key_default value_default).
Local Abbreviation c_build := (BuildHandle key_default value_default).
Local Abbreviation c_slot_at := (slot_at key_default value_default).
Local Abbreviation c_step := (step key_default value_default hasher equal_).
Local Abbreviation c_reserve := (Reserve key_default value_default).

Definition count_occupied (l : list SlotT) : Z := countb slot_occupied l.

Lemma key_dec (a b : Key) : {a = b} + {a <> b}.
Proof.
  destruct (equal_ a b) eqn:E.
  - left. now apply equal_spec.
  - right. intros H. apply equal_spec in H. congruence.
Qed.

(** The invariant of the cache. *)
Record CInv (c : Cache) : Prop := mkCInv {
  ci_index : Flat.FWf hasher (key_to_position_ c);
  ci_cap : 1 <= Z.of_nat (length (slots_ c)) < 2 ^ 32;
  ci_max : Flat.max_entries_ (key_to_position_ c) = Z.of_nat (length (slots_ c));
  ci_size : cache_size_ c = Flat.size_ (key_to_position_ c);
  ci_count : cache_size_ c = count_occupied (slots_ c);
  ci_gen : forall n s, slots_ c !! n = Some s ->
                       1 <= slot_generation s <= kMaxGeneration;
  ci_type : forall n s, slots_ c !! n = Some s -> is_u8 (slot_type s);
  ci_find : forall k p, find (key_to_position_ c) k = Some p ->
              0 <= p /\
              exists s, slots_ c !! Z.to_nat p = Some s /\
                        slot_occupied s = true /\ slot_key s = k;
  ci_occ : forall n s, slots_ c !! n = Some s -> slot_occupied s = true ->
             find (key_to_position_ c) (slot_key s) = Some (Z.of_nat n);
  ci_next : 0 <= next_unused_ c <= Z.of_nat (length (slots_ c));
  ci_fresh : forall n s, slots_ c !! n = Some s ->
               next_unused_ c <= Z.of_nat n -> slot_occupied s = false;
  ci_free : forall p, p ∈ free_positions_ c ->
              0 <= p < next_unused_ c /\
              exists s, slots_ c !! Z.to_nat p = Some s /\
                        slot_occupied s = false;
  ci_nodup : NoDup (free_positions_ c)
}.

Lemma slot_at_lookup (c : Cache) (pos : Z) (s : SlotT) :
  slots_ c !! Z.to_nat pos = Some s -> c_slot_at c pos = s.
Proof. intros H. unfold slot_at. now rewrite H. Qed.

Lemma Reserve_inv (n : Z) :
  0 <= n < 2 ^ 32 ->
  CInv (c_reserve n) /\
  Z.of_nat (length (slots_ (c_reserve n))) = (if n =? 0 then 1 else n).
Proof.
  intros Hn. unfold Reserve.
  set (cap := if n =? 0 then 1 else n).
  assert (Hcap : 1 <= cap < 2 ^ 32)
    by (unfold cap; destruct (Z.eqb_spec n 0); lia).
  destruct (Flat.Init_wf key_default hasher equal_ equal_spec cap ltac:(lia))
    as (Hwf & Hmax & Hsz & _ & Hnone).
  replace (if cap =? 0 then 1 else cap) with cap in Hmax
    by (destruct (Z.eqb_spec cap 0); lia).
  assert (Hrep : forall i s,
             replicate (Z.to_nat cap) (Slot0 key_default value_default) !! i = Some s ->
             s = Slot0 key_default value_default).
  { intros i s Hl. now apply lookup_replicate in Hl as [-> _]. }
  split; [|cbn; rewrite length_replicate; lia].
  constructor;
    cbn [slots_ free_positions_ key_to_position_ next_unused_ cache_size_].
  - exact Hwf.
  - rewrite length_replicate. lia.
  - rewrite length_replicate, Hmax. lia.
  - now rewrite Hsz.
  - symmetry. apply countb_replicate_false. reflexivity.
  - intros i s Hl. rewrite (Hrep i s Hl), kMaxGeneration_val. cbn. lia.
  - intros i s Hl. rewrite (Hrep i s Hl). cbn. unfold is_u8. lia.
  - intros k p Hf. rewrite Hnone in Hf. discriminate.
  - intros i s Hl Ho. rewrite (Hrep i s Hl) in Ho. discriminate.
  - rewrite length_replicate. lia.
  - intros i s Hl _. now rewrite (Hrep i s Hl).
  - intros p Hp. inversion Hp.
  - constructor.
Qed.

(** *** Handle validation *)

(** What [ValidateHandle] checks. *)
Definition Valid (c : Cache) (h : Z) : Prop :=
  h <> FdToken.kNull /\
  exists s, slots_ c !! Z.to_nat (FdToken.Position h) = Some s /\
            slot_occupied s = true /\
            slot_type s = FdToken.Type_ h /\
            slot_generation s = FdToken.Generation h.

Lemma Position_range (h : Z) : 0 <= FdToken.Position h < 2 ^ 32.
Proof. unfold FdToken.Position, wrap32. apply Z.mod_pos_bound. lia. Qed.

Lemma Validate_cases (c : Cache) (h : Z) :
  Z.of_nat (length (slots_ c)) < 2 ^ 32 ->
  (c_validate c h = kInvalidPosition /\ ~ Valid c h) \/
  (c_validate c h = FdToken.Position h /\
   FdToken.Position h <> kInvalidPosition /\ Valid c h).
Proof.
  intros Hcap. unfold ValidateHandle, FdToken.IsNull, Valid.
  pose proof (Position_range h) as Hp.
  destruct (Z.eqb_spec h FdToken.kNull) as [->|Hnz].
  { left. split; auto. intros [Hne _]. congruence. }
  rewrite Z.geb_leb.
  destruct (Z.leb_spec (Z.of_nat (length (slots_ c))) (FdToken.Position h))
    as [Hge|Hlt].
  { left. split; auto. intros (_ & s & Hl & _).
    apply lookup_lt_Some in Hl. lia. }
  destruct (lookup_lt_is_Some_2 (slots_ c) (Z.to_nat (FdToken.Position h))
              ltac:(lia)) as [s Hs].
  rewrite (slot_at_lookup c _ s Hs).
  destruct (slot_occupied s) eqn:Hocc; cbn [negb].
  2:{ left. split; auto. intros (_ & s' & Hl & Ho & _). congruence. }
  destruct (Z.eqb_spec (slot_type s) (FdToken.Type_ h)) as [Ht|Ht]; cbn [negb].
  2:{ left. split; auto. intros (_ & s' & Hl & _ & Ht' & _). congruence. }
  destruct (Z.eqb_spec (slot_generation s) (FdToken.Generation h)) as [Hg|Hg];
    cbn [negb].
  2:{ left. split; auto. intros (_ & s' & Hl & _ & _ & Hg'). congruence. }
  right. repeat split; eauto 10. unfold kInvalidPosition. lia.
Qed.

Lemma Get_Valid (c : Cache) (h : Z) (s : SlotT) :
  Z.of_nat (length (slots_ c)) < 2 ^ 32 ->
  Valid c h -> slots_ c !! Z.to_nat (FdToken.Position h) = Some s ->
  c_get c h = Some (slot_value s).
Proof.
  intros Hcap Hv Hs. unfold Get.
  destruct (Validate_cases c h Hcap) as [[_ Hn]|(-> & Hne & _)]; [contradiction|].
  destruct (Z.eqb_spec (FdToken.Position h) kInvalidPosition); [contradiction|].
  now rewrite (slot_at_lookup c _ s Hs).
Qed.

Lemma Get_not_Valid (c : Cache) (h : Z) :
  Z.of_nat (length (slots_ c)) < 2 ^ 32 -> ~ Valid c h -> c_get c h = None.
Proof.
  intros Hcap Hv. unfold Get.
  destruct (Validate_cases c h Hcap) as [[-> _]|(_ & _ & Hn)]; [|contradiction].
  reflexivity.
Qed.

Lemma Get_Some_Valid (c : Cache) (h : Z) (v : Value) :
  Z.of_nat (length (slots_ c)) < 2 ^ 32 -> c_get c h = Some v -> Valid c h.
Proof.
  intros Hcap Hg.
  destruct (Validate_cases c h Hcap) as [[_ Hn]|(_ & _ & Hv)]; [|exact Hv].
  rewrite (Get_not_Valid c h Hcap Hn) in Hg. discriminate.
Qed.

(** The handle built for an occupied slot carries the slot's fields
    and validates. *)
Lemma Make_slot_fields (t g p : Z) :
  is_u8 t -> 1 <= g <= kMaxGeneration -> 0 <= p < 2 ^ 32 ->
  FdToken.Type_ (FdToken.Make t g p) = t /\
  FdToken.Generation (FdToken.Make t g p) = g /\
  FdToken.Position (FdToken.Make t g p) = p /\
  FdToken.Make t g p <> FdToken.kNull.
Proof.
  intros Ht Hg Hp. rewrite kMaxGeneration_val in Hg.
  assert (Hg32 : is_u32 g) by (unfold is_u32; lia).
  assert (Hp32 : is_u32 p) by (unfold is_u32; lia).
  assert (HG : FdToken.Generation (FdToken.Make t g p) = g).
  { rewrite Generation_Make by assumption. apply Z.mod_small. lia. }
  repeat split.
  - now apply Type_Make.
  - exact HG.
  - now apply Position_Make.
  - intros Hz. rewrite Hz in HG. vm_compute in HG. lia.
Qed.

Lemma BuildHandle_Valid (c : Cache) (n : nat) (s : SlotT) :
  CInv c -> slots_ c !! n = Some s -> slot_occupied s = true ->
  c_build c (Z.of_nat n) = FdToken.Make (slot_type s) (slot_generation s) (Z.of_nat n) /\
  Valid c (c_build c (Z.of_nat n)) /\
  FdToken.Position (c_build c (Z.of_nat n)) = Z.of_nat n.
Proof.
  intros Hinv Hs Hocc.
  assert (Hb : c_build c (Z.of_nat n) =
               FdToken.Make (slot_type s) (slot_generation s) (Z.of_nat n)).
  { unfold BuildHandle. rewrite (slot_at_lookup c _ s); [reflexivity|].
    now rewrite Nat2Z.id. }
  pose proof (lookup_lt_Some _ _ _ Hs) as Hlt.
  pose proof (ci_cap c Hinv) as Hcap.
  destruct (Make_slot_fields (slot_type s) (slot_generation s) (Z.of_nat n)
              (ci_type c Hinv n s Hs) (ci_gen c Hinv n s Hs) ltac:(lia))
    as (HT & HG & HP & HN).
  rewrite Hb. repeat split; auto.
  exists s. rewrite HP, Nat2Z.id. auto.
Qed.

(** *** Updates of a slot that keep its key, generation and occupancy *)

Lemma CInv_update_payload (c : Cache) (n : nat) (old new : SlotT) :
  CInv c -> slots_ c !! n = Some old ->
  slot_key new = slot_key old ->
  slot_generation new = slot_generation old ->
  slot_occupied new = slot_occupied old ->
  is_u8 (slot_type new) ->
  CInv (mkCache (<[n:=new]> (slots_ c)) (free_positions_ c)
                (key_to_position_ c) (next_unused_ c) (cache_size_ c)).
Proof.
  intros Hinv Ho Hk Hg Hoc Ht.
  pose proof (lookup_lt_Some _ _ _ Ho) as Hlt.
  assert (Hlook : forall i s, <[n:=new]> (slots_ c) !! i = Some s ->
            exists s0, slots_ c !! i = Some s0 /\ slot_key s = slot_key s0 /\
                       slot_generation s = slot_generation s0 /\
                       slot_occupied s = slot_occupied s0 /\
                       (i <> n -> s = s0) /\ (i = n -> s = new)).
  { intros i s Hl. destruct (decide (i = n)) as [->|Hne].
    - rewrite list_lookup_insert_eq in Hl by assumption. inversion Hl; subst s.
      exists old. repeat split; auto. congruence.
    - rewrite list_lookup_insert_ne in Hl by auto. exists s.
      repeat split; auto. congruence. }
  destruct Hinv as [H1 H2 H3 H4 H5 H6 H7 H8 H9 H10 H11 H12 H13].
  constructor;
    cbn [slots_ free_positions_ key_to_position_ next_unused_ cache_size_];
    rewrite ?length_insert; auto.
  - unfold count_occupied in *.
    rewrite (countb_insert _ _ _ old) by assumption. rewrite Hoc.
    destruct (slot_occupied old); lia.
  - intros i s Hl. destruct (Hlook i s Hl) as (s0 & Hs0 & _ & -> & _). eauto.
  - intros i s Hl. destruct (Hlook i s Hl) as (s0 & Hs0 & _ & _ & _ & Hne & Heq).
    destruct (decide (i = n)) as [Hin|Hin].
    + now rewrite (Heq Hin).
    + rewrite (Hne Hin). eauto.
  - intros k p Hf. destruct (H8 k p Hf) as (Hp & s0 & Hs0 & Hocc0 & Hk0).
    split; auto.
    destruct (decide (Z.to_nat p = n)) as [Hin|Hin].
    + exists new. rewrite Hin, list_lookup_insert_eq by assumption.
      rewrite Hin, Ho in Hs0. inversion Hs0; subst s0.
      repeat split; congruence.
    + exists s0. rewrite list_lookup_insert_ne by auto. auto.
  - intros i s Hl Hocc.
    destruct (Hlook i s Hl) as (s0 & Hs0 & -> & _ & Hocc0 & _).
    apply H9; congruence.
  - intros i s Hl Hge.
    destruct (Hlook i s Hl) as (s0 & Hs0 & _ & _ & -> & _). eauto.
  - intros p Hp. destruct (H12 p Hp) as (Hr & s0 & Hs0 & Hocc0).
    split; auto.
    destruct (decide (Z.to_nat p = n)) as [Hin|Hin].
    + exists new. rewrite Hin, list_lookup_insert_eq by assumption.
      rewrite Hin, Ho in Hs0. inversion Hs0; subst s0. split; congruence.
    + exists s0. rewrite list_lookup_insert_ne by auto. auto.
Qed.

(** *** Allocation *)

Lemma count_occupied_lt (c : Cache) (n : nat) (old : SlotT) :
  slots_ c !! n = Some old -> slot_occupied old = false ->
  count_occupied (slots_ c) < Z.of_nat (length (slots_ c)).
Proof.
  intros Ho Hocc. unfold count_occupied.
  pose proof (countb_bounds slot_occupied (slots_ c)) as Hb.
  destruct (Z.eq_dec (countb slot_occupied (slots_ c))
                     (Z.of_nat (length (slots_ c)))) as [Heq|Hne]; [|lia].
  pose proof (countb_full slot_occupied _ Heq n old Ho). congruence.
Qed.

Lemma Allocate_cases (c : Cache) :
  CInv c ->
  (AllocatePosition c = (kInvalidPosition, c) /\
   free_positions_ c = [] /\
   next_unused_ c = Z.of_nat (length (slots_ c)))
  \/
  exists pos c1 old,
    AllocatePosition c = (pos, c1) /\ pos <> kInvalidPosition /\
    0 <= pos < Z.of_nat (length (slots_ c)) /\
    slots_ c !! Z.to_nat pos = Some old /\ slot_occupied old = false /\
    slots_ c1 = slots_ c /\ key_to_position_ c1 = key_to_position_ c /\
    cache_size_ c1 = cache_size_ c /\
    pos < next_unused_ c1 /\
    next_unused_ c <= next_unused_ c1 <= Z.of_nat (length (slots_ c)) /\
    NoDup (free_positions_ c1) /\ (pos ∉ free_positions_ c1) /\
    (forall p, p ∈ free_positions_ c1 -> p ∈ free_positions_ c).
Proof.
  intros Hinv. unfold AllocatePosition.
  pose proof (ci_cap c Hinv) as Hcap. pose proof (ci_next c Hinv) as Hnext.
  destruct (free_positions_ c) as [|pos rest] eqn:Hfree.
  - rewrite Z.geb_leb.
    destruct (Z.leb_spec (Z.of_nat (length (slots_ c))) (next_unused_ c))
      as [Hge|Hlt].
    + left. repeat split; auto. lia.
    + right.
      destruct (lookup_lt_is_Some_2 (slots_ c) (Z.to_nat (next_unused_ c))
                  ltac:(lia)) as [old Ho].
      eexists (next_unused_ c), _, old.
      split; [reflexivity|]. cbn.
      assert (Hw : wrap32 (next_unused_ c + 1) = next_unused_ c + 1)
        by (apply Z.mod_small; lia).
      rewrite Hw. repeat split; auto; try lia.
      * unfold kInvalidPosition. lia.
      * apply (ci_fresh c Hinv _ old Ho). lia.
      * constructor.
      * intros H. inversion H.
  - right.
    pose proof (ci_nodup c Hinv) as Hnd. rewrite Hfree in Hnd.
    apply NoDup_cons in Hnd as [Hnotin Hnd].
    destruct (ci_free c Hinv pos) as (Hr & old & Ho & Hocc);
      [rewrite Hfree; left|].
    eexists pos, _, old. split; [reflexivity|]. cbn.
    repeat split; auto; try lia.
    + unfold kInvalidPosition. lia.
    + intros p Hp. now right.
Qed.

(** *** [Insert] of a key that is not in the cache *)

Lemma Insert_absent_cases (c : Cache) (t : Z) (k : Key) (v : Value) :
  CInv c -> is_u8 t -> find (key_to_position_ c) k = None ->
  (c_insert c t k v = (FdToken.kNull, c) /\
   free_positions_ c = [] /\
   next_unused_ c = Z.of_nat (length (slots_ c)))
  \/
  exists pos old c2,
    0 <= pos /\
    slots_ c !! Z.to_nat pos = Some old /\ slot_occupied old = false /\
    c_insert c t k v = (FdToken.Make t (slot_generation old) pos, c2) /\
    slots_ c2 =
      <[Z.to_nat pos := mkSlot k v (slot_generation old) t true]> (slots_ c) /\
    find (key_to_position_ c2) k = Some pos /\
    (forall k', k' <> k ->
                find (key_to_position_ c2) k' = find (key_to_position_ c) k') /\
    cache_size_ c2 = cache_size_ c + 1 /\
    CInv c2.
Proof.
  intros Hinv Ht Hf. unfold Insert. rewrite Hf.
  destruct (Allocate_cases c Hinv)
    as [(-> & Hfree & Hnext)|
        (pos & c1 & old & -> & Hne & Hr & Ho & Hocc & Hs1 & Hi1 & Hz1 &
         Hlt & Hnx & Hnd & Hnotin & Hsub)].
  { left. auto. }
  right.
  destruct (Z.eqb_spec pos kInvalidPosition) as [|_]; [contradiction|].
  rewrite Hs1, Hi1, Hz1.
  rewrite (list_alter_as_insert _ _ _ old Ho). cbn [slot_generation].
  pose proof (lookup_lt_Some _ _ _ Ho) as Hlen.
  pose proof (ci_cap c Hinv) as Hcap.
  pose proof (count_occupied_lt c _ old Ho Hocc) as Hcnt.
  rewrite <- (ci_count c Hinv) in Hcnt.
  pose proof (ci_size c Hinv) as Hsz. pose proof (ci_max c Hinv) as Hmax.
  destruct (Flat.Insert_absent_spec hasher equal_ equal_spec
              (key_to_position_ c) k pos (ci_index c Hinv) Hf) as [Hroom _].
  destruct (Hroom ltac:(lia)) as (idx' & Hins & Hwf' & Hfk & Hfo & Hsz' & Hmax').
  rewrite Hins. cbn [negb].
  set (new := mkSlot k v (slot_generation old) t true).
  set (c2 := mkCache _ _ _ _ _).
  assert (Hw : wrap64 (cache_size_ c + 1) = cache_size_ c + 1).
  { pose proof (countb_bounds slot_occupied (slots_ c)) as Hb.
    rewrite (ci_count c Hinv). unfold count_occupied in *.
    apply Z.mod_small. rewrite (ci_count c Hinv) in Hcnt.
    unfold count_occupied in Hcnt. lia. }
  assert (Hb2 : c_build c2 pos = FdToken.Make t (slot_generation old) pos).
  { unfold BuildHandle. rewrite (slot_at_lookup c2 _ new); [reflexivity|].
    cbn. now apply list_lookup_insert_eq. }
  exists pos, old, c2. rewrite Hb2.
  assert (Hlook : forall i s, slots_ c2 !! i = Some s ->
            (i = Z.to_nat pos /\ s = new) \/
            (i <> Z.to_nat pos /\ slots_ c !! i = Some s)).
  { intros i s Hl. cbn in Hl. destruct (decide (i = Z.to_nat pos)) as [->|Hin].
    - rewrite list_lookup_insert_eq in Hl by assumption.
      inversion Hl. auto.
    - rewrite list_lookup_insert_ne in Hl by auto. auto. }
  split; [lia|]. split; [exact Ho|]. split; [exact Hocc|].
  split; [reflexivity|]. split; [reflexivity|].
  split; [exact Hfk|]. split; [exact Hfo|]. split; [exact Hw|].
  - constructor;
      cbn [c2 slots_ free_positions_ key_to_position_ next_unused_ cache_size_];
      rewrite ?length_insert; auto; try lia.
    + rewrite Hw. pose proof (ci_count c Hinv) as Hcc.
      unfold count_occupied in *.
      rewrite (countb_insert _ _ _ old) by assumption. rewrite Hocc.
      subst new. cbn [slot_occupied]. lia.
    + intros i s Hl. destruct (Hlook i s Hl) as [[_ ->]|[_ Hl']].
      * cbn. exact (ci_gen c Hinv _ old Ho).
      * exact (ci_gen c Hinv _ s Hl').
    + intros i s Hl. destruct (Hlook i s Hl) as [[_ ->]|[_ Hl']].
      * exact Ht.
      * exact (ci_type c Hinv _ s Hl').
    + intros k' p Hfp.
      destruct (key_dec k' k) as [->|Hk].
      * rewrite Hfk in Hfp. inversion Hfp; subst p. split; [lia|].
        exists new. split; [now apply list_lookup_insert_eq|]. auto.
      * rewrite (Hfo k' Hk) in Hfp.
        destruct (ci_find c Hinv k' p Hfp) as (Hp & s & Hs & Hso & Hsk).
        split; auto. exists s. split; auto.
        rewrite list_lookup_insert_ne; auto.
        intros Heq. rewrite <- Heq, Ho in Hs. congruence.
    + intros i s Hl Hso. destruct (Hlook i s Hl) as [[-> ->]|[Hin Hl']].
      * cbn. rewrite Z2Nat.id by lia. exact Hfk.
      * pose proof (ci_occ c Hinv i s Hl' Hso) as Hfs.
        rewrite Hfo; auto. intros Heq. rewrite Heq in Hfs. congruence.
    + intros i s Hl Hge. destruct (Hlook i s Hl) as [[-> ->]|[Hin Hl']].
      * lia.
      * apply (ci_fresh c Hinv i s Hl'). lia.
    + intros p Hp.
      destruct (ci_free c Hinv p (Hsub p Hp)) as (Hpr & s & Hs & Hso).
      split; [lia|]. exists s. split; auto.
      rewrite list_lookup_insert_ne; auto.
      intros Heq. apply Hnotin.
      replace pos with p; [exact Hp|]. lia.
Qed.

(** *** [Erase] *)

Lemma Valid_slot (c : Cache) (h : Z) :
  CInv c -> Valid c h ->
  exists s, slots_ c !! Z.to_nat (FdToken.Position h) = Some s /\
            slot_occupied s = true /\
            slot_type s = FdToken.Type_ h /\
            slot_generation s = FdToken.Generation h /\
            find (key_to_position_ c) (slot_key s) = Some (FdToken.Position h).
Proof.
  intros Hinv (_ & s & Hs & Hocc & Ht & Hg).
  exists s. repeat split; auto.
  pose proof (ci_occ c Hinv _ s Hs Hocc) as Hf.
  pose proof (Position_range h).
  now rewrite Z2Nat.id in Hf by lia.
Qed.

Lemma Erase_cases (c : Cache) (h : Z) :
  CInv c ->
  (~ Valid c h /\ c_erase c h = (false, c))
  \/
  (Valid c h /\
   exists old c2,
     slots_ c !! Z.to_nat (FdToken.Position h) = Some old /\
     slot_occupied old = true /\
     c_erase c h = (true, c2) /\
     slots_ c2 =
       <[Z.to_nat (FdToken.Position h) :=
           mkSlot (slot_key old) (slot_value old)
                  (NextGeneration (slot_generation old)) 0 false]> (slots_ c) /\
     find (key_to_position_ c2) (slot_key old) = None /\
     (forall k', k' <> slot_key old ->
                 find (key_to_position_ c2) k' = find (key_to_position_ c) k') /\
     cache_size_ c2 = cache_size_ c - 1 /\
     CInv c2).
Proof.
  intros Hinv. pose proof (ci_cap c Hinv) as Hcap. unfold Erase.
  destruct (Validate_cases c h ltac:(lia)) as [[-> Hn]|(-> & Hne & Hv)].
  { left. auto. }
  right. split; [exact Hv|].
  destruct (Z.eqb_spec (FdToken.Position h) kInvalidPosition) as [|_];
    [contradiction|].
  set (pos := FdToken.Position h) in *.
  pose proof (Position_range h) as Hpr. fold pos in Hpr.
  destruct (Valid_slot c h Hinv Hv) as (old & Ho & Hocc & _ & _ & Hfind).
  fold pos in Ho, Hfind.
  rewrite (slot_at_lookup c _ old Ho).
  destruct (Flat.Erase_present_spec hasher equal_ equal_spec
              (key_to_position_ c) (slot_key old) pos (ci_index c Hinv) Hfind)
    as (idx' & Her & Hwf' & Hfk & Hfo & Hsz' & Hmax').
  rewrite Her. cbn [negb].
  rewrite (list_alter_as_insert _ _ _ old Ho).
  set (new := mkSlot (slot_key old) (slot_value old)
                     (NextGeneration (slot_generation old)) 0 false).
  set (c2 := mkCache _ _ _ _ _).
  pose proof (lookup_lt_Some _ _ _ Ho) as Hlen.
  pose proof (countb_pos slot_occupied _ _ old Ho Hocc) as Hpos.
  pose proof (countb_bounds slot_occupied (slots_ c)) as Hb.
  pose proof (ci_count c Hinv) as Hcc. unfold count_occupied in Hcc.
  assert (Hw : wrap64 (cache_size_ c - 1) = cache_size_ c - 1)
    by (apply Z.mod_small; lia).
  assert (Hlook : forall i s, slots_ c2 !! i = Some s ->
            (i = Z.to_nat pos /\ s = new) \/
            (i <> Z.to_nat pos /\ slots_ c !! i = Some s)).
  { intros i s Hl. cbn in Hl. destruct (decide (i = Z.to_nat pos)) as [->|Hin].
    - rewrite list_lookup_insert_eq in Hl by assumption.
      inversion Hl. auto.
    - rewrite list_lookup_insert_ne in Hl by auto. auto. }
  exists old, c2.
  split; [exact Ho|]. split; [exact Hocc|]. split; [reflexivity|].
  split; [reflexivity|]. split; [exact Hfk|]. split; [exact Hfo|].
  split; [exact Hw|].
  pose proof (ci_size c Hinv) as Hsz. pose proof (ci_max c Hinv) as Hmax.
  constructor;
    cbn [c2 slots_ free_positions_ key_to_position_ next_unused_ cache_size_];
    rewrite ?length_insert; auto; try lia.
  - rewrite Hw. unfold count_occupied.
    rewrite (countb_insert _ _ _ old) by assumption. rewrite Hocc.
    subst new. cbn [slot_occupied]. lia.
  - intros i s Hl. destruct (Hlook i s Hl) as [[_ ->]|[_ Hl']].
    + cbn. apply NextGeneration_range. exact (ci_gen c Hinv _ old Ho).
    + exact (ci_gen c Hinv _ s Hl').
  - intros i s Hl. destruct (Hlook i s Hl) as [[_ ->]|[_ Hl']].
    + cbn. unfold is_u8. lia.
    + exact (ci_type c Hinv _ s Hl').
  - intros k' p Hfp.
    destruct (key_dec k' (slot_key old)) as [->|Hk]; [congruence|].
    rewrite (Hfo k' Hk) in Hfp.
    destruct (ci_find c Hinv k' p Hfp) as (Hp & s & Hs & Hso & Hsk).
    split; auto. exists s. split; auto.
    rewrite list_lookup_insert_ne; auto.
    intros Heq. rewrite <- Heq, Ho in Hs. congruence.
  - intros i s Hl Hso. destruct (Hlook i s Hl) as [[-> ->]|[Hin Hl']].
    + discriminate.
    + pose proof (ci_occ c Hinv i s Hl' Hso) as Hfs.
      rewrite Hfo; auto. intros Heq. rewrite Heq, Hfind in Hfs.
      inversion Hfs. lia.
  - apply (ci_next c Hinv).
  - intros i s Hl Hge. destruct (Hlook i s Hl) as [[-> ->]|[Hin Hl']].
    + reflexivity.
    + apply (ci_fresh c Hinv i s Hl'). lia.
  - intros p Hp.
    assert (Hpn : pos < next_unused_ c).
    { destruct (Z.lt_ge_cases pos (next_unused_ c)) as [|Hge]; auto.
      pose proof (ci_fresh c Hinv _ old Ho ltac:(lia)). congruence. }
    destruct (decide (Z.to_nat p = Z.to_nat pos)) as [Heq|Hneq].
    + assert (Hpp : 0 <= p < next_unused_ c).
      { apply elem_of_cons in Hp as [->|Hp]; [lia|].
        apply (ci_free c Hinv p Hp). }
      split; auto. exists new. rewrite Heq.
      split; [now apply list_lookup_insert_eq|reflexivity].
    + apply elem_of_cons in Hp as [->|Hp]; [congruence|].
      destruct (ci_free c Hinv p Hp) as (Hpr' & s & Hs & Hso).
      split; auto. exists s. rewrite list_lookup_insert_ne by auto. auto.
  - apply NoDup_cons. split; [|apply (ci_nodup c Hinv)].
    intros Hin. destruct (ci_free c Hinv pos Hin) as (_ & s & Hs & Hso).
    congruence.
Qed.

(** *** [InsertOrAssign] on a key that is in the cache, and stores
    through a [Get] pointer *)

Lemma InsertOrAssign_present (c : Cache) (t : Z) (k : Key) (v : Value) (pos : Z) :
  CInv c -> is_u8 t -> find (key_to_position_ c) k = Some pos ->
  exists old c2,
    0 <= pos /\
    slots_ c !! Z.to_nat pos = Some old /\
    slot_occupied old = true /\ slot_key old = k /\
    c_insert_or_assign c t k v = (FdToken.Make t (slot_generation old) pos, c2) /\
    c2 = mkCache (<[Z.to_nat pos := mkSlot k v (slot_generation old) t true]>
                    (slots_ c))
                 (free_positions_ c) (key_to_position_ c)
                 (next_unused_ c) (cache_size_ c) /\
    CInv c2.
Proof.
  intros Hinv Ht Hf. unfold InsertOrAssign. rewrite Hf.
  destruct (ci_find c Hinv k pos Hf) as (Hp & old & Ho & Hocc & Hk).
  rewrite (list_alter_as_insert _ _ _ old Ho). rewrite Hk, Hocc.
  pose proof (lookup_lt_Some _ _ _ Ho) as Hlen.
  set (new := mkSlot k v (slot_generation old) t true).
  set (c2 := mkCache _ _ _ _ _).
  assert (Hb2 : c_build c2 pos = FdToken.Make t (slot_generation old) pos).
  { unfold BuildHandle. rewrite (slot_at_lookup c2 _ new); [reflexivity|].
    cbn. now apply list_lookup_insert_eq. }
  exists old, c2. rewrite Hb2. conj_split; auto.
  apply (CInv_update_payload c _ old new); auto.
Qed.

Lemma Store_cases (c : Cache) (h : Z) (v : Value) :
  CInv c ->
  (~ Valid c h /\ c_store c h v = c)
  \/
  (Valid c h /\
   exists old,
     slots_ c !! Z.to_nat (FdToken.Position h) = Some old /\
     c_store c h v =
     mkCache (<[Z.to_nat (FdToken.Position h) :=
                  mkSlot (slot_key old) v (slot_generation old)
                         (slot_type old) (slot_occupied old)]> (slots_ c))
             (free_positions_ c) (key_to_position_ c)
             (next_unused_ c) (cache_size_ c) /\
     CInv (c_store c h v)).
Proof.
  intros Hinv. pose proof (ci_cap c Hinv) as Hcap. unfold StoreValue.
  destruct (Validate_cases c h ltac:(lia)) as [[-> Hn]|(-> & Hne & Hv)].
  { left. auto. }
  right. split; [exact Hv|].
  destruct (Z.eqb_spec (FdToken.Position h) kInvalidPosition) as [|_];
    [contradiction|].
  destruct (Valid_slot c h Hinv Hv) as (old & Ho & _).
  rewrite (list_alter_as_insert _ _ _ old Ho).
  exists old. conj_split; auto.
  apply (CInv_update_payload c _ old); auto.
  apply (ci_type c Hinv _ old Ho).
Qed.

(** *** Every call keeps the invariant *)

(** How a call may change the generation of a slot. *)
Definition gen_step (o : Op Key Value) (g g' : Z) : Prop :=
  g' = g \/ ((exists h, o = OpErase h) /\ g' = NextGeneration g).

Lemma insert_gen_rel (o : Op Key Value) (l : list SlotT) (p : nat) (old new : SlotT) :
  l !! p = Some old ->
  gen_step o (slot_generation old) (slot_generation new) ->
  forall n s, l !! n = Some s ->
    exists s', <[p:=new]> l !! n = Some s' /\
               gen_step o (slot_generation s) (slot_generation s').
Proof.
  intros Ho Hrel n s Hs. pose proof (lookup_lt_Some _ _ _ Ho) as Hlen.
  destruct (decide (n = p)) as [->|Hne].
  - exists new. rewrite list_lookup_insert_eq by assumption.
    split; auto. congruence.
  - exists s. rewrite list_lookup_insert_ne by auto. split; auto. now left.
Qed.

Lemma same_gen_rel (o : Op Key Value) (l : list SlotT) :
  forall n s, l !! n = Some s ->
    exists s', l !! n = Some s' /\
               gen_step o (slot_generation s) (slot_generation s').
Proof. intros n s Hs. exists s. split; auto. now left. Qed.

Lemma Insert_inv (c : Cache) (t : Z) (k : Key) (v : Value) :
  CInv c -> is_u8 t ->
  let c' := snd (c_insert c t k v) in
  CInv c' /\ length (slots_ c') = length (slots_ c) /\
  forall n s, slots_ c !! n = Some s ->
    exists s', slots_ c' !! n = Some s' /\
               slot_generation s' = slot_generation s.
Proof.
  intros Hinv Ht. cbv zeta.
  destruct (find (key_to_position_ c) k) as [pos|] eqn:Hf.
  - unfold Insert. rewrite Hf. cbn. eauto.
  - destruct (Insert_absent_cases c t k v Hinv Ht Hf)
      as [(-> & _)|(pos & old & c2 & Hp & Ho & Hocc & -> & Hs2 & _ & _ & _ & Hinv2)];
      cbn [snd]; [eauto|].
    rewrite Hs2, length_insert. conj_split; auto.
    intros n s Hs. pose proof (lookup_lt_Some _ _ _ Ho) as Hlen.
    destruct (decide (n = Z.to_nat pos)) as [->|Hne].
    + eexists. rewrite list_lookup_insert_eq by assumption.
      split; [reflexivity|]. cbn. congruence.
    + exists s. rewrite list_lookup_insert_ne by auto. auto.
Qed.

Lemma step_inv (c : Cache) (o : Op Key Value) :
  CInv c -> op_ok o ->
  CInv (c_step c o) /\
  length (slots_ (c_step c o)) = length (slots_ c) /\
  forall n s, slots_ c !! n = Some s ->
    exists s', slots_ (c_step c o) !! n = Some s' /\
               gen_step o (slot_generation s) (slot_generation s').
Proof.
  intros Hinv Hok. destruct o as [t k v|t k v|h|h v]; cbn [step op_ok] in *.
  - destruct (Insert_inv c t k v Hinv Hok) as (H1 & H2 & H3).
    conj_split; auto.
    intros n s Hs. destruct (H3 n s Hs) as (s' & Hs' & Hg).
    exists s'. split; auto. now left.
  - destruct (find (key_to_position_ c) k) as [pos|] eqn:Hf.
    + destruct (InsertOrAssign_present c t k v pos Hinv Hok Hf)
        as (old & c2 & Hp & Ho & Hocc & Hk & -> & -> & Hinv2).
      cbn [snd slots_]. rewrite length_insert. conj_split; auto.
      apply (insert_gen_rel _ _ _ old); auto. now left.
    + unfold InsertOrAssign. rewrite Hf.
      destruct (Insert_inv c t k v Hinv Hok) as (H1 & H2 & H3).
      conj_split; auto.
      intros n s Hs. destruct (H3 n s Hs) as (s' & Hs' & Hg).
      exists s'. split; auto. now left.
  - destruct (Erase_cases c h Hinv)
      as [[_ ->]|(_ & old & c2 & Ho & Hocc & -> & Hs2 & _ & _ & _ & Hinv2)];
      cbn [snd].
    + conj_split; auto. apply same_gen_rel.
    + rewrite Hs2, length_insert. conj_split; auto.
      apply (insert_gen_rel _ _ _ old); auto. right. eauto.
  - destruct (Store_cases c h v Hinv) as [[_ ->]|(_ & old & Ho & Heq & Hinv2)].
    + conj_split; auto. apply same_gen_rel.
    + split; [exact Hinv2|]. rewrite Heq. cbn [slots_].
      rewrite length_insert. split; auto.
      apply (insert_gen_rel _ _ _ old); auto. now left.
Qed.

Definition capacity (n : Z) : Z := if n =? 0 then 1 else n.

Lemma Reachable_inv (n : Z) (c : Cache) :
  0 <= n < 2 ^ 32 ->
  Reachable key_default value_default hasher equal_ n c ->
  CInv c /\ Z.of_nat (length (slots_ c)) = capacity n.
Proof.
  intros Hn Hr. induction Hr as [|c o Hr [IH1 IH2] Hok].
  - apply Reserve_inv. exact Hn.
  - destruct (step_inv c o IH1 Hok) as (H1 & H2 & _).
    split; auto. now rewrite H2.
Qed.

(** *** Handles returned by the cache *)

Lemma FindHandle_present (c : Cache) (k : Key) (pos : Z) :
  CInv c -> find (key_to_position_ c) k = Some pos ->
  exists s,
    slots_ c !! Z.to_nat pos = Some s /\ slot_occupied s = true /\
    slot_key s = k /\
    c_find_handle c k = FdToken.Make (slot_type s) (slot_generation s) pos /\
    FdToken.Position (c_find_handle c k) = pos /\
    FdToken.Generation (c_find_handle c k) = slot_generation s /\
    FdToken.Type_ (c_find_handle c k) = slot_type s /\
    Valid c (c_find_handle c k).
Proof.
  intros Hinv Hf. unfold FindHandle. rewrite Hf.
  destruct (ci_find c Hinv k pos Hf) as (Hp & s & Hs & Hocc & Hk).
  exists s.
  destruct (BuildHandle_Valid c _ s Hinv Hs Hocc) as (Hb & Hv & Hpos).
  rewrite Z2Nat.id in Hb, Hv, Hpos by lia.
  pose proof (lookup_lt_Some _ _ _ Hs) as Hlt.
  pose proof (ci_cap c Hinv) as Hcap.
  destruct (Make_slot_fields (slot_type s) (slot_generation s) pos
              (ci_type c Hinv _ s Hs) (ci_gen c Hinv _ s Hs) ltac:(lia))
    as (HT & HG & HP & HN).
  rewrite Hb. conj_split; auto. now rewrite <- Hb.
Qed.

Lemma FindHandle_null_iff (c : Cache) (k : Key) :
  CInv c ->
  c_find_handle c k = FdToken.kNull <-> find (key_to_position_ c) k = None.
Proof.
  intros Hinv. split.
  - intros Hnull. destruct (find (key_to_position_ c) k) as [pos|] eqn:Hf; auto.
    destruct (FindHandle_present c k pos Hinv Hf) as (s & _ & _ & _ & _ & _ & _ & _ & Hv).
    destruct Hv as [Hne _]. contradiction.
  - intros Hf. unfold FindHandle. now rewrite Hf.
Qed.

(** What a non-null result of [Insert] looks like. *)
Lemma Insert_result (c c' : Cache) (t : Z) (k : Key) (v : Value) (h : Z) :
  CInv c -> is_u8 t -> c_insert c t k v = (h, c') -> h <> FdToken.kNull ->
  CInv c' /\ Valid c' h /\ c_find_handle c' k = h /\
  exists s, slots_ c' !! Z.to_nat (FdToken.Position h) = Some s /\
            slot_key s = k /\
            FdToken.Generation h = slot_generation s /\
            (find (key_to_position_ c) k = None ->
             slot_value s = v /\ slot_type s = t /\
             cache_size_ c' = cache_size_ c + 1) /\
            (find (key_to_position_ c) k <> None -> c' = c).
Proof.
  intros Hinv Ht Hins Hnz.
  destruct (find (key_to_position_ c) k) as [pos|] eqn:Hf.
  - destruct (FindHandle_present c k pos Hinv Hf)
      as (s & Hs & Hocc & Hk & Hfh & HP & HG & HT & Hv).
    assert (Heq : c_insert c t k v = (c_find_handle c k, c)).
    { unfold Insert, FindHandle. now rewrite Hf. }
    rewrite Heq in Hins. inversion Hins; subst h c'.
    conj_split; auto. exists s. rewrite HP. conj_split; auto. congruence.
  - destruct (Insert_absent_cases c t k v Hinv Ht Hf)
      as [(Heq & _)|(pos & old & c2 & Hp & Ho & Hocc & Heq & Hs2 & Hfk & Hfo & Hsz & Hinv2)];
      rewrite Heq in Hins; inversion Hins; subst h c'; [contradiction|].
    pose proof (lookup_lt_Some _ _ _ Ho) as Hlt.
    pose proof (ci_cap c Hinv) as Hcap.
    destruct (Make_slot_fields t (slot_generation old) pos Ht
                (ci_gen c Hinv _ old Ho) ltac:(lia)) as (HT & HG & HP & HN).
    set (new := mkSlot k v (slot_generation old) t true) in *.
    assert (Hnew : slots_ c2 !! Z.to_nat pos = Some new)
      by (rewrite Hs2; now apply list_lookup_insert_eq).
    conj_split; auto.
    + split; auto. exists new. rewrite HP. conj_split; auto.
    + destruct (FindHandle_present c2 k pos Hinv2 Hfk) as (s & Hs & _ & _ & Hfh & _).
      rewrite Hfh. rewrite Hnew in Hs. inversion Hs. reflexivity.
    + exists new. rewrite HP. conj_split; auto. congruence.
Qed.

(** *** The properties of the single-owner cache *)

Local Abbreviation reachable :=
  (Reachable key_default value_default hasher equal_).

(** C4 (as the code has it) -- round trip: when [Insert t k v] of a
    cache built with a capacity below 2^32 returns a non-null handle
    [h], an immediate [FindHandle k] returns [h] and an immediate
    [Get h] is not null; it points to [v] when [k] was not in the
    cache before the call, and to the value stored earlier, in an
    unchanged cache, when [k] was already there. *)
Theorem insert_round_trip (n : Z) (c c' : Cache) (t : Z) (k : Key) (v : Value) (h : Z) :
  0 <= n < 2 ^ 32 -> reachable n c -> is_u8 t ->
  c_insert c t k v = (h, c') -> h <> FdToken.kNull ->
  c_find_handle c' k = h /\
  (exists v0, c_get c' h = Some v0) /\
  (c_find_handle c k = FdToken.kNull -> c_get c' h = Some v) /\
  (c_find_handle c k <> FdToken.kNull -> c' = c /\ c_get c' h = c_get c h).
Proof.
  intros Hn Hr Ht Hins Hnz.
  destruct (Reachable_inv n c Hn Hr) as [Hinv _].
  destruct (Insert_result c c' t k v h Hinv Ht Hins Hnz)
    as (Hinv' & Hv & Hfh & s & Hs & Hk & HG & Hnew & Hold).
  pose proof (ci_cap c' Hinv') as Hcap.
  pose proof (Get_Valid c' h s ltac:(lia) Hv Hs) as Hget.
  conj_split; eauto.
  - intros Hnull. apply FindHandle_null_iff in Hnull; auto.
    destruct (Hnew Hnull) as (Hval & _). now rewrite <- Hval.
  - intros Hpres. rewrite FindHandle_null_iff in Hpres by assumption.
    rewrite (Hold Hpres). auto.
Qed.

(** C5 -- idempotent insert and upsert: for a key [k] that is in the
    cache, [Insert t k v] returns the handle that [FindHandle k]
    returns and leaves the cache as it is; [InsertOrAssign t k v]
    returns a handle with the position and the generation of that
    handle and with type [t], rewrites the value and the type of that
    one slot in place (key, generation and occupancy of the slot, all
    other slots, the index, the free list, the cursor and the size are
    kept), after which [Get] yields [v] and [FindHandle k] the handle
    returned. *)
Theorem insert_idempotent_upsert_in_place (n : Z) (c : Cache) (t : Z) (k : Key) (v : Value) :
  0 <= n < 2 ^ 32 -> reachable n c -> is_u8 t ->
  c_find_handle c k <> FdToken.kNull ->
  c_insert c t k v = (c_find_handle c k, c) /\
  (forall h, c_get (snd (c_insert c t k v)) h = c_get c h) /\
  let h' := fst (c_insert_or_assign c t k v) in
  let c' := snd (c_insert_or_assign c t k v) in
  FdToken.Position h' = FdToken.Position (c_find_handle c k) /\
  FdToken.Generation h' = FdToken.Generation (c_find_handle c k) /\
  FdToken.Type_ h' = t /\
  c_get c' h' = Some v /\
  c_find_handle c' k = h' /\
  (exists old,
      slots_ c !! Z.to_nat (FdToken.Position h') = Some old /\
      slots_ c' =
        <[Z.to_nat (FdToken.Position h') :=
            mkSlot (slot_key old) v (slot_generation old) t (slot_occupied old)]>
          (slots_ c)) /\
  free_positions_ c' = free_positions_ c /\
  key_to_position_ c' = key_to_position_ c /\
  next_unused_ c' = next_unused_ c /\
  size c' = size c.
Proof.
  intros Hn Hr Ht Hpres.
  destruct (Reachable_inv n c Hn Hr) as [Hinv _].
  rewrite FindHandle_null_iff in Hpres by assumption.
  destruct (find (key_to_position_ c) k) as [pos|] eqn:Hf; [|contradiction].
  assert (Hi : c_insert c t k v = (c_find_handle c k, c)).
  { unfold Insert, FindHandle. now rewrite Hf. }
  split; [exact Hi|]. split; [now rewrite Hi|].
  destruct (FindHandle_present c k pos Hinv Hf)
    as (s & Hs & Hocc & Hk & Hfh & HP & HG & HT & Hv).
  destruct (InsertOrAssign_present c t k v pos Hinv Ht Hf)
    as (old & c2 & Hp & Ho & Hocc' & Hk' & -> & Hc2 & Hinv2).
  cbv zeta. cbn [fst snd].
  rewrite Ho in Hs. inversion Hs; subst s.
  pose proof (lookup_lt_Some _ _ _ Ho) as Hlt.
  pose proof (ci_cap c Hinv) as Hcap.
  destruct (Make_slot_fields t (slot_generation old) pos Ht
              (ci_gen c Hinv _ old Ho) ltac:(lia)) as (HT2 & HG2 & HP2 & HN2).
  set (new := mkSlot k v (slot_generation old) t true) in *.
  assert (Hnew : slots_ c2 !! Z.to_nat pos = Some new)
    by (rewrite Hc2; cbn; now apply list_lookup_insert_eq).
  assert (Hv2 : Valid c2 (FdToken.Make t (slot_generation old) pos)).
  { split; auto. exists new. rewrite HP2. conj_split; auto. }
  rewrite HP2, HG2, HT2, HP, HG.
  conj_split; auto.
  - pose proof (ci_cap c2 Hinv2) as Hcap2.
    rewrite (Get_Valid c2 _ new ltac:(lia) Hv2); [reflexivity|].
    now rewrite HP2.
  - assert (Hf2 : find (key_to_position_ c2) k = Some pos)
      by (rewrite Hc2; exact Hf).
    destruct (FindHandle_present c2 k pos Hinv2 Hf2) as (s2 & Hs2 & _ & _ & Hfh2 & _).
    rewrite Hfh2. rewrite Hnew in Hs2. inversion Hs2. reflexivity.
  - exists old. split; auto. rewrite Hc2. cbn. subst new.
    now rewrite Hk', Hocc'.
  - now rewrite Hc2.
  - now rewrite Hc2.
  - now rewrite Hc2.
  - now rewrite Hc2.
Qed.

(** Bounded capacity below 2^32: in every state reachable from a cache
    constructed with capacity [C] (below 2^32), [0 <= size <= C],
    [size] is the number of occupied slots, and when [size = C] the
    [Insert] of a key that is not in the cache returns [kNull] and
    leaves the cache unchanged. *)
Theorem bounded_capacity (n : Z) (c : Cache) :
  0 <= n < 2 ^ 32 -> reachable n c ->
  0 <= size c <= capacity n /\
  size c = count_occupied (slots_ c) /\
  (size c = capacity n ->
   forall t k v, c_find_handle c k = FdToken.kNull ->
                 c_insert c t k v = (FdToken.kNull, c)).
Proof.
  intros Hn Hr. destruct (Reachable_inv n c Hn Hr) as [Hinv Hlen].
  pose proof (ci_count c Hinv) as Hcc. unfold size.
  pose proof (countb_bounds slot_occupied (slots_ c)) as Hb.
  unfold count_occupied in *. conj_split; try lia.
  intros Hfull t k v Habs.
  apply FindHandle_null_iff in Habs; auto.
  unfold Insert. rewrite Habs.
  destruct (Allocate_cases c Hinv)
    as [(-> & _)|(pos & c1 & old & _ & _ & _ & Ho & Hocc & _)].
  - reflexivity.
  - pose proof (count_occupied_lt c _ old Ho Hocc) as Hlt.
    unfold count_occupied in Hlt. lia.
Qed.

(** C7 -- generation lifecycle: every slot of a new cache has
    generation 1; [Erase] of a handle that [Get] accepts succeeds, the
    generation of its slot is the one [g] in the handle and becomes
    [g + 1], or 1 when [g = 2^24 - 1]; [Erase] of any other handle is
    refused and changes nothing; a successful [Erase] changes no other
    generation; [Insert] changes no generation; so every slot of
    a reachable state has a generation in [1, 2^24 - 1], and every
    handle returned by [Insert], [InsertOrAssign] or [FindHandle] is
    [kNull] or carries a generation in that range. *)
Theorem generation_lifecycle (n : Z) :
  0 <= n < 2 ^ 32 ->
  (forall i s, slots_ (c_reserve n) !! i = Some s -> slot_generation s = 1) /\
  forall c, reachable n c ->
    (forall h, c_get c h <> None ->
       exists c' s s',
         c_erase c h = (true, c') /\
         slots_ c !! Z.to_nat (FdToken.Position h) = Some s /\
         slot_generation s = FdToken.Generation h /\
         slots_ c' !! Z.to_nat (FdToken.Position h) = Some s' /\
         slot_generation s' =
           (if FdToken.Generation h =? 2 ^ 24 - 1 then 1
            else FdToken.Generation h + 1)) /\
    (forall h, c_get c h = None -> c_erase c h = (false, c)) /\
    (forall h c', c_erase c h = (true, c') ->
       exists s s',
         slots_ c !! Z.to_nat (FdToken.Position h) = Some s /\
         slots_ c' !! Z.to_nat (FdToken.Position h) = Some s' /\
         slot_generation s' =
           (if slot_generation s =? 2 ^ 24 - 1 then 1 else slot_generation s + 1) /\
         forall i, i <> Z.to_nat (FdToken.Position h) ->
                   slots_ c' !! i = slots_ c !! i) /\
    (forall t k v i s, is_u8 t -> slots_ c !! i = Some s ->
       exists s', slots_ (snd (c_insert c t k v)) !! i = Some s' /\
                  slot_generation s' = slot_generation s) /\
    (forall i s, slots_ c !! i = Some s ->
                 1 <= slot_generation s <= 2 ^ 24 - 1) /\
    (forall t k v, is_u8 t ->
       let h := fst (c_insert c t k v) in
       h = FdToken.kNull \/ 1 <= FdToken.Generation h <= 2 ^ 24 - 1) /\
    (forall t k v, is_u8 t ->
       let h := fst (c_insert_or_assign c t k v) in
       h = FdToken.kNull \/ 1 <= FdToken.Generation h <= 2 ^ 24 - 1) /\
    (forall k,
       let h := c_find_handle c k in
       h = FdToken.kNull \/ 1 <= FdToken.Generation h <= 2 ^ 24 - 1).
Proof.
  intros Hn. split.
  { intros i s Hl. unfold Reserve in Hl. cbn in Hl.
    now apply lookup_replicate in Hl as [-> _]. }
  intros c Hr. destruct (Reachable_inv n c Hn Hr) as [Hinv _].
  assert (Hins : forall t k v, is_u8 t ->
            let h := fst (c_insert c t k v) in
            h = FdToken.kNull \/ 1 <= FdToken.Generation h <= 2 ^ 24 - 1).
  { intros t k v Ht. cbv zeta.
    destruct (c_insert c t k v) as [h c'] eqn:Hi. cbn [fst].
    destruct (Z.eq_dec h FdToken.kNull) as [|Hnz]; [now left|right].
    destruct (Insert_result c c' t k v h Hinv Ht Hi Hnz)
      as (Hinv' & _ & _ & s & Hs & _ & -> & _).
    rewrite <- kMaxGeneration_val. exact (ci_gen c' Hinv' _ s Hs). }
  assert (Hfh : forall k,
            let h := c_find_handle c k in
            h = FdToken.kNull \/ 1 <= FdToken.Generation h <= 2 ^ 24 - 1).
  { intros k. cbv zeta.
    destruct (find (key_to_position_ c) k) as [pos|] eqn:Hf.
    - right. destruct (FindHandle_present c k pos Hinv Hf)
        as (s & Hs & _ & _ & _ & _ & -> & _).
      rewrite <- kMaxGeneration_val. exact (ci_gen c Hinv _ s Hs).
    - left. unfold FindHandle. now rewrite Hf. }
  pose proof (ci_cap c Hinv) as Hc32.
  conj_split.
  - intros h Hget.
    destruct (Erase_cases c h Hinv)
      as [[Hnv _]|(Hv & old & c2 & Ho & Hocc & Heq & Hs2 & _)].
    { contradiction Hget. apply Get_not_Valid; [lia|exact Hnv]. }
    destruct (Valid_slot c h Hinv Hv) as (s & Hs & _ & _ & HG & _).
    assert (Es : s = old) by congruence. rewrite Es in HG.
    pose proof (lookup_lt_Some _ _ _ Ho) as Hlt.
    eexists c2, old, _. split; [exact Heq|]. split; [exact Ho|].
    split; [exact HG|]. rewrite Hs2.
    split; [now apply list_lookup_insert_eq|]. cbn [slot_generation].
    rewrite <- HG. apply NextGeneration_rule, (ci_gen c Hinv _ old Ho).
  - intros h Hget.
    destruct (Erase_cases c h Hinv)
      as [[_ Heq]|(Hv & old & c2 & Ho & _)]; [exact Heq|].
    rewrite (Get_Valid c h old ltac:(lia) Hv Ho) in Hget. discriminate.
  - intros h c' He.
    destruct (Erase_cases c h Hinv)
      as [[_ Heq]|(_ & old & c2 & Ho & Hocc & Heq & Hs2 & _)];
      rewrite Heq in He; inversion He; subst c'.
    pose proof (lookup_lt_Some _ _ _ Ho) as Hlt.
    eexists old, _. split; [exact Ho|]. rewrite Hs2.
    split; [now apply list_lookup_insert_eq|]. cbn [slot_generation].
    split; [apply NextGeneration_rule, (ci_gen c Hinv _ old Ho)|].
    intros i Hne. now apply list_lookup_insert_ne.
  - intros t k v i s Ht Hs.
    destruct (Insert_inv c t k v Hinv Ht) as (_ & _ & H). now apply H.
  - intros i s Hs. rewrite <- kMaxGeneration_val. exact (ci_gen c Hinv _ s Hs).
  - exact Hins.
  - intros t k v Ht. cbv zeta.
    destruct (find (key_to_position_ c) k) as [pos|] eqn:Hf.
    + right.
      destruct (InsertOrAssign_present c t k v pos Hinv Ht Hf)
        as (old & c2 & Hp & Ho & _ & _ & -> & _ & _).
      cbn [fst].
      pose proof (lookup_lt_Some _ _ _ Ho) as Hlt.
      pose proof (ci_cap c Hinv) as Hcap.
      destruct (Make_slot_fields t (slot_generation old) pos Ht
                  (ci_gen c Hinv _ old Ho) ltac:(lia)) as (_ & -> & _).
      rewrite <- kMaxGeneration_val. exact (ci_gen c Hinv _ old Ho).
    + unfold InsertOrAssign. rewrite Hf. now apply Hins.
  - exact Hfh.
Qed.

(** *** Stale handles *)

(** Whether the call [o], made in state [c], is an [Erase] that
    succeeds on the slot at position [p]. *)
Definition erases_slot (p : Z) (c : Cache) (o : Op Key Value) : bool :=
  match o with
  | OpErase h => fst (c_erase c h) && (FdToken.Position h =? p)
  | _ => false
  end.

(** Number of successful erasures of the slot at position [p] among
    the calls [ops], made one after another from state [c]. *)
Fixpoint slot_erasures (p : Z) (c : Cache) (ops : list (Op Key Value)) : Z :=
  match ops with
  | [] => 0
  | o :: ops' =>
    (if erases_slot p c o then 1 else 0) + slot_erasures p (c_step c o) ops'
  end.
















(** *** The rollback of [Insert] *)

(** The part of the invariant that the slot store and the index share,
    without the link between the load of the index and the number of
    slots: in such a state the index may refuse a key while a slot is
    free. *)
Record SlotInv (c : Cache) : Prop := mkSlotInv {
  si_cap : Z.of_nat (length (slots_ c)) < 2 ^ 32;
  si_gen : forall n s, slots_ c !! n = Some s ->
                       1 <= slot_generation s <= kMaxGeneration;
  si_next : 0 <= next_unused_ c;
  si_fresh : forall n s, slots_ c !! n = Some s ->
               next_unused_ c <= Z.of_nat n -> slot_occupied s = false;
  si_free : forall p, p ∈ free_positions_ c ->
              0 <= p /\
              exists s, slots_ c !! Z.to_nat p = Some s /\
                        slot_occupied s = false;
  si_find : forall k p, find (key_to_position_ c) k = Some p ->
              0 <= p /\
              exists s, slots_ c !! Z.to_nat p = Some s /\
                        slot_occupied s = true
}.

Lemma CInv_SlotInv (c : Cache) : CInv c -> SlotInv c.
Proof.
  intros Hinv. constructor.
  - apply (ci_cap c Hinv).
  - apply (ci_gen c Hinv).
  - apply (ci_next c Hinv).
  - apply (ci_fresh c Hinv).
  - intros p Hp. destruct (ci_free c Hinv p Hp) as (Hr & s & Hs). split; [lia|eauto].
  - intros k p Hf. destruct (ci_find c Hinv k p Hf) as (Hp & s & Hs & Ho & _). eauto.
Qed.



(** In the states the single-owner cache can reach the index never
    refuses a key for which a slot was found: a refused [Insert] leaves
    the whole cache as it was. *)
Lemma Insert_refused_unchanged (n : Z) (c c' : Cache) (t : Z) (k : Key) (v : Value) :
  0 <= n < 2 ^ 32 -> reachable n c -> is_u8 t ->
  c_insert c t k v = (FdToken.kNull, c') -> c' = c.
Proof.
  intros Hn Hr Ht Hins. destruct (Reachable_inv n c Hn Hr) as [Hinv _].
  destruct (find (key_to_position_ c) k) as [pos|] eqn:Hf.
  - unfold Insert in Hins. rewrite Hf in Hins. now inversion Hins.
  - destruct (Insert_absent_cases c t k v Hinv Ht Hf)
      as [(Heq & _)|(pos & old & c2 & Hp & Ho & _ & Heq & _)];
      rewrite Heq in Hins.
    { now inversion Hins. }
    assert (Hh : FdToken.Make t (slot_generation old) pos = FdToken.kNull)
      by (now inversion Hins).
    pose proof (lookup_lt_Some _ _ _ Ho) as Hlt.
    pose proof (ci_cap c Hinv) as Hcap.
    destruct (Make_slot_fields t (slot_generation old) pos Ht
                (ci_gen c Hinv _ old Ho) ltac:(lia)) as (_ & _ & _ & HN).
    contradiction.
Qed.

(** *** What a user of the cache can rely on *)

(** [Erase] pushes the position of the handle on the free list and
    leaves the cursor alone. *)
Lemma Erase_free_list (c c' : Cache) (h : Z) :
  CInv c -> c_erase c h = (true, c') ->
  free_positions_ c' = FdToken.Position h :: free_positions_ c /\
  next_unused_ c' = next_unused_ c.
Proof.
  intros Hinv He. pose proof (ci_cap c Hinv) as Hcap. unfold Erase in He.
  destruct (Validate_cases c h ltac:(lia)) as [[Hv _]|(Hv & Hne & _)];
    rewrite Hv in He.
  - cbn in He. discriminate.
  - destruct (Z.eqb_spec (FdToken.Position h) kInvalidPosition) as [|_];
      [contradiction|].
    destruct (Flat.Erase hasher equal_ (key_to_position_ c) _) as [[] idx1];
      cbn in He; inversion He; auto.
Qed.

(** [AllocatePosition] takes the head of the free list, or else the
    cursor. *)
Lemma Allocate_source (c c1 : Cache) (pos : Z) :
  CInv c -> AllocatePosition c = (pos, c1) -> pos <> kInvalidPosition ->
  (free_positions_ c = pos :: free_positions_ c1 /\
   next_unused_ c1 = next_unused_ c)
  \/
  (free_positions_ c = [] /\ free_positions_ c1 = [] /\
   pos = next_unused_ c /\ next_unused_ c1 = next_unused_ c + 1 /\
   next_unused_ c < Z.of_nat (length (slots_ c))).
Proof.
  intros Hinv Hal Hne. unfold AllocatePosition in Hal.
  pose proof (ci_cap c Hinv) as Hcap. pose proof (ci_next c Hinv) as Hnext.
  destruct (free_positions_ c) as [|p rest] eqn:Hfree.
  - rewrite Z.geb_leb in Hal.
    destruct (Z.leb_spec (Z.of_nat (length (slots_ c))) (next_unused_ c));
      inversion Hal; subst; [contradiction|].
    right. cbn. conj_split; auto; try lia. apply Z.mod_small. lia.
  - inversion Hal; subst. left. auto.
Qed.

(** [Insert] of a new key stores it at the position that
    [AllocatePosition] hands out. *)
Lemma Insert_absent_alloc (c c1 : Cache) (t : Z) (k : Key) (v : Value) (pos : Z) :
  CInv c -> is_u8 t -> find (key_to_position_ c) k = None ->
  AllocatePosition c = (pos, c1) -> pos <> kInvalidPosition ->
  exists old c2,
    0 <= pos /\ slots_ c !! Z.to_nat pos = Some old /\
    slot_occupied old = false /\
    c_insert c t k v = (FdToken.Make t (slot_generation old) pos, c2) /\
    slots_ c2 =
      <[Z.to_nat pos := mkSlot k v (slot_generation old) t true]> (slots_ c) /\
    free_positions_ c2 = free_positions_ c1 /\
    next_unused_ c2 = next_unused_ c1 /\
    find (key_to_position_ c2) k = Some pos /\
    (forall k', k' <> k ->
                find (key_to_position_ c2) k' = find (key_to_position_ c) k') /\
    cache_size_ c2 = cache_size_ c + 1 /\
    CInv c2 /\
    Flat.Insert hasher equal_ (key_to_position_ c) k pos =
      (true, key_to_position_ c2).
Proof.
  intros Hinv Ht Hf Hal Hne.
  pose proof (ci_cap c Hinv) as Hcap.
  destruct (Allocate_cases c Hinv)
    as [(Hal' & _)|
        (pos' & c1' & old & Hal' & _ & Hr & Ho & Hocc & Hs1 & Hi1 & Hz1 & _)].
  { rewrite Hal in Hal'. inversion Hal'. contradiction. }
  assert (Hsame : pos' = pos /\ c1' = c1)
    by (rewrite Hal in Hal'; now inversion Hal').
  destruct Hsame as [-> ->].
  destruct (Insert_absent_cases c t k v Hinv Ht Hf)
    as [(Hnull & Hfree & Hnext)|
        (p & old' & c2 & Hp & Ho' & Hocc' & Hins & Hsl & Hfk & Hfo & Hsz & Hinv2)].
  { exfalso. unfold AllocatePosition in Hal. rewrite Hfree, Hnext in Hal.
    rewrite Z.geb_leb, Z.leb_refl in Hal. inversion Hal. congruence. }
  pose proof (lookup_lt_Some _ _ _ Ho') as Hlt'.
  pose proof (lookup_lt_Some _ _ _ Ho) as Hlt.
  destruct (Make_slot_fields t (slot_generation old') p Ht
              (ci_gen c Hinv _ old' Ho') ltac:(lia)) as (_ & _ & HP' & HN').
  destruct (Make_slot_fields t (slot_generation old) pos Ht
              (ci_gen c Hinv _ old Ho) ltac:(lia)) as (_ & _ & HP & _).
  pose proof Hins as Hu. unfold Insert in Hu. rewrite Hf, Hal in Hu.
  destruct (Z.eqb_spec pos kInvalidPosition) as [|_]; [contradiction|].
  rewrite Hs1, Hi1 in Hu. rewrite (list_alter_as_insert _ _ _ old Ho) in Hu.
  cbn [slot_generation] in Hu.
  destruct (Flat.Insert hasher equal_ (key_to_position_ c) k pos)
    as [[] idx1] eqn:Hfi; cbn [negb] in Hu.
  - unfold BuildHandle in Hu.
    rewrite (slot_at_lookup _ pos (mkSlot k v (slot_generation old) t true))
      in Hu by (cbn; now apply list_lookup_insert_eq).
    cbn [slot_type slot_generation] in Hu.
    inversion Hu as [[Hh Hc2]].
    assert (Hpp : p = pos) by (rewrite <- HP', <- Hh; exact HP).
    subst p. rewrite Ho in Ho'. inversion Ho'; subst old'.
    exists old, c2. subst c2.
    cbn [free_positions_ next_unused_ key_to_position_] in *.
    conj_split; auto.
  - inversion Hu as [[Hh Hc2]]. congruence.
Qed.

(** The free list and the cursor account for every slot that is not
    occupied. *)
Definition FreeExact (c : Cache) : Prop :=
  forall n s, slots_ c !! n = Some s -> slot_occupied s = false ->
    next_unused_ c <= Z.of_nat n \/ Z.of_nat n ∈ free_positions_ c.

Lemma FreeExact_update (c c' : Cache) (p : nat) (new : SlotT) :
  FreeExact c ->
  slots_ c' = <[p := new]> (slots_ c) ->
  (slot_occupied new = false ->
   next_unused_ c' <= Z.of_nat p \/ Z.of_nat p ∈ free_positions_ c') ->
  (forall n, n <> p ->
     (next_unused_ c <= Z.of_nat n \/ Z.of_nat n ∈ free_positions_ c) ->
     next_unused_ c' <= Z.of_nat n \/ Z.of_nat n ∈ free_positions_ c') ->
  FreeExact c'.
Proof.
  intros Hfe Hsl Hnew Hold n s Hl Hocc. rewrite Hsl in Hl.
  destruct (decide (n = p)) as [->|Hne].
  - apply Hnew. pose proof (lookup_lt_Some _ _ _ Hl) as Hlt.
    rewrite length_insert in Hlt.
    rewrite list_lookup_insert_eq in Hl by exact Hlt. now inversion Hl.
  - rewrite list_lookup_insert_ne in Hl by auto.
    apply Hold; [exact Hne|]. exact (Hfe n s Hl Hocc).
Qed.

Lemma Insert_FreeExact (c : Cache) (t : Z) (k : Key) (v : Value) :
  CInv c -> FreeExact c -> is_u8 t -> FreeExact (snd (c_insert c t k v)).
Proof.
  intros Hinv Hfe Ht.
  destruct (find (key_to_position_ c) k) as [p|] eqn:Hf.
  { unfold Insert. rewrite Hf. exact Hfe. }
  destruct (AllocatePosition c) as [pos c1] eqn:Hal.
  destruct (Z.eq_dec pos kInvalidPosition) as [->|Hne].
  { unfold Insert. rewrite Hf, Hal. cbn.
    destruct (Allocate_cases c Hinv) as [(Hal' & _)|(p & c1' & old & Hal' & Hn & _)];
      rewrite Hal in Hal'; inversion Hal'; subst; [exact Hfe|contradiction]. }
  destruct (Insert_absent_alloc c c1 t k v pos Hinv Ht Hf Hal Hne)
    as (old & c2 & Hp & Ho & Hocc & Hins & Hsl & Hfr & Hnx & _).
  rewrite Hins. cbn [snd].
  apply (FreeExact_update c c2 (Z.to_nat pos) _ Hfe Hsl); [discriminate|].
  intros n Hn Hc. rewrite Hfr, Hnx.
  destruct (Allocate_source c c1 pos Hinv Hal Hne)
    as [(Hfree & Hnext)|(Hfree & Hfree1 & Hpos & Hnext & _)].
  - rewrite Hnext. destruct Hc as [Hc|Hc]; [now left|right].
    rewrite Hfree in Hc. apply elem_of_cons in Hc as [Hc|Hc]; [|exact Hc].
    exfalso. apply Hn. rewrite <- Hc. now rewrite Nat2Z.id.
  - rewrite Hnext, Hfree1. rewrite Hfree in Hc.
    destruct Hc as [Hc|Hc]; [left|now apply elem_of_nil in Hc].
    assert (Z.of_nat n <> pos) by (intros E; apply Hn; rewrite <- E; now rewrite Nat2Z.id).
    lia.
Qed.

Lemma step_FreeExact (c : Cache) (o : Op Key Value) :
  CInv c -> FreeExact c -> op_ok o -> FreeExact (c_step c o).
Proof.
  intros Hinv Hfe Hok. destruct o as [t k v|t k v|h|h v]; cbn [step].
  - now apply Insert_FreeExact.
  - destruct (find (key_to_position_ c) k) as [p|] eqn:Hf.
    + destruct (InsertOrAssign_present c t k v p Hinv Hok Hf)
        as (old & c2 & Hp & Ho & Hocc & _ & -> & Hc2 & _).
      cbn [snd]. rewrite Hc2.
      eapply (FreeExact_update c); [exact Hfe|reflexivity| |];
        cbn [slot_occupied next_unused_ free_positions_]; [discriminate|auto].
    + replace (c_insert_or_assign c t k v) with (c_insert c t k v)
        by (unfold InsertOrAssign; now rewrite Hf).
      now apply Insert_FreeExact.
  - destruct (Erase_cases c h Hinv)
      as [(_ & ->)|(_ & old & c2 & Ho & Hocc & He & Hsl & _)]; [exact Hfe|].
    destruct (Erase_free_list c c2 h Hinv He) as [Hfr Hnx].
    rewrite He. cbn [snd].
    pose proof (Position_range h) as Hpr.
    apply (FreeExact_update c c2 (Z.to_nat (FdToken.Position h)) _ Hfe Hsl).
    + intros _. right. rewrite Hfr, Z2Nat.id by lia. left.
    + intros n Hn [Hc|Hc]; rewrite Hfr, Hnx; [now left|right; now right].
  - destruct (Store_cases c h v Hinv) as [(_ & ->)|(_ & old & Ho & -> & _)];
      [exact Hfe|].
    eapply (FreeExact_update c); [exact Hfe|reflexivity| |];
      cbn [slot_occupied next_unused_ free_positions_]; [|auto].
    intros Hocc. exact (Hfe _ old Ho Hocc).
Qed.

Lemma Reachable_FreeExact (n : Z) (c : Cache) :
  0 <= n < 2 ^ 32 -> reachable n c -> CInv c /\ FreeExact c.
Proof.
  intros Hn Hr. induction Hr as [|c o Hr [IHi IHf] Hok].
  - split; [apply (Reserve_inv n Hn)|].
    intros i s _ _. left. cbn. lia.
  - split; [apply (step_inv c o IHi Hok)|now apply step_FreeExact].
Qed.

(** With an empty free list and the cursor at the end, every slot is
    occupied. *)
Lemma exhausted_full (c : Cache) :
  CInv c -> FreeExact c ->
  free_positions_ c = [] -> next_unused_ c = Z.of_nat (length (slots_ c)) ->
  cache_size_ c = Z.of_nat (length (slots_ c)).
Proof.
  intros Hinv Hfe Hfree Hnext. rewrite (ci_count c Hinv).
  apply countb_all. intros i Hi.
  destruct (lookup_lt_is_Some_2 (slots_ c) i Hi) as [s Hs].
  exists s. split; [exact Hs|].
  destruct (slot_occupied s) eqn:Hocc; [reflexivity|exfalso].
  destruct (Hfe i s Hs Hocc) as [Hc|Hc].
  - lia.
  - rewrite Hfree in Hc. now apply elem_of_nil in Hc.
Qed.

Lemma countb_none {A : Type} (f : A -> bool) (l : list A) :
  (forall n x, l !! n = Some x -> f x = false) -> countb f l = 0.
Proof.
  induction l as [|y l IH]; intros H; [reflexivity|].
  cbn [countb]. rewrite (H 0%nat y eq_refl).
  rewrite IH; [reflexivity|]. intros n x Hn. exact (H (S n) x Hn).
Qed.

Lemma kNull_not_Valid (c : Cache) : ~ Valid c FdToken.kNull.
Proof. intros [Hn _]. now apply Hn. Qed.

(** [Get] reads one slot: a change of another slot does not show. *)
Lemma Get_other_slot (c c2 : Cache) (p : nat) (new : SlotT) (h : Z) :
  slots_ c2 = <[p := new]> (slots_ c) -> Z.to_nat (FdToken.Position h) <> p ->
  c_get c2 h = c_get c h.
Proof.
  intros Hsl Hne.
  assert (Hv : c_validate c2 h = c_validate c h).
  { unfold ValidateHandle, slot_at.
    rewrite Hsl, length_insert, list_lookup_insert_ne by auto. reflexivity. }
  assert (Hor : c_validate c h = kInvalidPosition \/
                c_validate c h = FdToken.Position h).
  { unfold ValidateHandle.
    repeat match goal with
           | |- context [if ?b then _ else _] => destruct b
           end; auto. }
  unfold Get. rewrite Hv.
  destruct Hor as [->| ->]; [reflexivity|].
  unfold slot_at. rewrite Hsl, list_lookup_insert_ne by auto. reflexivity.
Qed.

(** The handles of the keys that a call does not touch: when one slot
    changes, which does not hold any of these keys, and the index
    finds them as before, their handles and values are as before. *)
Lemma handles_kept (c c2 : Cache) (p : nat) (new : SlotT) (k : Key) :
  CInv c -> CInv c2 ->
  slots_ c2 = <[p := new]> (slots_ c) ->
  (forall k', k' <> k ->
     find (key_to_position_ c2) k' = find (key_to_position_ c) k') ->
  (forall s, slots_ c !! p = Some s -> slot_occupied s = true -> slot_key s = k) ->
  forall k', k' <> k ->
    c_find_handle c2 k' = c_find_handle c k' /\
    c_get c2 (c_find_handle c k') = c_get c (c_find_handle c k').
Proof.
  intros Hinv Hinv2 Hsl Hfo Hp k' Hk.
  pose proof (ci_cap c Hinv) as Hcap. pose proof (ci_cap c2 Hinv2) as Hcap2.
  destruct (find (key_to_position_ c) k') as [q|] eqn:Hf.
  - destruct (FindHandle_present c k' q Hinv Hf)
      as (s & Hs & Hocc & Hsk & Hfh & HP & _ & _ & Hv).
    destruct (ci_find c Hinv k' q Hf) as (Hq & _).
    assert (Hqp : Z.to_nat q <> p).
    { intros E. rewrite E in Hs. apply Hk. rewrite <- Hsk. now apply Hp. }
    assert (Hf2 : find (key_to_position_ c2) k' = Some q)
      by (rewrite Hfo; auto).
    destruct (FindHandle_present c2 k' q Hinv2 Hf2)
      as (s2 & Hs2 & _ & _ & Hfh2 & _).
    rewrite Hsl, list_lookup_insert_ne in Hs2 by auto.
    rewrite Hs in Hs2. inversion Hs2; subst s2.
    split; [now rewrite Hfh2, Hfh|].
    apply (Get_other_slot c c2 p new); [exact Hsl|]. now rewrite HP.
  - assert (Hf2 : find (key_to_position_ c2) k' = None) by (rewrite Hfo; auto).
    apply (FindHandle_null_iff c k' Hinv) in Hf.
    apply (FindHandle_null_iff c2 k' Hinv2) in Hf2.
    rewrite Hf, Hf2. split; [reflexivity|].
    rewrite !Get_not_Valid; auto using kNull_not_Valid; lia.
Qed.

(** X8 -- a cache that has just been reserved for [n] entries (0 is
    read as 1) is empty: its size is 0, it has [max 1 n] slots, no key
    has a handle, and every handle is refused by [Get], [Erase] and a
    store. *)
Theorem Reserve_is_empty (n : Z) :
  0 <= n < 2 ^ 32 ->
  let c := c_reserve n in
  size c = 0 /\ empty c = true /\
  Z.of_nat (length (slots_ c)) = Z.max 1 n /\
  (forall k, c_find_handle c k = FdToken.kNull) /\
  (forall h, c_get c h = None) /\
  (forall h, c_erase c h = (false, c)) /\
  (forall h v, c_store c h v = c).
Proof.
  intros Hn. cbv zeta. destruct (Reserve_inv n Hn) as [Hinv Hlen].
  assert (Hnv : forall h, ~ Valid (c_reserve n) h).
  { intros h (_ & s & Hs & Hocc & _). unfold Reserve in Hs. cbn in Hs.
    apply lookup_replicate in Hs as [-> _]. discriminate. }
  pose proof (ci_cap _ Hinv) as Hcap.
  split; [reflexivity|]. split; [reflexivity|].
  split; [rewrite Hlen; destruct (Z.eqb_spec n 0); lia|].
  split; [|split; [|split]].
  - intros k. apply FindHandle_null_iff; [exact Hinv|].
    unfold Reserve. cbn [key_to_position_].
    apply (Flat.Init_wf key_default hasher equal_ equal_spec).
    destruct (Z.eqb_spec n 0); lia.
  - intros h. apply Get_not_Valid; [lia|apply Hnv].
  - intros h. destruct (Erase_cases _ h Hinv) as [(_ & He)|(Hv & _)];
      [exact He|exfalso; exact (Hnv h Hv)].
  - intros h v. destruct (Store_cases _ h v Hinv) as [(_ & He)|(Hv & _)];
      [exact He|exfalso; exact (Hnv h Hv)].
Qed.

(** X9 -- in a cache reserved for fewer than 2^32 entries, [Get]
    accepts exactly the handles that are
    current: a 64-bit handle [h] passes validation if and only if it is
    not null and is the handle that [FindHandle] returns for some key
    (the key stored in its slot). *)
Theorem valid_handle_is_current (n : Z) (c : Cache) (h : Z) :
  0 <= n < 2 ^ 32 -> reachable n c -> is_u64 h ->
  (c_get c h <> None <->
   h <> FdToken.kNull /\ exists k, c_find_handle c k = h) /\
  (forall v, c_get c h = Some v ->
     exists s, slots_ c !! Z.to_nat (FdToken.Position h) = Some s /\
               slot_value s = v /\ c_find_handle c (slot_key s) = h).
Proof.
  intros Hn Hr Hh. destruct (Reachable_inv n c Hn Hr) as [Hinv _].
  pose proof (ci_cap c Hinv) as Hcap.
  assert (Hcur : forall v, c_get c h = Some v ->
            exists s, slots_ c !! Z.to_nat (FdToken.Position h) = Some s /\
                      slot_value s = v /\ c_find_handle c (slot_key s) = h).
  { intros v Hg.
    pose proof (Get_Some_Valid c h v ltac:(lia) Hg) as Hv.
    destruct (Valid_slot c h Hinv Hv) as (s & Hs & Hocc & HT & HG & Hfind).
    destruct (FindHandle_present c (slot_key s) _ Hinv Hfind)
      as (s' & Hs' & _ & _ & Hfh & _).
    rewrite Hs in Hs'. inversion Hs'; subst s'.
    exists s. split; [exact Hs|]. split.
    - rewrite (Get_Valid c h s ltac:(lia) Hv Hs) in Hg. now inversion Hg.
    - rewrite Hfh, HT, HG. now apply Make_of_fields. }
  split; [|exact Hcur]. split.
  - intros Hg. destruct (c_get c h) as [v|] eqn:Hgv; [|contradiction].
    destruct (Hcur v eq_refl) as (s & _ & _ & Hfh).
    split; [|eauto]. intros Hz.
    apply (Get_Some_Valid c h v ltac:(lia)) in Hgv. now destruct Hgv.
  - intros (Hnz & k & Hfh).
    destruct (find (key_to_position_ c) k) as [p|] eqn:Hf.
    + destruct (FindHandle_present c k p Hinv Hf)
        as (s & Hs & _ & _ & _ & HP & _ & _ & Hv).
      rewrite Hfh in Hv, HP. rewrite <- HP in Hs.
      rewrite (Get_Valid c h s ltac:(lia) Hv Hs). discriminate.
    + apply (FindHandle_null_iff c k Hinv) in Hf. congruence.
Qed.

(** X10 -- in a cache reserved for fewer than 2^32 entries, [Erase h]
    succeeds exactly when [Get h] would accept [h]; a
    refused call leaves the cache as it is; a successful call removes
    one key (the one whose handle [h] is), makes the size one less, and
    keeps the handle and the value of every other key. *)
Theorem Erase_iff_valid (n : Z) (c : Cache) (h : Z) :
  0 <= n < 2 ^ 32 -> reachable n c -> is_u64 h ->
  let r := c_erase c h in
  (fst r = true <-> c_get c h <> None) /\
  (fst r = false -> snd r = c) /\
  (fst r = true ->
   size (snd r) = size c - 1 /\
   exists k,
     c_find_handle c k = h /\ c_find_handle (snd r) k = FdToken.kNull /\
     forall k', k' <> k ->
       c_find_handle (snd r) k' = c_find_handle c k' /\
       c_get (snd r) (c_find_handle c k') = c_get c (c_find_handle c k')).
Proof.
  intros Hn Hr Hh. cbv zeta. destruct (Reachable_inv n c Hn Hr) as [Hinv _].
  pose proof (ci_cap c Hinv) as Hcap.
  destruct (Erase_cases c h Hinv)
    as [(Hnv & ->)|(Hv & old & c2 & Ho & Hocc & -> & Hsl & Hfk & Hfo & Hsz & Hinv2)];
    cbn [fst snd].
  - rewrite (Get_not_Valid c h ltac:(lia) Hnv).
    split; [split; [discriminate|intros Hc; now contradiction Hc]|].
    split; [reflexivity|discriminate].
  - rewrite (Get_Valid c h old ltac:(lia) Hv Ho).
    split; [split; [discriminate|reflexivity]|]. split; [discriminate|].
    intros _. split; [exact Hsz|].
    destruct (Valid_slot c h Hinv Hv) as (s & Hs & _ & HT & HG & Hfind).
    rewrite Ho in Hs. inversion Hs; subst s.
    destruct (FindHandle_present c (slot_key old) _ Hinv Hfind)
      as (s' & Hs' & _ & _ & Hfh & _).
    rewrite Ho in Hs'. inversion Hs'; subst s'.
    exists (slot_key old). split; [|split].
    + rewrite Hfh, HT, HG. now apply Make_of_fields.
    + now apply FindHandle_null_iff.
    + apply (handles_kept c c2 _ _ (slot_key old) Hinv Hinv2 Hsl Hfo).
      intros s0 Hs0 _. rewrite Ho in Hs0. now inversion Hs0.
Qed.

(** X11 -- in a cache reserved for fewer than 2^32 entries, [Insert]
    of a key that is not in the cache succeeds exactly
    when the cache is not full; it then makes the size one more and
    returns a handle of the given type; failed or not, it keeps the
    handle and the value of every other key. *)
Theorem Insert_iff_not_full (n : Z) (c : Cache) (t : Z) (k : Key) (v : Value) :
  0 <= n < 2 ^ 32 -> reachable n c -> is_u8 t ->
  c_find_handle c k = FdToken.kNull ->
  let r := c_insert c t k v in
  (fst r <> FdToken.kNull <-> size c < capacity n) /\
  (fst r <> FdToken.kNull ->
   size (snd r) = size c + 1 /\ FdToken.Type_ (fst r) = t) /\
  (fst r = FdToken.kNull -> snd r = c) /\
  (forall k', k' <> k ->
     c_find_handle (snd r) k' = c_find_handle c k' /\
     c_get (snd r) (c_find_handle c k') = c_get c (c_find_handle c k')).
Proof.
  intros Hn Hr Ht Habs. cbv zeta.
  destruct (Reachable_inv n c Hn Hr) as [Hinv Hlen].
  destruct (Reachable_FreeExact n c Hn Hr) as [_ Hfe].
  apply (FindHandle_null_iff c k Hinv) in Habs.
  pose proof (ci_cap c Hinv) as Hcap. unfold size.
  destruct (Insert_absent_cases c t k v Hinv Ht Habs)
    as [(-> & Hfree & Hnext)|
        (p & old & c2 & Hp & Ho & Hocc & -> & Hsl & Hfk & Hfo & Hsz & Hinv2)];
    cbn [fst snd].
  - pose proof (exhausted_full c Hinv Hfe Hfree Hnext) as Hfull.
    split; [split; [intros Hc; now contradiction Hc|lia]|].
    split; [intros Hc; now contradiction Hc|]. split; [reflexivity|].
    intros k' _. auto.
  - pose proof (lookup_lt_Some _ _ _ Ho) as Hlt.
    destruct (Make_slot_fields t (slot_generation old) p Ht
                (ci_gen c Hinv _ old Ho) ltac:(lia)) as (HT & _ & _ & HN).
    pose proof (count_occupied_lt c _ old Ho Hocc) as Hcnt.
    rewrite <- (ci_count c Hinv) in Hcnt.
    split; [split; [lia|intros _; exact HN]|].
    split; [auto|]. split; [intros Hc; contradiction|].
    apply (handles_kept c c2 _ _ k Hinv Hinv2 Hsl Hfo).
    intros s Hs Hso. rewrite Ho in Hs. inversion Hs; subst s. congruence.
Qed.

Lemma NextGeneration_changes (g : Z) :
  1 <= g <= kMaxGeneration -> NextGeneration g <> g.
Proof.
  intros Hg. unfold NextGeneration. rewrite kMaxGeneration_val in *.
  rewrite Z.geb_leb. destruct (Z.leb_spec (2 ^ 24 - 1) g); [lia|].
  unfold wrap32. rewrite Z.mod_small; lia.
Qed.

(** X12 -- the free list is used last in, first out: after a successful
    [Erase h], the next [Insert] of a key that is not in the cache
    takes the slot of [h]; the handle it returns has the position of
    [h], the given type and the generation that follows the one of
    [h], so it is not [h]. *)
Theorem Insert_reuses_erased_slot (n : Z) (c c1 : Cache) (h t : Z) (k : Key)
        (v : Value) :
  0 <= n < 2 ^ 32 -> reachable n c -> is_u8 t ->
  c_erase c h = (true, c1) -> c_find_handle c1 k = FdToken.kNull ->
  let h2 := fst (c_insert c1 t k v) in
  h2 <> FdToken.kNull /\
  FdToken.Position h2 = FdToken.Position h /\
  FdToken.Generation h2 = NextGeneration (FdToken.Generation h) /\
  FdToken.Type_ h2 = t /\
  h2 <> h /\
  c_get (snd (c_insert c1 t k v)) h2 = Some v.
Proof.
  intros Hn Hr Ht He Habs. cbv zeta.
  destruct (Reachable_inv n c Hn Hr) as [Hinv _].
  pose proof (ci_cap c Hinv) as Hcap.
  destruct (Erase_free_list c c1 h Hinv He) as [Hfr Hnx].
  destruct (Erase_cases c h Hinv)
    as [(_ & He')|(Hv & old & c2 & Ho & Hocc & He' & Hsl & _ & _ & _ & Hinv1)];
    rewrite He in He'; inversion He'; subst c2.
  destruct Hv as (_ & s & Hs & _ & _ & HG).
  rewrite Ho in Hs. inversion Hs; subst s.
  apply (FindHandle_null_iff c1 k Hinv1) in Habs.
  pose proof (lookup_lt_Some _ _ _ Ho) as Hlt.
  pose proof (Position_range h) as Hpr.
  assert (Hal : AllocatePosition c1 =
                (FdToken.Position h,
                 mkCache (slots_ c1) (free_positions_ c) (key_to_position_ c1)
                         (next_unused_ c1) (cache_size_ c1)))
    by (unfold AllocatePosition; now rewrite Hfr).
  destruct (Insert_absent_alloc c1 _ t k v _ Hinv1 Ht Habs Hal
              ltac:(unfold kInvalidPosition; lia))
    as (old1 & c3 & _ & Ho1 & _ & Hins & Hsl3 & _ & _ & _ & _ & _ & Hinv3 & _).
  rewrite Hsl, list_lookup_insert_eq in Ho1 by exact Hlt.
  inversion Ho1; subst old1. cbn [slot_generation] in *.
  pose proof (NextGeneration_range _ (ci_gen c Hinv _ old Ho)) as Hng.
  destruct (Make_slot_fields t (NextGeneration (slot_generation old))
              (FdToken.Position h) Ht Hng ltac:(lia)) as (HT2 & HG2 & HP2 & HN2).
  rewrite Hins. cbn [fst snd].
  split; [exact HN2|]. split; [exact HP2|]. split; [now rewrite HG2, HG|].
  split; [exact HT2|]. split.
  - intros E. rewrite E in HG2. rewrite <- HG in HG2.
    symmetry in HG2. revert HG2.
    apply NextGeneration_changes. exact (ci_gen c Hinv _ old Ho).
  - set (new := mkSlot k v (NextGeneration (slot_generation old)) t true) in *.
    assert (Hnew : slots_ c3 !! Z.to_nat (FdToken.Position h) = Some new).
    { rewrite Hsl3. apply list_lookup_insert_eq.
      rewrite Hsl, length_insert. exact Hlt. }
    pose proof (ci_cap c3 Hinv3) as Hcap3.
    apply (Get_Valid c3 _ new ltac:(lia)); [|now rewrite HP2].
    split; [exact HN2|]. exists new. rewrite HP2, HT2, HG2. auto.
Qed.

(** X13 -- in a cache reserved for fewer than 2^32 entries, two
    different keys never share a slot: their handles differ
    in the position field. *)
Theorem distinct_keys_distinct_slots (n : Z) (c : Cache) (k1 k2 : Key) :
  0 <= n < 2 ^ 32 -> reachable n c ->
  c_find_handle c k1 <> FdToken.kNull -> c_find_handle c k2 <> FdToken.kNull ->
  k1 <> k2 ->
  FdToken.Position (c_find_handle c k1) <> FdToken.Position (c_find_handle c k2).
Proof.
  intros Hn Hr H1 H2 Hk. destruct (Reachable_inv n c Hn Hr) as [Hinv _].
  rewrite (FindHandle_null_iff c k1 Hinv) in H1.
  rewrite (FindHandle_null_iff c k2 Hinv) in H2.
  destruct (find (key_to_position_ c) k1) as [p1|] eqn:Hf1; [|contradiction].
  destruct (find (key_to_position_ c) k2) as [p2|] eqn:Hf2; [|contradiction].
  destruct (FindHandle_present c k1 p1 Hinv Hf1)
    as (s1 & Hs1 & _ & Hk1 & _ & HP1 & _).
  destruct (FindHandle_present c k2 p2 Hinv Hf2)
    as (s2 & Hs2 & _ & Hk2 & _ & HP2 & _).
  rewrite HP1, HP2. intros E. rewrite <- E in Hs2.
  rewrite Hs1 in Hs2. inversion Hs2; subst s2. congruence.
Qed.

(** X14 -- a store through the pointer that [Get h] returns is read
    back by [Get h]; it changes no other value, no handle and not the
    size; when [Get h] is null nothing is stored. *)
Theorem Store_then_Get (n : Z) (c : Cache) (h : Z) (v : Value) :
  0 <= n < 2 ^ 32 -> reachable n c ->
  let c' := c_store c h v in
  (c_get c h = None -> c' = c) /\
  (c_get c h <> None -> c_get c' h = Some v) /\
  (forall h', FdToken.Position h' <> FdToken.Position h ->
              c_get c' h' = c_get c h') /\
  (forall k, c_find_handle c' k = c_find_handle c k) /\
  size c' = size c.
Proof.
  intros Hn Hr. cbv zeta. destruct (Reachable_inv n c Hn Hr) as [Hinv _].
  pose proof (ci_cap c Hinv) as Hcap.
  destruct (Store_cases c h v Hinv) as [(Hnv & ->)|(Hv & old & Ho & Hst & Hinv')].
  { rewrite (Get_not_Valid c h ltac:(lia) Hnv).
    split; [reflexivity|]. split; [intros Hc; now contradiction Hc|]. auto. }
  rewrite (Get_Valid c h old ltac:(lia) Hv Ho).
  pose proof (lookup_lt_Some _ _ _ Ho) as Hlt.
  set (new := mkSlot (slot_key old) v (slot_generation old)
                     (slot_type old) (slot_occupied old)) in *.
  assert (Hsl : slots_ (c_store c h v) = <[Z.to_nat (FdToken.Position h) := new]> (slots_ c))
    by (now rewrite Hst).
  assert (Hnew : slots_ (c_store c h v) !! Z.to_nat (FdToken.Position h) = Some new)
    by (rewrite Hsl; now apply list_lookup_insert_eq).
  pose proof (ci_cap _ Hinv') as Hcap'.
  split; [discriminate|]. split; [|split; [|split]].
  - intros _.
    rewrite (Get_Valid (c_store c h v) h new ltac:(lia)); [reflexivity| |exact Hnew].
    destruct Hv as (Hnz & s & Hs & Hocc & HT & HG).
    rewrite Ho in Hs. inversion Hs; subst s.
    split; [exact Hnz|]. exists new. auto.
  - intros h' Hne.
    apply (Get_other_slot c _ (Z.to_nat (FdToken.Position h)) new); [exact Hsl|].
    pose proof (Position_range h). pose proof (Position_range h'). lia.
  - intros k. unfold FindHandle. rewrite Hst at 1. cbn [key_to_position_].
    destruct (find (key_to_position_ c) k) as [p|] eqn:Hf; [|reflexivity].
    destruct (ci_find c Hinv k p Hf) as (Hp & s & Hs & _).
    unfold BuildHandle.
    destruct (decide (Z.to_nat p = Z.to_nat (FdToken.Position h))) as [E|E].
    + rewrite E in Hs. rewrite Ho in Hs. inversion Hs; subst s.
      rewrite (slot_at_lookup _ p new) by (rewrite E; exact Hnew).
      rewrite (slot_at_lookup c p old) by (rewrite E; exact Ho). reflexivity.
    + rewrite (slot_at_lookup _ p s)
        by (rewrite Hsl, list_lookup_insert_ne; auto).
      now rewrite (slot_at_lookup c p s Hs).
  - rewrite Hst. reflexivity.
Qed.

(** X15 -- in a cache reserved for fewer than 2^32 entries, [empty]
    is true exactly when no key has a handle, and
    exactly when [Get] refuses every handle. *)
Theorem empty_iff_no_key (n : Z) (c : Cache) :
  0 <= n < 2 ^ 32 -> reachable n c ->
  (empty c = true <-> forall k, c_find_handle c k = FdToken.kNull) /\
  (empty c = true <-> forall h, c_get c h = None).
Proof.
  intros Hn Hr. destruct (Reachable_inv n c Hn Hr) as [Hinv _].
  pose proof (ci_cap c Hinv) as Hcap.
  pose proof (ci_count c Hinv) as Hcc. unfold count_occupied in Hcc.
  unfold empty. rewrite Z.eqb_eq.
  assert (Hnone : cache_size_ c = 0 ->
            forall i s, slots_ c !! i = Some s -> slot_occupied s = false).
  { intros Hz i s Hs. destruct (slot_occupied s) eqn:Hocc; [|reflexivity].
    pose proof (countb_pos slot_occupied _ _ s Hs Hocc). lia. }
  assert (Hzero : (forall i s, slots_ c !! i = Some s -> slot_occupied s = false) ->
            cache_size_ c = 0).
  { intros H. rewrite Hcc. now apply countb_none. }
  split; split.
  - intros Hz k. apply FindHandle_null_iff; [exact Hinv|].
    destruct (find (key_to_position_ c) k) as [p|] eqn:Hf; [|reflexivity].
    destruct (ci_find c Hinv k p Hf) as (_ & s & Hs & Hocc & _).
    rewrite (Hnone Hz _ s Hs) in Hocc. discriminate.
  - intros Hall. apply Hzero. intros i s Hs.
    destruct (slot_occupied s) eqn:Hocc; [exfalso|reflexivity].
    pose proof (ci_occ c Hinv i s Hs Hocc) as Hf.
    specialize (Hall (slot_key s)).
    rewrite (FindHandle_null_iff c _ Hinv) in Hall. congruence.
  - intros Hz h. apply Get_not_Valid; [lia|].
    intros (_ & s & Hs & Hocc & _). rewrite (Hnone Hz _ s Hs) in Hocc.
    discriminate.
  - intros Hall. apply Hzero. intros i s Hs.
    destruct (slot_occupied s) eqn:Hocc; [exfalso|reflexivity].
    destruct (BuildHandle_Valid c i s Hinv Hs Hocc) as (_ & Hv & HP).
    rewrite <- (Nat2Z.id i), <- HP in Hs.
    pose proof (Get_Valid c _ s ltac:(lia) Hv Hs) as Hg.
    rewrite Hall in Hg. discriminate.
Qed.

(** X16 -- in a cache reserved for fewer than 2^32 entries, the slot
    store accounts for every slot: a slot is free
    exactly when it lies at or above the cursor or its position is on
    the free list; the free list has no duplicates and only holds
    positions below the cursor, and the cursor never passes the
    capacity. *)
Theorem free_list_exact (n : Z) (c : Cache) :
  0 <= n < 2 ^ 32 -> reachable n c ->
  (forall i s, slots_ c !! i = Some s ->
     (slot_occupied s = false <->
      next_unused_ c <= Z.of_nat i \/ Z.of_nat i ∈ free_positions_ c)) /\
  NoDup (free_positions_ c) /\
  (forall p, p ∈ free_positions_ c -> 0 <= p < next_unused_ c) /\
  0 <= next_unused_ c <= capacity n.
Proof.
  intros Hn Hr. destruct (Reachable_inv n c Hn Hr) as [Hinv Hlen].
  destruct (Reachable_FreeExact n c Hn Hr) as [_ Hfe].
  split; [|split; [|split]].
  - intros i s Hs. split; [apply (Hfe i s Hs)|].
    intros [Hc|Hc]; [exact (ci_fresh c Hinv i s Hs Hc)|].
    destruct (ci_free c Hinv _ Hc) as (_ & s' & Hs' & Hocc).
    rewrite Nat2Z.id, Hs in Hs'. now inversion Hs'; subst.
  - apply (ci_nodup c Hinv).
  - intros p Hp. apply (ci_free c Hinv p Hp).
  - rewrite <- Hlen. apply (ci_next c Hinv).
Qed.

End SingleTheory.

(** ** The single-owner cache at integral keys and values *)

Definition i_reserve (n : Z) : FdKVCache Z Z := Reserve 0 0 n.
Definition i_insert := Insert 0 0 Flat.int_hash Flat.int_equal.
Definition i_insert_or_assign := InsertOrAssign 0 0 Flat.int_hash Flat.int_equal.
Definition i_erase := Erase 0 0 Flat.int_hash Flat.int_equal.
Definition i_get (c : FdKVCache Z Z) (h : Z) : option Z := Get 0 0 c h.
Definition i_find_handle := FindHandle 0 0 Flat.int_hash Flat.int_equal.
Definition i_reachable := Reachable 0 0 Flat.int_hash Flat.int_equal.

Lemma i_reachable_insert (n : Z) (c : FdKVCache Z Z) (t k v : Z) :
  is_u8 t -> i_reachable n c -> i_reachable n (snd (i_insert c t k v)).
Proof.
  intros Ht Hr.
  exact (R_step 0 0 Flat.int_hash Flat.int_equal n c (OpInsert t k v) Hr Ht).
Qed.

Lemma i_reachable_erase (n : Z) (c : FdKVCache Z Z) (h : Z) :
  i_reachable n c -> i_reachable n (snd (i_erase c h)).
Proof.
  intros Hr.
  exact (R_step 0 0 Flat.int_hash Flat.int_equal n c (OpErase h) Hr I).
Qed.

Lemma is_u8_1 : is_u8 1.
Proof. unfold is_u8. lia. Qed.









(** C3 -- the trace on a new cache of capacity 4 (keys and values are
    integers): [Insert 1 10 100] returns a handle [H1] with position 0
    and generation 1, [Get H1] yields 100, [Erase H1] succeeds, [Get H1]
    is then null, a second [Insert 1 10 200] returns [H2] with position
    0 and generation 2, [H2 <> H1], and [Get H2] yields 200. *)
Theorem scenario_capacity_4 :
  let c0 := i_reserve 4 in
  let H1 := fst (i_insert c0 1 10 100) in
  let c1 := snd (i_insert c0 1 10 100) in
  let c2 := snd (i_erase c1 H1) in
  let H2 := fst (i_insert c2 1 10 200) in
  let c3 := snd (i_insert c2 1 10 200) in
  FdToken.Position H1 = 0 /\ FdToken.Generation H1 = 1 /\
  i_get c1 H1 = Some 100 /\
  fst (i_erase c1 H1) = true /\
  i_get c2 H1 = None /\
  FdToken.Position H2 = 0 /\ FdToken.Generation H2 = 2 /\
  H2 <> H1 /\
  i_get c3 H2 = Some 200.
Proof. vm_compute. conj_split; try reflexivity. discriminate. Qed.


(** C4 (as the spec has it) fails: a second [Insert] of key 10, with
    value 200, succeeds by returning the handle of the entry that is
    there, and [Get] on it yields the value stored first. *)
Lemma insert_existing_key_keeps_old_value :
  let c1 := snd (i_insert (i_reserve 4) 1 10 100) in
  let h := fst (i_insert c1 1 10 200) in
  let c2 := snd (i_insert c1 1 10 200) in
  i_reachable 4 c1 /\ h <> FdToken.kNull /\
  i_get c2 h = Some 100 /\ i_get c2 h <> Some 200.
Proof.
  cbv zeta. split.
  - apply i_reachable_insert; [exact is_u8_1|constructor].
  - vm_compute. conj_split; try reflexivity; discriminate.
Qed.

End Single.

(** ** The sharded cache (class [ShardedFdKVCache]) *)

(** Every public operation holds the lock of the one shard it touches
    from its first access to its return, so an operation is modelled as
    one atomic state transformer; [size_] is the atomic counter. *)

Module Sharded.

Definition kShardBits : Z := 8.
Definition kLocalBits : Z := FdToken.kPositionBits - kShardBits.
Definition kMaxShards : Z := Z.shiftl 1 kShardBits.
Definition kLocalMask : Z := Z.shiftl 1 kLocalBits - 1.

Definition NormalizeShardCount (shard_count : Z) : Z :=
  if shard_count =? 0 then 1
  else if shard_count >? kMaxShards then kMaxShards
  else shard_count.

(** All the arithmetic is on [std::size_t]. *)
Definition ComputePerShardCapacity (shard_count reserve_hint : Z) : Z :=
  let total := if reserve_hint =? 0 then Z.shiftl 1 15 else reserve_hint in
  let per_shard := wrap64 (wrap64 (total + shard_count) - 1) / shard_count in
  let per_shard := if per_shard =? 0 then 1 else per_shard in
  let hard_limit := kLocalMask + 1 in
  if per_shard >? hard_limit then hard_limit else per_shard.

Definition EncodePosition (shard_id local : Z) : Z :=
  Z.lor (wrap32 (Z.shiftl shard_id kLocalBits)) (Z.land local kLocalMask).

Definition DecodePosition (handle : Z) : Z * Z :=
  if FdToken.IsNull handle then (kInvalidPosition, kInvalidPosition)
  else
    let pos := FdToken.Position handle in
    (Z.shiftr pos kLocalBits, Z.land pos kLocalMask).

Definition BuildHandle (type generation shard_id local : Z) : Z :=
  FdToken.Make type generation (EncodePosition shard_id local).

Section ShardedFdKVCache.

Context {Key Value : Type}.
Variable key_default : Key.
Variable value_default : Value.
Variable hasher : Key -> Z.
Variable equal_ : Key -> Key -> bool.

(** The slot of a shard has the layout of the slot of [FdKVCache]. *)
Local Abbreviation Slot := (Single.Slot Key Value).
Local Abbreviation Slot0 := (Single.Slot0 key_default value_default).

Record Shard := mkShard {
  slots : list Slot;
  free_positions : list Z;      (* back of the vector at the head *)
  key_to_local : Flat.FlatIndexMap Key;
  next_unused : Z               (* std::uint32_t *)
}.

Record ShardedFdKVCache := mkSharded {
  shard_count_ : Z;
  per_shard_capacity_ : Z;
  shards_ : list Shard;
  size_ : Z
}.

(** [Shard{}] *)
Definition Shard0 : Shard := mkShard [] [] Flat.FlatIndexMap0 0.

(** The constructor. *)
Definition Construct (shard_count reserve_hint : Z) : ShardedFdKVCache :=
  let shard_count := NormalizeShardCount shard_count in
  let per_shard_capacity := ComputePerShardCapacity shard_count reserve_hint in
  mkSharded shard_count per_shard_capacity
            (replicate (Z.to_nat shard_count)
                       (mkShard (replicate (Z.to_nat per_shard_capacity) Slot0) []
                                (Flat.Init key_default per_shard_capacity) 0))
            0.

Definition size (C : ShardedFdKVCache) : Z := size_ C.

Definition ValidShardId (C : ShardedFdKVCache) (shard_id : Z) : bool :=
  shard_id <? shard_count_ C.

Definition ShardForKey (C : ShardedFdKVCache) (key : Key) : Z :=
  wrap32 (wrap64 (hasher key) mod shard_count_ C).

(** [shards_[shard_id]] and [shard.slots[local]] as rvalues. *)
Definition shard_at (C : ShardedFdKVCache) (shard_id : Z) : Shard :=
  default Shard0 (shards_ C !! Z.to_nat shard_id).

Definition slot_of (shard : Shard) (local : Z) : Slot :=
  default Slot0 (slots shard !! Z.to_nat local).

Definition set_shard (C : ShardedFdKVCache) (shard_id : Z) (shard : Shard)
           (size : Z) : ShardedFdKVCache :=
  mkSharded (shard_count_ C) (per_shard_capacity_ C)
            (<[Z.to_nat shard_id := shard]> (shards_ C)) size.

Definition AllocateLocal (shard : Shard) : Z * Shard :=
  match free_positions shard with
  | local :: rest =>
    (local, mkShard (slots shard) rest (key_to_local shard) (next_unused shard))
  | [] =>
    if next_unused shard >=? Z.of_nat (length (slots shard))
    then (kInvalidPosition, shard)
    else (next_unused shard,
          mkShard (slots shard) [] (key_to_local shard)
                  (wrap32 (next_unused shard + 1)))
  end.

Definition ValidateSlot (slot : Slot) (handle : Z) : bool :=
  if negb (Single.slot_occupied slot) then false
  else if negb (Single.slot_type slot =? FdToken.Type_ handle) then false
  else if negb (Single.slot_generation slot =? FdToken.Generation handle) then false
  else true.

Definition InsertImpl (C : ShardedFdKVCache) (type : Z) (key : Key) (value : Value)
           (assign_if_exists : bool) : Z * ShardedFdKVCache :=
  let shard_id := ShardForKey C key in
  let shard := shard_at C shard_id in
  match Flat.Find hasher equal_ (key_to_local shard) key with
  | Some local =>
    if assign_if_exists then
      let shard1 :=
        mkShard (alter (fun slot =>
                          Single.mkSlot (Single.slot_key slot) value
                                        (Single.slot_generation slot) type
                                        (Single.slot_occupied slot))
                       (Z.to_nat local) (slots shard))
                (free_positions shard) (key_to_local shard) (next_unused shard) in
      let slot := slot_of shard1 local in
      (BuildHandle (Single.slot_type slot) (Single.slot_generation slot)
                   shard_id local,
       set_shard C shard_id shard1 (size_ C))
    else
      let slot := slot_of shard local in
      (BuildHandle (Single.slot_type slot) (Single.slot_generation slot)
                   shard_id local, C)
  | None =>
    let '(local, shard1) := AllocateLocal shard in
    if local =? kInvalidPosition
    then (FdToken.kNull, set_shard C shard_id shard1 (size_ C))
    else
      let slots1 :=
        alter (fun slot =>
                 Single.mkSlot key value (Single.slot_generation slot) type true)
              (Z.to_nat local) (slots shard1) in
      let '(ok, index1) :=
        Flat.Insert hasher equal_ (key_to_local shard1) key local in
      if negb ok then
        (FdToken.kNull,
         set_shard C shard_id
           (mkShard (alter (fun slot =>
                              Single.mkSlot (Single.slot_key slot)
                                            (Single.slot_value slot)
                                            (Single.slot_generation slot)
                                            (Single.slot_type slot) false)
                           (Z.to_nat local) slots1)
                    (local :: free_positions shard1) index1 (next_unused shard1))
           (size_ C))
      else
        let shard2 := mkShard slots1 (free_positions shard1) index1
                              (next_unused shard1) in
        (BuildHandle type (Single.slot_generation (slot_of shard2 local))
                     shard_id local,
         set_shard C shard_id shard2 (wrap64 (size_ C + 1)))
  end.

Definition Insert (C : ShardedFdKVCache) (type : Z) (key : Key) (value : Value) :=
  InsertImpl C type key value false.

Definition InsertOrAssign (C : ShardedFdKVCache) (type : Z) (key : Key)
           (value : Value) :=
  InsertImpl C type key value true.

(** [Read]: [Some v] stands for [true] after [reader] was called on a
    slot value that holds [v]; [None] for [false]. *)
Definition Read (C : ShardedFdKVCache) (handle : Z) : option Value :=
  let '(shard_id, local) := DecodePosition handle in
  if negb (ValidShardId C shard_id) || (local >=? per_shard_capacity_ C)
  then None
  else
    let slot := slot_of (shard_at C shard_id) local in
    if negb (ValidateSlot slot handle) then None
    else Some (Single.slot_value slot).

(** [Get (handle, out_value)] with a non-null [out_value]. *)
Definition Get (C : ShardedFdKVCache) (handle : Z) : option Value :=
  Read C handle.

(** [Write]: the writer is a function on the stored value. *)
Definition Write (C : ShardedFdKVCache) (handle : Z) (writer : Value -> Value)
  : bool * ShardedFdKVCache :=
  let '(shard_id, local) := DecodePosition handle in
  if negb (ValidShardId C shard_id) || (local >=? per_shard_capacity_ C)
  then (false, C)
  else
    let shard := shard_at C shard_id in
    if negb (ValidateSlot (slot_of shard local) handle) then (false, C)
    else
      (true,
       set_shard C shard_id
         (mkShard (alter (fun slot =>
                            Single.mkSlot (Single.slot_key slot)
                                          (writer (Single.slot_value slot))
                                          (Single.slot_generation slot)
                                          (Single.slot_type slot)
                                          (Single.slot_occupied slot))
                         (Z.to_nat local) (slots shard))
                  (free_positions shard) (key_to_local shard) (next_unused shard))
         (size_ C)).



Definition Erase (C : ShardedFdKVCache) (handle : Z) : bool * ShardedFdKVCache :=
  let '(shard_id, local) := DecodePosition handle in
  if negb (ValidShardId C shard_id) || (local >=? per_shard_capacity_ C)
  then (false, C)
  else
    let shard := shard_at C shard_id in
    let slot := slot_of shard local in
    if negb (ValidateSlot slot handle) then (false, C)
    else
      let '(ok, index1) :=
        Flat.Erase hasher equal_ (key_to_local shard) (Single.slot_key slot) in
      if negb ok then
        (false,
         set_shard C shard_id
           (mkShard (slots shard) (free_positions shard) index1 (next_unused shard))
           (size_ C))
      else
        (true,
         set_shard C shard_id
           (mkShard (alter (fun slot =>
                              Single.mkSlot (Single.slot_key slot)
                                            (Single.slot_value slot)
                                            (NextGeneration
                                               (Single.slot_generation slot))
                                            0 false)
                           (Z.to_nat local) (slots shard))
                    (local :: free_positions shard) index1 (next_unused shard))
           (wrap64 (size_ C - 1))).

Definition FindHandle (C : ShardedFdKVCache) (key : Key) : Z :=
  let shard_id := ShardForKey C key in
  let shard := shard_at C shard_id in
  match Flat.Find hasher equal_ (key_to_local shard) key with
  | None => FdToken.kNull
  | Some local =>
    let slot := slot_of shard local in
    BuildHandle (Single.slot_type slot) (Single.slot_generation slot)
                shard_id local
  end.

(** *** Sequences of calls *)

Inductive Op :=
| OpInsert (type : Z) (key : Key) (value : Value)
| OpInsertOrAssign (type : Z) (key : Key) (value : Value)
| OpErase (handle : Z)
| OpWrite (handle : Z) (writer : Value -> Value).

Definition op_ok (o : Op) : Prop :=
  match o with
  | OpInsert t _ _ | OpInsertOrAssign t _ _ => is_u8 t
  | OpErase _ | OpWrite _ _ => True
  end.

Definition step (C : ShardedFdKVCache) (o : Op) : ShardedFdKVCache :=
  match o with
  | OpInsert t k v => snd (Insert C t k v)
  | OpInsertOrAssign t k v => snd (InsertOrAssign C t k v)
  | OpErase h => snd (Erase C h)
  | OpWrite h w => snd (Write C h w)
  end.

Definition run (C : ShardedFdKVCache) (ops : list Op) : ShardedFdKVCache :=
  fold_left step ops C.

Inductive Reachable (shard_count reserve_hint : Z) : ShardedFdKVCache -> Prop :=
| R_init : Reachable shard_count reserve_hint (Construct shard_count reserve_hint)
| R_step C o :
    Reachable shard_count reserve_hint C -> op_ok o ->
    Reachable shard_count reserve_hint (step C o).

End ShardedFdKVCache.

Arguments Shard : clear implicits.
Arguments ShardedFdKVCache : clear implicits.
Arguments Op : clear implicits.

(** *** Construction parameters *)

(** The spec's words for the per-shard capacity: the ceiling of
    [total / shard_count], at most 2^24 and at least 1, where [total]
    is [reserve_hint], or 32768 when [reserve_hint] is 0. *)
Definition ceil_div (a b : Z) : Z := (a + b - 1) / b.

Definition spec_per_shard_capacity (shard_count reserve_hint : Z) : Z :=
  let total := if reserve_hint =? 0 then 32768 else reserve_hint in
  Z.max 1 (Z.min (ceil_div total shard_count) (2 ^ 24)).

(** [ceil_div a b] is the least [q] with [a <= q * b]. *)
Lemma ceil_div_least (a b : Z) :
  0 <= a -> 0 < b ->
  a <= ceil_div a b * b /\ forall q, a <= q * b -> ceil_div a b <= q.
Proof.
  intros Ha Hb. unfold ceil_div.
  pose proof (Z.div_mod (a + b - 1) b ltac:(lia)) as Hdm.
  pose proof (Z.mod_pos_bound (a + b - 1) b Hb) as Hm.
  split; [nia|].
  intros q Hq. apply Z.lt_succ_r. apply Z.div_lt_upper_bound; nia.
Qed.

Lemma NormalizeShardCount_clamp (shard_count : Z) :
  0 <= shard_count ->
  NormalizeShardCount shard_count = Z.max 1 (Z.min shard_count 256).
Proof.
  intros Hs. unfold NormalizeShardCount. change kMaxShards with 256.
  rewrite Z.gtb_ltb.
  destruct (Z.eqb_spec shard_count 0), (Z.ltb_spec 256 shard_count); lia.
Qed.

(** Where [total + shard_count - 1] does not exceed the range of
    [std::size_t], the per-shard capacity is the one of the spec. *)
Lemma ComputePerShardCapacity_no_wrap (shard_count reserve_hint : Z) :
  1 <= shard_count -> 0 <= reserve_hint ->
  (if reserve_hint =? 0 then 32768 else reserve_hint) + shard_count - 1 < 2 ^ 64 ->
  ComputePerShardCapacity shard_count reserve_hint =
  spec_per_shard_capacity shard_count reserve_hint.
Proof.
  intros Hs Hh Hfit. unfold ComputePerShardCapacity, spec_per_shard_capacity.
  change (Z.shiftl 1 15) with 32768. change (kLocalMask + 1) with (2 ^ 24).
  set (total := if reserve_hint =? 0 then 32768 else reserve_hint) in *.
  assert (Ht : 1 <= total) by (unfold total; destruct (Z.eqb_spec reserve_hint 0); lia).
  assert (Hw : wrap64 (wrap64 (total + shard_count) - 1) = total + shard_count - 1).
  { unfold wrap64. rewrite Zminus_mod_idemp_l. apply Z.mod_small. lia. }
  rewrite Hw. fold (ceil_div total shard_count).
  destruct (ceil_div_least total shard_count ltac:(lia) ltac:(lia)) as [Hup Hleast].
  assert (Hpos : 1 <= ceil_div total shard_count) by nia.
  destruct (Z.eqb_spec (ceil_div total shard_count) 0); [lia|].
  rewrite Z.gtb_ltb.
  destruct (Z.ltb_spec (2 ^ 24) (ceil_div total shard_count)); lia.
Qed.

(** C9 -- the effective shard count is [shard_count] clamped to
    [1, 256], and the per-shard capacity is the ceiling of
    [total / shard_count'] clamped to [1, 2^24] as long as
    [total + shard_count' - 1] fits in a [std::size_t]; with
    [shard_count = 2] and [reserve_hint = 2^64 - 1] that sum wraps to 0
    and the per-shard capacity is 1, where the claim has 2^24. *)
Theorem per_shard_capacity_wraps_at_size_max :
  (forall shard_count, 0 <= shard_count ->
     NormalizeShardCount shard_count = Z.max 1 (Z.min shard_count 256)) /\
  (forall shard_count reserve_hint,
     0 <= shard_count -> 0 <= reserve_hint ->
     (if reserve_hint =? 0 then 32768 else reserve_hint)
       + NormalizeShardCount shard_count - 1 < 2 ^ 64 ->
     ComputePerShardCapacity (NormalizeShardCount shard_count) reserve_hint =
     spec_per_shard_capacity (NormalizeShardCount shard_count) reserve_hint) /\
  NormalizeShardCount 2 = 2 /\
  ComputePerShardCapacity (NormalizeShardCount 2) (2 ^ 64 - 1) = 1 /\
  spec_per_shard_capacity (NormalizeShardCount 2) (2 ^ 64 - 1) = 2 ^ 24.
Proof.
  split; [exact NormalizeShardCount_clamp|]. split.
  - intros sc hint Hs Hh Hfit.
    apply ComputePerShardCapacity_no_wrap; auto.
    rewrite NormalizeShardCount_clamp by assumption. lia.
  - vm_compute. auto.
Qed.

(** *** Theory of the sharded cache: every shard behaves as a
    single-owner cache *)

Section ShardedTheory.

Context {Key Value : Type}.
Variable key_default : Key.
Variable value_default : Value.
Variable hasher : Key -> Z.
Variable equal_ : Key -> Key -> bool.
Hypothesis equal_spec : forall a b, equal_ a b = true <-> a = b.

Local Abbreviation SCache := (ShardedFdKVCache Key Value).
Local Abbreviation ShardT := (Shard Key Value).
Local Abbreviation SlotT := (Single.Slot Key Value).
Local Abbreviation CacheT := (Single.FdKVCache Key Value).
Local Abbreviation s_step := (step key_default value_default hasher equal_).
Local Abbreviation s_run := (run key_default value_default hasher equal_).
Local Abbreviation s_erase := (Erase key_default value_default hasher equal_).
Local Abbreviation s_read := (Read key_default value_default).
Local Abbreviation s_write := (Write key_default value_default).
Local Abbreviation s_shard_at := (shard_at (Key:=Key) (Value:=Value)).
Local Abbreviation s_slot_of := (slot_of key_default value_default).
Local Abbreviation c_step := (Single.step key_default value_default hasher equal_).
Local Abbreviation c_build := (Single.BuildHandle key_default value_default).
Local Abbreviation c_validate := (Single.ValidateHandle key_default value_default).
Local Abbreviation CInv := (Single.CInv hasher equal_).

(** A shard seen as a single-owner cache, and back. *)
Definition as_cache (sh : ShardT) : CacheT :=
  Single.mkCache (slots sh) (free_positions sh) (key_to_local sh)
                 (next_unused sh) (Flat.size_ (key_to_local sh)).

Definition of_cache (c : CacheT) : ShardT :=
  mkShard (Single.slots_ c) (Single.free_positions_ c)
          (Single.key_to_position_ c) (Single.next_unused_ c).

Record SInv (C : SCache) : Prop := mkSInv {
  sv_count : 1 <= shard_count_ C <= 256;
  sv_len : Z.of_nat (length (shards_ C)) = shard_count_ C;
  sv_cap : 1 <= per_shard_capacity_ C <= 2 ^ 24;
  sv_shard : forall i sh, shards_ C !! i = Some sh ->
               CInv (as_cache sh) /\
               Z.of_nat (length (slots sh)) = per_shard_capacity_ C
}.

Lemma CInv_of_cache (c : CacheT) : CInv c -> CInv (as_cache (of_cache c)).
Proof.
  intros Hinv. unfold as_cache, of_cache. cbn.
  rewrite <- (Single.ci_size _ _ c Hinv). now destruct c.
Qed.

Lemma NormalizeShardCount_range (n : Z) :
  0 <= n -> 1 <= NormalizeShardCount n <= 256.
Proof. intros Hn. rewrite NormalizeShardCount_clamp by assumption. lia. Qed.

Lemma ComputePerShardCapacity_range (n hint : Z) :
  1 <= n -> 1 <= ComputePerShardCapacity n hint <= 2 ^ 24.
Proof.
  intros Hn. unfold ComputePerShardCapacity.
  change (kLocalMask + 1) with (2 ^ 24). cbv zeta.
  set (q := wrap64 _ / n).
  assert (Hq : 0 <= q).
  { unfold q. apply Z.div_pos; [|lia]. unfold wrap64.
    apply Z.mod_pos_bound. lia. }
  rewrite Z.gtb_ltb.
  destruct (Z.eqb_spec q 0).
  - destruct (Z.ltb_spec (2 ^ 24) 1); lia.
  - destruct (Z.ltb_spec (2 ^ 24) q); lia.
Qed.

Lemma Construct_inv (shard_count reserve_hint : Z) :
  0 <= shard_count ->
  SInv (Construct key_default value_default shard_count reserve_hint).
Proof.
  intros Hs. unfold Construct.
  pose proof (NormalizeShardCount_range shard_count Hs) as Hn.
  set (n := NormalizeShardCount shard_count) in *.
  pose proof (ComputePerShardCapacity_range n reserve_hint ltac:(lia)) as Hc.
  set (cap := ComputePerShardCapacity n reserve_hint) in *.
  constructor; cbn; auto.
  - rewrite length_replicate. lia.
  - intros i sh Hl. apply lookup_replicate in Hl as [-> _]. cbn.
    rewrite length_replicate. split; [|lia].
    destruct (Single.Reserve_inv key_default value_default hasher equal_
                                 equal_spec cap ltac:(lia)) as [Hinv _].
    unfold Single.Reserve in Hinv.
    replace (if cap =? 0 then 1 else cap) with cap in Hinv
      by (destruct (Z.eqb_spec cap 0); lia).
    exact Hinv.
Qed.

(** The handle that the single-owner cache builds for an occupied slot
    validates to the position of the slot. *)
Lemma Validate_BuildHandle (c : CacheT) (n : nat) (s : SlotT) :
  CInv c -> Single.slots_ c !! n = Some s -> Single.slot_occupied s = true ->
  c_validate c (c_build c (Z.of_nat n)) = Z.of_nat n.
Proof.
  intros Hinv Hs Hocc.
  destruct (Single.BuildHandle_Valid key_default value_default hasher equal_
                                     c n s Hinv Hs Hocc) as (_ & Hv & Hp).
  pose proof (Single.ci_cap _ _ c Hinv) as Hcap.
  destruct (Single.Validate_cases key_default value_default c
                                  (c_build c (Z.of_nat n)) ltac:(lia))
    as [[_ Hn]|(Hval & _ & _)]; [contradiction|].
  now rewrite Hval.
Qed.

(** *** Each call acts on one shard as a call of the single-owner cache *)

Lemma shard_lookup (C : SCache) (sid : Z) :
  SInv C -> 0 <= sid < shard_count_ C ->
  exists sh, shards_ C !! Z.to_nat sid = Some sh /\ s_shard_at C sid = sh.
Proof.
  intros Hinv Hr. pose proof (sv_len C Hinv) as Hlen.
  destruct (lookup_lt_is_Some_2 (shards_ C) (Z.to_nat sid) ltac:(lia)) as [sh Hsh].
  exists sh. split; auto. unfold shard_at. now rewrite Hsh.
Qed.

Lemma ShardForKey_range (C : SCache) (k : Key) :
  SInv C -> 0 <= ShardForKey hasher C k < shard_count_ C.
Proof.
  intros Hinv. pose proof (sv_count C Hinv) as Hc. unfold ShardForKey.
  pose proof (Z.mod_pos_bound (wrap64 (hasher k)) (shard_count_ C) ltac:(lia)).
  unfold wrap32. rewrite Z.mod_small; lia.
Qed.

Lemma InsertImpl_shape (C : SCache) (t : Z) (k : Key) (v : Value) (a : bool) :
  SInv C ->
  exists sh,
    shards_ C !! Z.to_nat (ShardForKey hasher C k) = Some sh /\
    (snd (InsertImpl key_default value_default hasher equal_ C t k v a) = C \/
     exists sz,
       snd (InsertImpl key_default value_default hasher equal_ C t k v a) =
       set_shard C (ShardForKey hasher C k)
                 (of_cache (c_step (as_cache sh)
                                   (if a then Single.OpInsertOrAssign t k v
                                    else Single.OpInsert t k v)))
                 sz).
Proof.
  intros Hinv.
  destruct (shard_lookup C _ Hinv (ShardForKey_range C k Hinv)) as (sh & Hsh & Hat).
  exists sh. split; [exact Hsh|].
  unfold InsertImpl. rewrite Hat. clear Hsh Hat.
  destruct sh as [sl fr idx nx].
  unfold as_cache, AllocateLocal.
  destruct a; cbn [Single.step];
    unfold Single.InsertOrAssign, Single.Insert, Single.AllocatePosition;
    cbn [Single.free_positions_ Single.slots_ Single.next_unused_
         Single.key_to_position_ Single.cache_size_
         slots free_positions key_to_local next_unused];
    (destruct (Flat.Find hasher equal_ idx k) as [local|] eqn:Hf;
     [first [now left | right; eexists; reflexivity]|]);
    right;
    (destruct fr as [|p rest];
     [destruct (nx >=? Z.of_nat (length sl));
      [eexists; reflexivity|]|]);
    match goal with
    | |- context [?x =? kInvalidPosition] =>
      destruct (x =? kInvalidPosition); [eexists; reflexivity|]
    end;
    cbn [Single.free_positions_ Single.slots_ Single.next_unused_
         Single.key_to_position_ Single.cache_size_
         slots free_positions key_to_local next_unused];
    match goal with
    | |- context [Flat.Insert hasher equal_ idx k ?x] =>
      destruct (Flat.Insert hasher equal_ idx k x) as [[] idx1]
    end;
    cbn [negb snd]; eexists; reflexivity.
Qed.

Lemma ValidateSlot_true (s : SlotT) (h : Z) :
  ValidateSlot s h = true <->
  Single.slot_occupied s = true /\
  Single.slot_type s = FdToken.Type_ h /\
  Single.slot_generation s = FdToken.Generation h.
Proof.
  unfold ValidateSlot.
  destruct (Single.slot_occupied s); cbn [negb];
    [|split; [discriminate|intros (? & _); discriminate]].
  destruct (Z.eqb_spec (Single.slot_type s) (FdToken.Type_ h)); cbn [negb];
    [|split; [discriminate|intros (_ & ? & _); contradiction]].
  destruct (Z.eqb_spec (Single.slot_generation s) (FdToken.Generation h));
    cbn [negb]; [tauto|].
  split; [discriminate|intros (_ & _ & ?); contradiction].
Qed.

Lemma DecodePosition_range (h : Z) :
  0 <= fst (DecodePosition h) /\ 0 <= snd (DecodePosition h).
Proof.
  unfold DecodePosition. destruct (FdToken.IsNull h); cbn [fst snd].
  - unfold kInvalidPosition. lia.
  - pose proof (Single.Position_range h) as Hp. split.
    + apply Z.shiftr_nonneg. lia.
    + apply Z.land_nonneg. left. lia.
Qed.

(** The bounds checks on a decoded position. *)
Lemma bounds_cases (C : SCache) (h sid local : Z) :
  SInv C -> DecodePosition h = (sid, local) ->
  negb (ValidShardId C sid) || (local >=? per_shard_capacity_ C) = true
  \/
  exists sh s,
    negb (ValidShardId C sid) || (local >=? per_shard_capacity_ C) = false /\
    0 <= sid /\ 0 <= local < 2 ^ 24 /\
    shards_ C !! Z.to_nat sid = Some sh /\ s_shard_at C sid = sh /\
    slots sh !! Z.to_nat local = Some s /\ s_slot_of sh local = s.
Proof.
  intros Hinv Hd. pose proof (DecodePosition_range h) as [Hs Hl].
  rewrite Hd in Hs, Hl. cbn in Hs, Hl.
  unfold ValidShardId. rewrite Z.geb_leb.
  destruct (Z.ltb_spec sid (shard_count_ C)) as [Hlt|Hge]; [|now left].
  destruct (Z.leb_spec (per_shard_capacity_ C) local) as [Hle|Hlt2]; [now left|].
  right. cbn [negb orb].
  destruct (shard_lookup C sid Hinv ltac:(lia)) as (sh & Hsh & Hat).
  destruct (sv_shard C Hinv _ sh Hsh) as [_ Hlen].
  pose proof (sv_cap C Hinv) as Hcap.
  destruct (lookup_lt_is_Some_2 (slots sh) (Z.to_nat local) ltac:(lia)) as [s Hsl].
  exists sh, s. conj_split; auto; try lia.
  unfold slot_of. now rewrite Hsl.
Qed.




Lemma Write_shape (C : SCache) (h : Z) (w : Value -> Value) :
  SInv C ->
  s_write C h w = (false, C)
  \/
  exists sid local sh s,
    DecodePosition h = (sid, local) /\ 0 <= sid /\ 0 <= local /\
    shards_ C !! Z.to_nat sid = Some sh /\
    slots sh !! Z.to_nat local = Some s /\
    Single.slot_occupied s = true /\
    Single.slot_generation s = FdToken.Generation h /\
    s_write C h w =
    (true,
     set_shard C sid
       (of_cache (c_step (as_cache sh)
                         (Single.OpStore (c_build (as_cache sh) local)
                                         (w (Single.slot_value s)))))
       (size_ C)).
Proof.
  intros Hinv. unfold Write.
  destruct (DecodePosition h) as [sid local] eqn:Hd.
  destruct (bounds_cases C h sid local Hinv Hd)
    as [->|(sh & s & -> & Hs & Hl & Hsh & -> & Hsl & ->)]; [now left|].
  destruct (ValidateSlot s h) eqn:Hv; cbn [negb]; [|now left].
  apply ValidateSlot_true in Hv as (Hocc & Ht & Hg).
  right. exists sid, local, sh, s. conj_split; auto; try lia.
  destruct (sv_shard C Hinv _ sh Hsh) as [Hci _].
  cbn [Single.step]. unfold Single.StoreValue.
  pose proof (Validate_BuildHandle (as_cache sh) (Z.to_nat local) s Hci Hsl Hocc)
    as Hval.
  rewrite Z2Nat.id in Hval by lia. rewrite Hval.
  destruct (Z.eqb_spec local kInvalidPosition) as [Heq|_];
    [unfold kInvalidPosition in Heq; lia|].
  cbn [as_cache Single.slots_ Single.free_positions_ Single.key_to_position_
       Single.next_unused_ Single.cache_size_ of_cache].
  rewrite !(list_alter_as_insert _ _ _ s Hsl). reflexivity.
Qed.

Lemma Erase_shape (C : SCache) (h : Z) :
  SInv C ->
  s_erase C h = (false, C)
  \/
  exists sid local sh s sz,
    DecodePosition h = (sid, local) /\ 0 <= sid /\ 0 <= local /\
    shards_ C !! Z.to_nat sid = Some sh /\
    slots sh !! Z.to_nat local = Some s /\
    Single.slot_occupied s = true /\
    Single.slot_generation s = FdToken.Generation h /\
    s_erase C h =
    (true,
     set_shard C sid
       (of_cache (c_step (as_cache sh)
                         (Single.OpErase (c_build (as_cache sh) local))))
       sz).
Proof.
  intros Hinv. unfold Erase.
  destruct (DecodePosition h) as [sid local] eqn:Hd.
  destruct (bounds_cases C h sid local Hinv Hd)
    as [->|(sh & s & -> & Hs & Hl & Hsh & -> & Hsl & ->)]; [now left|].
  destruct (ValidateSlot s h) eqn:Hv; cbn [negb]; [|now left].
  apply ValidateSlot_true in Hv as (Hocc & Ht & Hg).
  right.
  destruct (sv_shard C Hinv _ sh Hsh) as [Hci _].
  pose proof (Single.ci_occ _ _ _ Hci _ s Hsl Hocc) as Hfind.
  cbn [as_cache Single.key_to_position_] in Hfind.
  destruct (Flat.Erase_present_spec hasher equal_ equal_spec (key_to_local sh)
              (Single.slot_key s) _ (Single.ci_index _ _ _ Hci) Hfind)
    as (idx1 & Her & _).
  rewrite Her. cbn [negb].
  exists sid, local, sh, s. eexists. conj_split; auto; try lia.
  cbn [Single.step]. unfold Single.Erase.
  pose proof (Validate_BuildHandle (as_cache sh) (Z.to_nat local) s Hci Hsl Hocc)
    as Hval.
  rewrite Z2Nat.id in Hval by lia. rewrite Hval.
  destruct (Z.eqb_spec local kInvalidPosition) as [Heq|_];
    [unfold kInvalidPosition in Heq; lia|].
  rewrite (Single.slot_at_lookup key_default value_default (as_cache sh) local s Hsl).
  cbn [as_cache Single.slots_ Single.free_positions_ Single.key_to_position_
       Single.next_unused_ Single.cache_size_].
  rewrite Her. cbn [negb snd of_cache Single.slots_ Single.free_positions_
                    Single.key_to_position_ Single.next_unused_].
  reflexivity.
Qed.

(** *** Every call keeps the invariant of every shard *)

Definition gen_step (o : Op Key Value) (g g' : Z) : Prop :=
  g' = g \/ ((exists h, o = OpErase h) /\ g' = NextGeneration g).

(** What a call keeps: the invariant, the dimensions, and every
    generation but for one bump by an [Erase]. *)
Definition keeps (o : Op Key Value) (C C' : SCache) : Prop :=
  SInv C' /\
  shard_count_ C' = shard_count_ C /\
  per_shard_capacity_ C' = per_shard_capacity_ C /\
  forall i sh n s,
    shards_ C !! i = Some sh -> slots sh !! n = Some s ->
    exists sh' s', shards_ C' !! i = Some sh' /\ slots sh' !! n = Some s' /\
                   gen_step o (Single.slot_generation s) (Single.slot_generation s').

Lemma keeps_refl (o : Op Key Value) (C : SCache) : SInv C -> keeps o C C.
Proof.
  intros Hinv. unfold keeps. conj_split; auto.
  intros i sh n s Hsh Hs. exists sh, s. conj_split; auto. now left.
Qed.

Lemma keeps_set_shard (o : Op Key Value) (C : SCache) (sid : Z) (sh : ShardT)
      (o1 : Single.Op Key Value) (sz : Z) :
  SInv C -> 0 <= sid -> shards_ C !! Z.to_nat sid = Some sh ->
  Single.op_ok o1 ->
  ((exists h, o1 = Single.OpErase h) -> exists h, o = OpErase h) ->
  keeps o C (set_shard C sid (of_cache (c_step (as_cache sh) o1)) sz).
Proof.
  intros Hinv Hsid Hsh Hok Her.
  destruct (sv_shard C Hinv _ sh Hsh) as [Hci Hlen].
  destruct (Single.step_inv key_default value_default hasher equal_ equal_spec
                            (as_cache sh) o1 Hci Hok) as (Hci' & Hlen' & Hgen).
  pose proof (lookup_lt_Some _ _ _ Hsh) as Hlt.
  unfold keeps, set_shard. cbn [shards_ shard_count_ per_shard_capacity_].
  conj_split; auto.
  - constructor; cbn [shards_ shard_count_ per_shard_capacity_].
    + apply (sv_count C Hinv).
    + rewrite length_insert. apply (sv_len C Hinv).
    + apply (sv_cap C Hinv).
    + intros i sh' Hl. destruct (decide (i = Z.to_nat sid)) as [->|Hne].
      * rewrite list_lookup_insert_eq in Hl by assumption.
        inversion Hl; subst sh'. split; [now apply CInv_of_cache|].
        cbn [of_cache slots]. rewrite Hlen'. exact Hlen.
      * rewrite list_lookup_insert_ne in Hl by auto.
        apply (sv_shard C Hinv i sh' Hl).
  - intros i sh0 n s Hsh0 Hs.
    destruct (decide (i = Z.to_nat sid)) as [->|Hne].
    + rewrite Hsh in Hsh0. inversion Hsh0; subst sh0.
      destruct (Hgen n s Hs) as (s' & Hs' & Hrel).
      eexists _, s'. split; [now apply list_lookup_insert_eq|].
      split; [exact Hs'|].
      destruct Hrel as [Hsame|[He Hb]]; [now left|right]. auto.
    + exists sh0, s. rewrite list_lookup_insert_ne by auto.
      conj_split; auto. now left.
Qed.

Lemma step_keeps (C : SCache) (o : Op Key Value) :
  SInv C -> op_ok o -> keeps o C (s_step C o).
Proof.
  intros Hinv Hok. destruct o as [t k v|t k v|h|h w]; cbn [step op_ok] in *;
    unfold Insert, InsertOrAssign.
  - destruct (InsertImpl_shape C t k v false Hinv) as (sh & Hsh & [->|[sz ->]]).
    + now apply keeps_refl.
    + apply (keeps_set_shard _ C _ sh (Single.OpInsert t k v)); auto.
      * apply ShardForKey_range; auto.
      * intros [h' Hx]. discriminate.
  - destruct (InsertImpl_shape C t k v true Hinv) as (sh & Hsh & [->|[sz ->]]).
    + now apply keeps_refl.
    + apply (keeps_set_shard _ C _ sh (Single.OpInsertOrAssign t k v)); auto.
      * apply ShardForKey_range; auto.
      * intros [h' Hx]. discriminate.
  - destruct (Erase_shape C h Hinv)
      as [->|(sid & local & sh & s & sz & _ & Hs & _ & Hsh & _ & _ & _ & ->)];
      cbn [snd].
    + now apply keeps_refl.
    + apply (keeps_set_shard _ C _ sh (Single.OpErase _)); auto;
        first [exact I|intros _; eauto].
  - destruct (Write_shape C h w Hinv)
      as [->|(sid & local & sh & s & _ & Hs & _ & Hsh & _ & _ & _ & ->)];
      cbn [snd].
    + now apply keeps_refl.
    + apply (keeps_set_shard _ C _ sh (Single.OpStore _ _)); auto;
        first [exact I|intros [h' Hx]; discriminate].
Qed.

Lemma Reachable_SInv (shard_count reserve_hint : Z) (C : SCache) :
  0 <= shard_count ->
  Reachable key_default value_default hasher equal_ shard_count reserve_hint C ->
  SInv C.
Proof.
  intros Hs Hr. induction Hr as [|C o Hr IH Hok].
  - now apply Construct_inv.
  - apply (step_keeps C o IH Hok).
Qed.

(** *** The rollback of [InsertImpl] *)


(** *** What a user of the sharded cache can rely on *)

(** The position field [ shard_id:8 | local:24 ]. *)
Lemma EncodePosition_value (sid local : Z) :
  0 <= sid < 256 -> 0 <= local < 2 ^ 24 ->
  EncodePosition sid local = sid * 2 ^ 24 + local /\
  Z.shiftr (EncodePosition sid local) kLocalBits = sid /\
  Z.land (EncodePosition sid local) kLocalMask = local.
Proof.
  intros Hs Hl. unfold EncodePosition.
  change kLocalBits with 24. change kLocalMask with (Z.ones 24).
  rewrite Z.shiftl_mul_pow2 by lia.
  assert (Hw : wrap32 (sid * 2 ^ 24) = sid * 2 ^ 24)
    by (apply Z.mod_small; lia).
  rewrite Hw, (Z.land_ones local) by lia.
  rewrite (Z.mod_small local) by lia.
  assert (Hz : Z.land (sid * 2 ^ 24) local = 0).
  { apply Z.bits_inj'. intros i Hi. rewrite Z.land_spec, Z.bits_0.
    destruct (Z.ltb_spec i 24).
    - now rewrite Z.mul_pow2_bits_low by lia.
    - rewrite (testbit_high local 24 i) by lia. apply andb_false_r. }
  rewrite <- (Z.add_nocarry_lor _ _ Hz).
  split; [reflexivity|]. split.
  - rewrite Z.shiftr_div_pow2 by lia.
    symmetry. apply (Z.div_unique _ _ sid local); lia.
  - rewrite Z.land_ones by lia.
    symmetry. apply (Z.mod_unique _ _ sid local); lia.
Qed.

Lemma BuildHandle_fields (t g sid local : Z) :
  is_u8 t -> 1 <= g <= kMaxGeneration -> 0 <= sid < 256 -> 0 <= local < 2 ^ 24 ->
  BuildHandle t g sid local <> FdToken.kNull /\
  DecodePosition (BuildHandle t g sid local) = (sid, local) /\
  FdToken.Type_ (BuildHandle t g sid local) = t /\
  FdToken.Generation (BuildHandle t g sid local) = g /\
  FdToken.Position (BuildHandle t g sid local) = sid * 2 ^ 24 + local.
Proof.
  intros Ht Hg Hs Hl.
  destruct (EncodePosition_value sid local Hs Hl) as (He & Hsh & Hla).
  unfold BuildHandle.
  destruct (Single.Make_slot_fields t g (EncodePosition sid local) Ht Hg
              ltac:(rewrite He; lia)) as (HT & HG & HP & HN).
  split; [exact HN|]. split; [|split; [exact HT|split; [exact HG|]]].
  - unfold DecodePosition, FdToken.IsNull.
    destruct (Z.eqb_spec (FdToken.Make t g (EncodePosition sid local)) FdToken.kNull)
      as [E|_]; [contradiction|].
    now rewrite HP, Hsh, Hla.
  - now rewrite HP, He.
Qed.

Lemma DecodePosition_fields (h : Z) :
  h <> FdToken.kNull ->
  let sid := fst (DecodePosition h) in
  let local := snd (DecodePosition h) in
  0 <= sid < 256 /\ 0 <= local < 2 ^ 24 /\
  FdToken.Position h = sid * 2 ^ 24 + local.
Proof.
  intros Hn. cbv zeta. unfold DecodePosition, FdToken.IsNull.
  destruct (Z.eqb_spec h FdToken.kNull) as [|_]; [contradiction|].
  cbn [fst snd]. change kLocalBits with 24. change kLocalMask with (Z.ones 24).
  pose proof (Single.Position_range h) as Hp.
  rewrite Z.shiftr_div_pow2, Z.land_ones by lia.
  pose proof (Z.div_mod (FdToken.Position h) (2 ^ 24) ltac:(lia)) as Hdm.
  pose proof (Z.mod_pos_bound (FdToken.Position h) (2 ^ 24) ltac:(lia)) as Hm.
  assert (0 <= FdToken.Position h / 2 ^ 24 < 256).
  { split; [apply Z.div_pos; lia|apply Z.div_lt_upper_bound; lia]. }
  lia.
Qed.

(** X17 -- the position field of a sharded handle: for a shard id below
    256 and a local index below 2^24, [BuildHandle] packs
    [shard_id * 2^24 + local] into the position, the handle is not
    null, and [DecodePosition] gives the two numbers back, with the
    type and the generation intact; conversely every non-null handle
    decodes to a shard id below 256 and a local index below 2^24 that
    encode to its position; the null handle decodes to an invalid
    pair. *)
Theorem position_codec :
  (forall t g sid local,
      is_u8 t -> 1 <= g < 2 ^ 24 -> 0 <= sid < 256 -> 0 <= local < 2 ^ 24 ->
      let h := BuildHandle t g sid local in
      h <> FdToken.kNull /\
      FdToken.Position h = sid * 2 ^ 24 + local /\
      DecodePosition h = (sid, local) /\
      FdToken.Type_ h = t /\ FdToken.Generation h = g) /\
  (forall h, h <> FdToken.kNull ->
      let sid := fst (DecodePosition h) in
      let local := snd (DecodePosition h) in
      0 <= sid < 256 /\ 0 <= local < 2 ^ 24 /\
      EncodePosition sid local = FdToken.Position h) /\
  DecodePosition FdToken.kNull = (kInvalidPosition, kInvalidPosition).
Proof.
  split; [|split; [|reflexivity]].
  - intros t g sid local Ht Hg Hs Hl. cbv zeta.
    destruct (BuildHandle_fields t g sid local Ht
                ltac:(rewrite kMaxGeneration_val; lia) Hs Hl)
      as (H1 & H2 & H3 & H4 & H5).
    auto.
  - intros h Hn. cbv zeta.
    destruct (DecodePosition_fields h Hn) as (Hs & Hl & Hp).
    split; [exact Hs|]. split; [exact Hl|].
    destruct (EncodePosition_value _ _ Hs Hl) as (He & _). now rewrite He, Hp.
Qed.

Lemma of_as_cache (sh : ShardT) : of_cache (as_cache sh) = sh.
Proof. now destruct sh. Qed.

Lemma set_shard_same (C : SCache) (sid : Z) (sh : ShardT) :
  shards_ C !! Z.to_nat sid = Some sh -> set_shard C sid sh (size_ C) = C.
Proof.
  intros Hsh. destruct C as [n cap l sz]. unfold set_shard. cbn in *.
  now rewrite list_insert_id.
Qed.

(** [Read] accepts a handle exactly when the slot it designates is
    occupied with the type and the generation of the handle. *)
Lemma Read_Some_iff (C : SCache) (h : Z) (v : Value) :
  SInv C ->
  s_read C h = Some v <->
  exists sh s,
    h <> FdToken.kNull /\
    shards_ C !! Z.to_nat (fst (DecodePosition h)) = Some sh /\
    slots sh !! Z.to_nat (snd (DecodePosition h)) = Some s /\
    Single.slot_occupied s = true /\
    Single.slot_type s = FdToken.Type_ h /\
    Single.slot_generation s = FdToken.Generation h /\
    Single.slot_value s = v.
Proof.
  intros Hinv. unfold Read.
  destruct (DecodePosition h) as [sid local] eqn:Hd. cbn [fst snd].
  pose proof (sv_count C Hinv) as Hc. pose proof (sv_len C Hinv) as Hlen.
  destruct (bounds_cases C h sid local Hinv Hd)
    as [Hb|(sh & s & Hb & Hs & Hl & Hsh & Hat & Hsl & Hso)]; rewrite Hb.
  - split; [discriminate|].
    intros (sh & s & Hn & Hsh & Hsl & _). exfalso.
    pose proof (lookup_lt_Some _ _ _ Hsh) as Hlt1.
    pose proof (lookup_lt_Some _ _ _ Hsl) as Hlt2.
    destruct (sv_shard C Hinv _ sh Hsh) as [_ Hcap].
    destruct (DecodePosition_fields h Hn) as (Hr1 & Hr2 & _).
    rewrite Hd in Hr1, Hr2. cbn [fst snd] in Hr1, Hr2.
    unfold ValidShardId in Hb. rewrite Z.geb_leb in Hb.
    destruct (Z.ltb_spec sid (shard_count_ C)); [|lia].
    destruct (Z.leb_spec (per_shard_capacity_ C) local); [lia|discriminate].
  - rewrite Hat, Hso.
    destruct (ValidateSlot s h) eqn:Hv; cbn [negb].
    + apply ValidateSlot_true in Hv as (Hocc & Ht & Hg). split.
      * intros [= <-]. exists sh, s. conj_split; auto.
        intros ->. cbn in Hd. inversion Hd; subst.
        unfold kInvalidPosition in Hl. lia.
      * intros (sh' & s' & _ & Hsh' & Hsl' & _ & _ & _ & Hval).
        rewrite Hsh in Hsh'. inversion Hsh'; subst sh'.
        rewrite Hsl in Hsl'. inversion Hsl'; subst s'. now rewrite Hval.
    + split; [discriminate|].
      intros (sh' & s' & _ & Hsh' & Hsl' & Hocc & Ht & Hg & _).
      rewrite Hsh in Hsh'. inversion Hsh'; subst sh'.
      rewrite Hsl in Hsl'. inversion Hsl'; subst s'.
      assert (Htrue : ValidateSlot s h = true) by (now apply ValidateSlot_true).
      congruence.
Qed.

(** [FindHandle] looks the key up in the index of its shard. *)
Lemma FindHandle_cases (C : SCache) (k : Key) :
  SInv C ->
  exists sh,
    shards_ C !! Z.to_nat (ShardForKey hasher C k) = Some sh /\
    ((Flat.Find hasher equal_ (key_to_local sh) k = None /\
      FindHandle key_default value_default hasher equal_ C k = FdToken.kNull)
     \/
     exists local s,
       Flat.Find hasher equal_ (key_to_local sh) k = Some local /\
       0 <= local < 2 ^ 24 /\
       slots sh !! Z.to_nat local = Some s /\
       Single.slot_occupied s = true /\ Single.slot_key s = k /\
       FindHandle key_default value_default hasher equal_ C k =
       BuildHandle (Single.slot_type s) (Single.slot_generation s)
                   (ShardForKey hasher C k) local).
Proof.
  intros Hinv.
  destruct (shard_lookup C _ Hinv (ShardForKey_range C k Hinv)) as (sh & Hsh & Hat).
  exists sh. split; [exact Hsh|]. unfold FindHandle. rewrite Hat.
  destruct (Flat.Find hasher equal_ (key_to_local sh) k) as [local|] eqn:Hf;
    [right|now left].
  destruct (sv_shard C Hinv _ sh Hsh) as [Hci Hlen].
  destruct (Single.ci_find _ _ _ Hci k local Hf) as (Hl & s & Hs & Hocc & Hk).
  cbn [as_cache Single.slots_] in Hs.
  pose proof (lookup_lt_Some _ _ _ Hs) as Hlt.
  pose proof (sv_cap C Hinv) as Hcap.
  exists local, s. conj_split; auto; try lia.
  unfold slot_of. now rewrite Hs.
Qed.

(** The handle of a key that is in the cache reads the value of its
    slot. *)
Lemma FindHandle_reads (C : SCache) (k : Key) (sh : ShardT) (local : Z) (s : SlotT) :
  SInv C ->
  shards_ C !! Z.to_nat (ShardForKey hasher C k) = Some sh ->
  0 <= local < 2 ^ 24 ->
  slots sh !! Z.to_nat local = Some s -> Single.slot_occupied s = true ->
  let h := BuildHandle (Single.slot_type s) (Single.slot_generation s)
                       (ShardForKey hasher C k) local in
  h <> FdToken.kNull /\ DecodePosition h = (ShardForKey hasher C k, local) /\
  FdToken.Type_ h = Single.slot_type s /\
  FdToken.Generation h = Single.slot_generation s /\
  s_read C h = Some (Single.slot_value s).
Proof.
  intros Hinv Hsh Hl Hs Hocc. cbv zeta.
  destruct (sv_shard C Hinv _ sh Hsh) as [Hci _].
  pose proof (ShardForKey_range C k Hinv) as Hsr.
  pose proof (sv_count C Hinv) as Hc.
  destruct (BuildHandle_fields (Single.slot_type s) (Single.slot_generation s)
              (ShardForKey hasher C k) local
              (Single.ci_type _ _ _ Hci _ s Hs) (Single.ci_gen _ _ _ Hci _ s Hs)
              ltac:(lia) Hl) as (HN & HD & HT & HG & _).
  conj_split; auto.
  apply Read_Some_iff; [exact Hinv|]. exists sh, s. rewrite HD. cbn [fst snd].
  conj_split; auto.
Qed.

Lemma shard_at_lookup (C : SCache) (sid : Z) (sh : ShardT) :
  shards_ C !! Z.to_nat sid = Some sh -> s_shard_at C sid = sh.
Proof. intros H. unfold shard_at. now rewrite H. Qed.

Lemma slot_of_lookup (sh : ShardT) (local : Z) (s : SlotT) :
  slots sh !! Z.to_nat local = Some s -> s_slot_of sh local = s.
Proof. intros H. unfold slot_of. now rewrite H. Qed.

Lemma AllocateLocal_as (sh : ShardT) :
  AllocateLocal sh =
  (fst (Single.AllocatePosition (as_cache sh)),
   of_cache (snd (Single.AllocatePosition (as_cache sh)))).
Proof.
  destruct sh as [sl fr idx nx].
  unfold AllocateLocal, Single.AllocatePosition, as_cache, of_cache. cbn.
  destruct fr; [destruct (nx >=? Z.of_nat (length sl))|]; reflexivity.
Qed.

(** [InsertImpl] on a key that is in its shard. *)
Lemma InsertImpl_present (C : SCache) (t : Z) (k : Key) (v : Value) (a : bool)
      (sh : ShardT) (local : Z) :
  SInv C -> is_u8 t ->
  shards_ C !! Z.to_nat (ShardForKey hasher C k) = Some sh ->
  Flat.Find hasher equal_ (key_to_local sh) k = Some local ->
  exists old,
    0 <= local < 2 ^ 24 /\ slots sh !! Z.to_nat local = Some old /\
    Single.slot_occupied old = true /\ Single.slot_key old = k /\
    InsertImpl key_default value_default hasher equal_ C t k v a =
    if a
    then (BuildHandle t (Single.slot_generation old) (ShardForKey hasher C k) local,
          set_shard C (ShardForKey hasher C k)
            (mkShard (<[Z.to_nat local :=
                          Single.mkSlot k v (Single.slot_generation old) t true]>
                        (slots sh))
                     (free_positions sh) (key_to_local sh) (next_unused sh))
            (size_ C))
    else (BuildHandle (Single.slot_type old) (Single.slot_generation old)
                      (ShardForKey hasher C k) local, C).
Proof.
  intros Hinv Ht Hsh Hf.
  destruct (sv_shard C Hinv _ sh Hsh) as [Hci Hlen].
  destruct (Single.ci_find _ _ _ Hci k local Hf) as (Hl & old & Ho & Hocc & Hk).
  cbn [as_cache Single.slots_] in Ho.
  pose proof (lookup_lt_Some _ _ _ Ho) as Hlt.
  pose proof (sv_cap C Hinv) as Hcap.
  exists old. split; [lia|]. split; [exact Ho|]. split; [exact Hocc|].
  split; [exact Hk|].
  unfold InsertImpl. rewrite (shard_at_lookup C _ sh Hsh), Hf.
  destruct a.
  - rewrite (list_alter_as_insert _ _ _ old Ho), Hk, Hocc.
    rewrite (slot_of_lookup _ local
               (Single.mkSlot k v (Single.slot_generation old) t true))
      by (cbn; now apply list_lookup_insert_eq).
    reflexivity.
  - now rewrite (slot_of_lookup sh local old Ho).
Qed.

(** [InsertImpl] on a key that is not in its shard. *)
Lemma InsertImpl_absent (C : SCache) (t : Z) (k : Key) (v : Value) (a : bool)
      (sh : ShardT) :
  SInv C -> is_u8 t ->
  shards_ C !! Z.to_nat (ShardForKey hasher C k) = Some sh ->
  Flat.Find hasher equal_ (key_to_local sh) k = None ->
  (InsertImpl key_default value_default hasher equal_ C t k v a
   = (FdToken.kNull, C) /\
   free_positions sh = [] /\
   next_unused sh = Z.of_nat (length (slots sh)))
  \/
  exists local old sh2,
    0 <= local < 2 ^ 24 /\ slots sh !! Z.to_nat local = Some old /\
    Single.slot_occupied old = false /\
    InsertImpl key_default value_default hasher equal_ C t k v a =
    (BuildHandle t (Single.slot_generation old) (ShardForKey hasher C k) local,
     set_shard C (ShardForKey hasher C k) sh2 (wrap64 (size_ C + 1))) /\
    sh2 = of_cache (c_step (as_cache sh) (Single.OpInsert t k v)) /\
    slots sh2 =
      <[Z.to_nat local := Single.mkSlot k v (Single.slot_generation old) t true]>
        (slots sh) /\
    Flat.Find hasher equal_ (key_to_local sh2) k = Some local /\
    (forall k', k' <> k ->
       Flat.Find hasher equal_ (key_to_local sh2) k'
       = Flat.Find hasher equal_ (key_to_local sh) k') /\
    Flat.size_ (key_to_local sh2) = Flat.size_ (key_to_local sh) + 1 /\
    CInv (as_cache sh2).
Proof.
  intros Hinv Ht Hsh Hf.
  destruct (sv_shard C Hinv _ sh Hsh) as [Hci Hlen].
  pose proof (sv_cap C Hinv) as Hcap.
  unfold InsertImpl. rewrite (shard_at_lookup C _ sh Hsh), Hf, AllocateLocal_as.
  destruct (Single.Allocate_cases hasher equal_ (as_cache sh) Hci)
    as [(Hal & Hfree & Hnext)|
        (pos & c1 & old & Hal & Hne & Hr & Ho & Hocc & Hs1 & Hi1 & _)];
    rewrite Hal; cbn [fst snd].
  { left. rewrite Z.eqb_refl, of_as_cache, (set_shard_same C _ sh Hsh). auto. }
  right.
  destruct (Z.eqb_spec pos kInvalidPosition) as [|_]; [contradiction|].
  destruct (Single.Insert_absent_alloc key_default value_default hasher equal_
              equal_spec (as_cache sh) c1 t k v pos Hci Ht Hf Hal Hne)
    as (old' & c2 & Hp & Ho' & _ & Hins & Hsl & Hfr & Hnx & Hfk & Hfo & Hsz & Hinv2
        & Hfi).
  rewrite Ho in Ho'. inversion Ho'; subst old'.
  cbn [as_cache Single.slots_ Single.key_to_position_ Single.cache_size_] in *.
  cbn [of_cache key_to_local slots free_positions next_unused].
  rewrite Hs1, Hi1. cbn [Single.key_to_position_ as_cache]. rewrite Hfi.
  cbn [negb]. rewrite (list_alter_as_insert _ _ _ old Ho).
  cbn [Single.slot_generation].
  pose proof (lookup_lt_Some _ _ _ Ho) as Hlt.
  rewrite (slot_of_lookup _ pos
             (Single.mkSlot k v (Single.slot_generation old) t true))
    by (cbn; now apply list_lookup_insert_eq).
  cbn [Single.slot_generation].
  assert (Hsh2 : of_cache c2 =
                 mkShard (<[Z.to_nat pos :=
                              Single.mkSlot k v (Single.slot_generation old) t true]>
                            (slots sh))
                         (Single.free_positions_ c1)
                         (Single.key_to_position_ c2) (Single.next_unused_ c1))
    by (unfold of_cache; now rewrite Hsl, Hfr, Hnx).
  exists pos, old, (of_cache c2).
  split; [lia|]. split; [exact Ho|]. split; [exact Hocc|].
  split; [now rewrite Hsh2|].
  split; [cbn [Single.step]; now rewrite Hins|].
  split; [exact Hsl|]. split; [exact Hfk|]. split; [exact Hfo|].
  split; [|now apply CInv_of_cache].
  cbn [of_cache key_to_local].
  rewrite <- (Single.ci_size _ _ _ Hinv2). exact Hsz.
Qed.

(** [Write] performs the checks of [Read]. *)
Lemma Write_as_Read (C : SCache) (h : Z) (w : Value -> Value) :
  s_write C h w =
  match s_read C h with
  | None => (false, C)
  | Some _ =>
    (true,
     set_shard C (fst (DecodePosition h))
       (mkShard (alter (fun slot =>
                          Single.mkSlot (Single.slot_key slot)
                                        (w (Single.slot_value slot))
                                        (Single.slot_generation slot)
                                        (Single.slot_type slot)
                                        (Single.slot_occupied slot))
                       (Z.to_nat (snd (DecodePosition h)))
                       (slots (s_shard_at C (fst (DecodePosition h)))))
                (free_positions (s_shard_at C (fst (DecodePosition h))))
                (key_to_local (s_shard_at C (fst (DecodePosition h))))
                (next_unused (s_shard_at C (fst (DecodePosition h)))))
       (size_ C))
  end.
Proof.
  unfold Write, Read. destruct (DecodePosition h) as [sid local]. cbn [fst snd].
  destruct (negb (ValidShardId C sid) || (local >=? per_shard_capacity_ C));
    [reflexivity|].
  destruct (ValidateSlot (s_slot_of (s_shard_at C sid) local) h); reflexivity.
Qed.

(** [Erase] of a handle that [Read] accepts. *)
Lemma Erase_exact (C : SCache) (h : Z) :
  SInv C ->
  (s_read C h = None /\ s_erase C h = (false, C))
  \/
  exists sh s sh2,
    h <> FdToken.kNull /\
    shards_ C !! Z.to_nat (fst (DecodePosition h)) = Some sh /\
    slots sh !! Z.to_nat (snd (DecodePosition h)) = Some s /\
    Single.slot_occupied s = true /\
    Single.slot_type s = FdToken.Type_ h /\
    Single.slot_generation s = FdToken.Generation h /\
    s_read C h = Some (Single.slot_value s) /\
    s_erase C h =
      (true, set_shard C (fst (DecodePosition h)) sh2 (wrap64 (size_ C - 1))) /\
    (exists o1, Single.op_ok o1 /\ sh2 = of_cache (c_step (as_cache sh) o1)) /\
    slots sh2 =
      <[Z.to_nat (snd (DecodePosition h)) :=
          Single.mkSlot (Single.slot_key s) (Single.slot_value s)
                        (NextGeneration (Single.slot_generation s)) 0 false]>
        (slots sh) /\
    Flat.Find hasher equal_ (key_to_local sh2) (Single.slot_key s) = None /\
    (forall k', k' <> Single.slot_key s ->
       Flat.Find hasher equal_ (key_to_local sh2) k'
       = Flat.Find hasher equal_ (key_to_local sh) k') /\
    Flat.size_ (key_to_local sh2) = Flat.size_ (key_to_local sh) - 1 /\
    CInv (as_cache sh2).
Proof.
  intros Hinv.
  destruct (s_read C h) as [v|] eqn:Hrd.
  - right.
    apply (Read_Some_iff C h v Hinv) in Hrd
      as (sh & s & Hn & Hsh & Hsl & Hocc & Ht & Hg & Hv).
    destruct (sv_shard C Hinv _ sh Hsh) as [Hci _].
    destruct (DecodePosition_fields h Hn) as (Hsr & Hlr & _).
    destruct (DecodePosition h) as [sid local] eqn:Hd. cbn [fst snd] in *.
    destruct (Single.BuildHandle_Valid key_default value_default hasher equal_
                (as_cache sh) (Z.to_nat local) s Hci Hsl Hocc) as (_ & Hval & Hp).
    rewrite Z2Nat.id in Hval, Hp by lia.
    destruct (Single.Erase_cases key_default value_default hasher equal_ equal_spec
                (as_cache sh) (c_build (as_cache sh) local) Hci)
      as [[Hnv _]|(_ & old & c2 & Ho & _ & Hec & Hs2 & Hfk & Hfo & Hsz & Hinv2)];
      [contradiction|].
    rewrite Hp in Ho, Hs2. cbn [as_cache Single.slots_] in Ho, Hs2.
    rewrite Hsl in Ho. inversion Ho; subst old.
    exists sh, s, (of_cache c2). rewrite <- Hv.
    split; [exact Hn|]. split; [exact Hsh|]. split; [exact Hsl|].
    split; [exact Hocc|]. split; [exact Ht|]. split; [exact Hg|].
    split; [reflexivity|]. split.
    + pose proof (Single.ci_occ _ _ _ Hci _ s Hsl Hocc) as Hfind.
      cbn [as_cache Single.key_to_position_] in Hfind.
      destruct (Flat.Erase_present_spec hasher equal_ equal_spec (key_to_local sh)
                  (Single.slot_key s) _ (Single.ci_index _ _ _ Hci) Hfind)
        as (idx1 & Her & _).
      pose proof (Validate_BuildHandle (as_cache sh) (Z.to_nat local) s Hci Hsl Hocc)
        as Hvl.
      rewrite Z2Nat.id in Hvl by lia.
      unfold Single.Erase in Hec. rewrite Hvl in Hec.
      destruct (Z.eqb_spec local kInvalidPosition) as [Heq|_];
        [unfold kInvalidPosition in Heq; lia|].
      rewrite (Single.slot_at_lookup key_default value_default (as_cache sh) local s Hsl)
        in Hec.
      cbn [as_cache Single.slots_ Single.free_positions_ Single.key_to_position_
           Single.next_unused_ Single.cache_size_] in Hec.
      rewrite Her in Hec. cbn [negb] in Hec. inversion Hec as [Hc2]. clear Hec.
      unfold Erase. rewrite Hd.
      destruct (bounds_cases C h sid local Hinv Hd)
        as [Hb|(sh' & s' & Hb & _ & _ & Hsh' & Hat & Hsl' & Hso)].
      { exfalso. assert (Hr0 : s_read C h = Some (Single.slot_value s)).
        { apply Read_Some_iff; [exact Hinv|]. exists sh, s. rewrite Hd.
          conj_split; auto. }
        unfold Read in Hr0. rewrite Hd, Hb in Hr0. discriminate. }
      assert (Esh : sh' = sh) by congruence. rewrite Esh in Hat, Hsl', Hso.
      assert (Es : s' = s) by congruence. rewrite Es in Hso.
      rewrite Hb, Hat, Hso.
      assert (Htrue : ValidateSlot s h = true) by (now apply ValidateSlot_true).
      rewrite Htrue, Her. cbn [negb of_cache Single.slots_ Single.free_positions_
                                Single.key_to_position_ Single.next_unused_].
      reflexivity.
    + split; [exists (Single.OpErase (c_build (as_cache sh) local));
              split; [exact I|cbn [Single.step]; now rewrite Hec]|].
      split; [exact Hs2|]. split; [exact Hfk|]. split; [exact Hfo|].
      split; [|now apply CInv_of_cache].
      cbn [of_cache key_to_local].
      rewrite <- (Single.ci_size _ _ _ Hinv2). exact Hsz.
  - left. split; [reflexivity|].
    unfold Erase, Read in *. destruct (DecodePosition h) as [sid local].
    destruct (negb (ValidShardId C sid) || (local >=? per_shard_capacity_ C));
      [reflexivity|].
    destruct (ValidateSlot (s_slot_of (s_shard_at C sid) local) h);
      [discriminate|reflexivity].
Qed.

(** *** The global counter and the free lists *)

Fixpoint sum_over (f : ShardT -> Z) (l : list ShardT) : Z :=
  match l with
  | [] => 0
  | sh :: l' => f sh + sum_over f l'
  end.

Lemma sum_over_insert (f : ShardT -> Z) (l : list ShardT) (i : nat) (sh sh' : ShardT) :
  l !! i = Some sh ->
  sum_over f (<[i := sh']> l) = sum_over f l - f sh + f sh'.
Proof.
  revert i. induction l as [|x l IH]; intros i Hi; [discriminate|].
  destruct i as [|i]; csimpl in *.
  - inversion Hi; subst. lia.
  - rewrite (IH i Hi). lia.
Qed.

Lemma sum_over_bounds (f : ShardT -> Z) (l : list ShardT) (B : Z) :
  (forall i sh, l !! i = Some sh -> 0 <= f sh <= B) ->
  0 <= sum_over f l <= Z.of_nat (length l) * B /\
  forall i sh, l !! i = Some sh -> f sh <= sum_over f l.
Proof.
  induction l as [|x l IH]; intros H; cbn [sum_over length].
  - split; [lia|]. intros i sh Hi. discriminate.
  - destruct (IH (fun i sh Hi => H (S i) sh Hi)) as [Hb Hle].
    pose proof (H 0%nat x eq_refl) as Hx.
    split; [nia|]. intros [|i] sh Hi; csimpl in Hi.
    + inversion Hi; subst. lia.
    + specialize (Hle i sh Hi). lia.
Qed.

Lemma sum_over_ext (f g : ShardT -> Z) (l : list ShardT) :
  (forall i sh, l !! i = Some sh -> f sh = g sh) ->
  sum_over f l = sum_over g l.
Proof.
  induction l as [|x l IH]; intros H; cbn [sum_over]; [reflexivity|].
  rewrite (H 0%nat x eq_refl), (IH (fun i sh Hi => H (S i) sh Hi)). reflexivity.
Qed.

Lemma sum_over_replicate (f : ShardT -> Z) (sh : ShardT) (n : nat) :
  f sh = 0 -> sum_over f (replicate n sh) = 0.
Proof. intros H. induction n as [|n IH]; cbn; lia. Qed.

(** The number of keys in the index of a shard. *)
Definition entries (sh : ShardT) : Z := Flat.size_ (key_to_local sh).

(** The part of the state that the invariant of the shards does not
    cover: the atomic counter is the sum over the shards, the free
    list and the cursor of a shard account for each of its free slots,
    and a key is stored in the shard that its hash selects. *)
Record SUse (C : SCache) : Prop := mkSUse {
  su_size : size_ C = sum_over entries (shards_ C);
  su_free : forall i sh, shards_ C !! i = Some sh -> Single.FreeExact (as_cache sh);
  su_home : forall i sh p s,
      shards_ C !! i = Some sh -> slots sh !! p = Some s ->
      Single.slot_occupied s = true ->
      ShardForKey hasher C (Single.slot_key s) = Z.of_nat i
}.

Lemma entries_range (C : SCache) (i : nat) (sh : ShardT) :
  SInv C -> shards_ C !! i = Some sh ->
  0 <= entries sh <= per_shard_capacity_ C /\
  entries sh = Single.count_occupied (slots sh).
Proof.
  intros Hinv Hsh. destruct (sv_shard C Hinv i sh Hsh) as [Hci Hlen].
  pose proof (Flat.FWf_bounds hasher _ (Single.ci_index _ _ _ Hci)) as Hb.
  pose proof (Single.ci_max _ _ _ Hci) as Hmax.
  pose proof (Single.ci_count _ _ _ Hci) as Hcnt.
  cbn [as_cache Single.key_to_position_ Single.slots_ Single.cache_size_] in *.
  unfold entries. split; [lia|exact Hcnt].
Qed.

Lemma size_range (C : SCache) :
  SInv C -> SUse C ->
  0 <= size_ C <= shard_count_ C * per_shard_capacity_ C /\
  size_ C < 2 ^ 63 /\
  forall i sh, shards_ C !! i = Some sh -> entries sh <= size_ C.
Proof.
  intros Hinv Huse. rewrite (su_size C Huse).
  destruct (sum_over_bounds entries (shards_ C) (per_shard_capacity_ C)
              (fun i sh Hi => proj1 (entries_range C i sh Hinv Hi))) as [Hb Hle].
  rewrite (sv_len C Hinv) in Hb.
  pose proof (sv_count C Hinv). pose proof (sv_cap C Hinv).
  split; [exact Hb|]. split; [nia|exact Hle].
Qed.

(** [set_shard] with a shard that differs in one slot from the one it
    replaces, and by [d] entries. *)
Lemma SUse_set_shard (C : SCache) (sid : Z) (sh sh2 : ShardT) (d sz : Z)
      (q : nat) (new : SlotT) :
  SUse C -> 0 <= sid -> shards_ C !! Z.to_nat sid = Some sh ->
  entries sh2 = entries sh + d -> sz = size_ C + d ->
  Single.FreeExact (as_cache sh2) ->
  slots sh2 = <[q := new]> (slots sh) ->
  (Single.slot_occupied new = true ->
   ShardForKey hasher C (Single.slot_key new) = sid) ->
  SUse (set_shard C sid sh2 sz).
Proof.
  intros Huse Hs Hsh Hd -> Hfe Hsl Hnew.
  constructor; cbn [set_shard shards_ size_].
  - rewrite (sum_over_insert entries _ _ sh sh2 Hsh), (su_size C Huse). lia.
  - intros i sh' Hi. destruct (decide (i = Z.to_nat sid)) as [->|Hne].
    + rewrite list_lookup_insert_eq in Hi by (eapply lookup_lt_Some; eauto).
      inversion Hi; subst sh'. exact Hfe.
    + rewrite list_lookup_insert_ne in Hi by auto. exact (su_free C Huse i sh' Hi).
  - intros i sh' p s Hi Hp Hocc.
    change (ShardForKey hasher C (Single.slot_key s) = Z.of_nat i).
    destruct (decide (i = Z.to_nat sid)) as [->|Hne].
    + rewrite list_lookup_insert_eq in Hi by (eapply lookup_lt_Some; eauto).
      inversion Hi; subst sh'. rewrite Z2Nat.id by lia.
      rewrite Hsl in Hp. destruct (decide (p = q)) as [->|Hpq].
      * pose proof (lookup_lt_Some _ _ _ Hp) as Hlt. rewrite length_insert in Hlt.
        rewrite list_lookup_insert_eq in Hp by exact Hlt.
        inversion Hp; subst s. now apply Hnew.
      * rewrite list_lookup_insert_ne in Hp by auto.
        rewrite (su_home C Huse _ sh p s Hsh Hp Hocc). lia.
    + rewrite list_lookup_insert_ne in Hi by auto.
      exact (su_home C Huse i sh' p s Hi Hp Hocc).
Qed.

Lemma FreeExact_step (sh : ShardT) (o1 : Single.Op Key Value) :
  CInv (as_cache sh) -> Single.FreeExact (as_cache sh) -> Single.op_ok o1 ->
  Single.FreeExact (as_cache (of_cache (c_step (as_cache sh) o1))).
Proof.
  intros Hci Hfe Hok.
  exact (Single.step_FreeExact key_default value_default hasher equal_ equal_spec
           (as_cache sh) o1 Hci Hfe Hok).
Qed.

Lemma FreeExact_payload (sh : ShardT) (p : nat) (s new : SlotT) :
  Single.FreeExact (as_cache sh) -> slots sh !! p = Some s ->
  Single.slot_occupied new = Single.slot_occupied s ->
  Single.FreeExact
    (as_cache (mkShard (<[p := new]> (slots sh)) (free_positions sh)
                       (key_to_local sh) (next_unused sh))).
Proof.
  intros Hfe Hs Hocc.
  eapply (Single.FreeExact_update (as_cache sh)); [exact Hfe|reflexivity| |].
  - intros Hn. rewrite Hocc in Hn. exact (Hfe p s Hs Hn).
  - auto.
Qed.

Lemma step_SUse (C : SCache) (o : Op Key Value) :
  SInv C -> SUse C -> op_ok o -> SUse (s_step C o).
Proof.
  intros Hinv Huse Hok.
  destruct (size_range C Hinv Huse) as (Hsz & Hlt & Hle).
  assert (Hins : forall t k v a, is_u8 t ->
            SUse (snd (InsertImpl key_default value_default hasher equal_
                                  C t k v a))).
  { intros t k v a Ht.
    pose proof (ShardForKey_range C k Hinv) as Hsr.
    destruct (shard_lookup C _ Hinv Hsr) as (sh & Hsh & _).
    destruct (sv_shard C Hinv _ sh Hsh) as [Hci _].
    pose proof (su_free C Huse _ sh Hsh) as Hfe.
    destruct (Flat.Find hasher equal_ (key_to_local sh) k) as [local|] eqn:Hf.
    - destruct (InsertImpl_present C t k v a sh local Hinv Ht Hsh Hf)
        as (old & _ & Ho & Hocc & _ & ->).
      destruct a; [|exact Huse]. cbn [snd].
      eapply (SUse_set_shard C _ sh _ 0 _ _ _ Huse (proj1 Hsr) Hsh);
        [unfold entries; cbn; lia|lia| |reflexivity|reflexivity].
      now apply (FreeExact_payload sh _ old).
    - destruct (InsertImpl_absent C t k v a sh Hinv Ht Hsh Hf)
        as [(-> & _)|(local & old & sh2 & _ & _ & _ & -> & -> & Hsl & _ & _ & He & _)];
        [exact Huse|].
      cbn [snd].
      eapply (SUse_set_shard C _ sh _ 1 _ _ _ Huse (proj1 Hsr) Hsh He);
        [apply Z.mod_small; lia| |exact Hsl|reflexivity].
      now apply FreeExact_step. }
  destruct o as [t k v|t k v|h|h w]; cbn [step].
  - apply Hins. exact Hok.
  - apply Hins. exact Hok.
  - destruct (Erase_exact C h Hinv)
      as [(_ & ->)|(sh & s & sh2 & Hn & Hsh & _ & _ & _ & _ & _ & -> &
                   (o1 & Hok1 & Hsh2) & Hsl & _ & _ & He & Hci2)]; [exact Huse|].
    cbn [snd].
    destruct (sv_shard C Hinv _ sh Hsh) as [Hci _].
    destruct (DecodePosition_fields h Hn) as (Hsr & _).
    pose proof (Flat.FWf_bounds hasher _ (Single.ci_index _ _ _ Hci2)) as Hb2.
    cbn [as_cache Single.key_to_position_] in Hb2.
    specialize (Hle _ sh Hsh). unfold entries in Hle.
    eapply (SUse_set_shard C _ sh _ (-1) _ _ _ Huse (proj1 Hsr) Hsh);
      [unfold entries; lia|unfold wrap64; rewrite Z.mod_small; lia|
       |exact Hsl|discriminate].
    rewrite Hsh2. apply FreeExact_step; auto. exact (su_free C Huse _ sh Hsh).
  - rewrite Write_as_Read. destruct (s_read C h) as [v0|] eqn:Hrd; [|exact Huse].
    apply (Read_Some_iff C h v0 Hinv) in Hrd
      as (sh & s & Hn & Hsh & Hsl & Hocc & _).
    destruct (DecodePosition_fields h Hn) as (Hsr & _).
    cbn [snd]. rewrite (shard_at_lookup C _ sh Hsh).
    rewrite (list_alter_as_insert _ _ _ s Hsl).
    eapply (SUse_set_shard C _ sh _ 0 _ _ _ Huse (proj1 Hsr) Hsh);
      [unfold entries; cbn; lia|lia| |reflexivity|].
    + apply (FreeExact_payload sh _ s); auto.
      exact (su_free C Huse _ sh Hsh).
    + intros _. cbn [Single.slot_key].
      rewrite (su_home C Huse _ sh _ s Hsh Hsl Hocc). lia.
Qed.

Lemma Reachable_SUse (shard_count reserve_hint : Z) (C : SCache) :
  0 <= shard_count ->
  Reachable key_default value_default hasher equal_ shard_count reserve_hint C ->
  SInv C /\ SUse C.
Proof.
  intros Hs Hr. induction Hr as [|C o Hr [IHi IHu] Hok].
  - split; [now apply Construct_inv|].
    constructor; unfold Construct; cbn [size_ shards_].
    + symmetry. apply sum_over_replicate. reflexivity.
    + intros i sh Hi. apply lookup_replicate in Hi as [-> _].
      intros n s _ _. left. cbn. lia.
    + intros i sh p s Hi Hp Hocc. apply lookup_replicate in Hi as [-> _].
      cbn [slots] in Hp. apply lookup_replicate in Hp as [-> _]. discriminate.
  - split; [apply (step_keeps C o IHi Hok)|now apply step_SUse].
Qed.

(** [Read] looks at one slot of one shard. *)
Lemma Read_set_shard (C : SCache) (sid : Z) (sh2 : ShardT) (sz h : Z) :
  s_slot_of (s_shard_at (set_shard C sid sh2 sz) (fst (DecodePosition h)))
            (snd (DecodePosition h))
  = s_slot_of (s_shard_at C (fst (DecodePosition h))) (snd (DecodePosition h)) ->
  s_read (set_shard C sid sh2 sz) h = s_read C h.
Proof.
  intros H. unfold Read. destruct (DecodePosition h) as [sid' local'].
  cbn [fst snd] in H. unfold ValidShardId.
  cbn [set_shard shard_count_ per_shard_capacity_]. now rewrite H.
Qed.

Lemma Read_null (C : SCache) : SInv C -> s_read C FdToken.kNull = None.
Proof.
  intros Hinv. destruct (s_read C FdToken.kNull) as [v|] eqn:Hr; [|reflexivity].
  apply (Read_Some_iff C _ v Hinv) in Hr as (_ & _ & Hn & _). now contradiction Hn.
Qed.

(** The slot that a handle designates after [set_shard], when the new
    shard differs from the old one in one slot. *)
Lemma slot_of_set_shard (C : SCache) (sid : Z) (sh sh2 : ShardT) (sz : Z)
      (q : nat) (new : SlotT) (sid' local' : Z) :
  0 <= sid -> 0 <= sid' -> shards_ C !! Z.to_nat sid = Some sh ->
  slots sh2 = <[q := new]> (slots sh) ->
  (sid' = sid -> Z.to_nat local' <> q) ->
  s_slot_of (s_shard_at (set_shard C sid sh2 sz) sid') local'
  = s_slot_of (s_shard_at C sid') local'.
Proof.
  intros Hs Hs' Hsh Hsl Hne. unfold shard_at, set_shard. cbn [shards_].
  destruct (decide (sid' = sid)) as [->|Hd].
  - rewrite list_lookup_insert_eq by (eapply lookup_lt_Some; eauto).
    rewrite Hsh. cbn [from_option id]. unfold slot_of.
    rewrite Hsl, list_lookup_insert_ne; auto. intros E. now apply Hne.
  - rewrite list_lookup_insert_ne; [reflexivity|]. lia.
Qed.

(** The keys that a call does not touch keep their handles and their
    values: the new shard differs from the old one in one slot, which
    held none of these keys, and its index finds them as before. *)
Lemma shard_handles_kept (C : SCache) (sid : Z) (sh sh2 : ShardT) (sz : Z)
      (q : nat) (new : SlotT) (k : Key) :
  SInv C -> 0 <= sid -> shards_ C !! Z.to_nat sid = Some sh ->
  slots sh2 = <[q := new]> (slots sh) ->
  (forall k', k' <> k ->
     Flat.Find hasher equal_ (key_to_local sh2) k'
     = Flat.Find hasher equal_ (key_to_local sh) k') ->
  (forall s, slots sh !! q = Some s -> Single.slot_occupied s = true ->
             Single.slot_key s = k) ->
  forall k', k' <> k ->
    FindHandle key_default value_default hasher equal_ (set_shard C sid sh2 sz) k'
    = FindHandle key_default value_default hasher equal_ C k' /\
    s_read (set_shard C sid sh2 sz)
           (FindHandle key_default value_default hasher equal_ C k')
    = s_read C (FindHandle key_default value_default hasher equal_ C k').
Proof.
  intros Hinv Hs Hsh Hsl Hfo Hq k' Hk.
  pose proof (ShardForKey_range C k' Hinv) as Hsr.
  destruct (FindHandle_cases C k' Hinv)
    as (shk & Hshk & [(Hf & Hfh)|(local & s & Hf & Hl & Hsk & Hocc & Hkey & Hfh)]).
  - rewrite Hfh. split.
    + unfold FindHandle in *. 
      change (ShardForKey hasher (set_shard C sid sh2 sz) k')
        with (ShardForKey hasher C k').
      unfold shard_at, set_shard. cbn [shards_].
      destruct (decide (ShardForKey hasher C k' = sid)) as [E|E].
      * rewrite E in *. rewrite list_lookup_insert_eq by (eapply lookup_lt_Some; eauto).
        cbn [from_option id]. rewrite Hfo by exact Hk.
        assert (shk = sh) by congruence. subst shk. now rewrite Hf.
      * rewrite list_lookup_insert_ne by lia. rewrite Hshk. cbn [from_option id].
        now rewrite Hf.
    + apply Read_set_shard.
      change (DecodePosition FdToken.kNull) with (kInvalidPosition, kInvalidPosition).
      cbn [fst snd]. unfold shard_at, set_shard. cbn [shards_].
      pose proof (lookup_lt_Some _ _ _ Hsh) as Hlt.
      pose proof (sv_len C Hinv) as Hlen. pose proof (sv_count C Hinv) as Hc.
      rewrite list_lookup_insert_ne; [reflexivity|].
      unfold kInvalidPosition. lia.
  - assert (Hnq : ShardForKey hasher C k' = sid -> Z.to_nat local <> q).
    { intros E Eq. rewrite E in Hshk. assert (shk = sh) by congruence. subst shk.
      rewrite Eq in Hsk. apply Hk. rewrite <- Hkey. now apply Hq. }
    destruct (FindHandle_reads C k' shk local s Hinv Hshk Hl Hsk Hocc)
      as (HN & HD & _).
    assert (Hslot : s_slot_of (s_shard_at (set_shard C sid sh2 sz)
                                          (ShardForKey hasher C k')) local
                    = s_slot_of (s_shard_at C (ShardForKey hasher C k')) local)
      by (apply (slot_of_set_shard C sid sh sh2 sz q new); auto; lia).
    split.
    + unfold FindHandle.
      change (ShardForKey hasher (set_shard C sid sh2 sz) k')
        with (ShardForKey hasher C k').
      assert (Hfind : Flat.Find hasher equal_
                        (key_to_local (s_shard_at (set_shard C sid sh2 sz)
                                                  (ShardForKey hasher C k'))) k'
                      = Some local).
      { unfold shard_at, set_shard. cbn [shards_].
        destruct (decide (ShardForKey hasher C k' = sid)) as [E|E].
        - rewrite E in *.
          rewrite list_lookup_insert_eq by (eapply lookup_lt_Some; eauto).
          cbn [from_option id]. rewrite Hfo by exact Hk.
          assert (shk = sh) by congruence. subst shk. exact Hf.
        - rewrite list_lookup_insert_ne by lia. rewrite Hshk. exact Hf. }
      rewrite Hfind, Hslot, (shard_at_lookup C _ shk Hshk), Hf. reflexivity.
    + rewrite Hfh. apply Read_set_shard. rewrite HD. cbn [fst snd]. exact Hslot.
Qed.

Local Abbreviation s_reachable :=
  (Reachable key_default value_default hasher equal_).
Local Abbreviation s_find_handle :=
  (FindHandle key_default value_default hasher equal_).
Local Abbreviation s_insert := (Insert key_default value_default hasher equal_).
Local Abbreviation s_insert_or_assign :=
  (InsertOrAssign key_default value_default hasher equal_).

(** The dimensions of a cache are those of its construction. *)
Lemma Reachable_dims (shard_count reserve_hint : Z) (C : SCache) :
  0 <= shard_count -> s_reachable shard_count reserve_hint C ->
  shard_count_ C = NormalizeShardCount shard_count /\
  per_shard_capacity_ C =
    ComputePerShardCapacity (NormalizeShardCount shard_count) reserve_hint.
Proof.
  intros Hs Hr. induction Hr as [|C o Hr [IH1 IH2] Hok]; [split; reflexivity|].
  pose proof (Reachable_SInv _ _ C Hs Hr) as Hinv.
  destruct (step_keeps C o Hinv Hok) as (_ & H1 & H2 & _).
  split; congruence.
Qed.

(** X18 -- a sharded cache that has just been constructed is empty: its
    size is 0, it has between 1 and 256 shards of between 1 and 2^24
    slots each, no key has a handle, and every handle is refused by
    [Read], [Get], [Erase] and [Write]. *)
Theorem Construct_is_empty (shard_count reserve_hint : Z) :
  0 <= shard_count ->
  let C := Construct key_default value_default shard_count reserve_hint in
  size C = 0 /\
  1 <= shard_count_ C <= 256 /\
  Z.of_nat (length (shards_ C)) = shard_count_ C /\
  1 <= per_shard_capacity_ C <= 2 ^ 24 /\
  (forall i sh, shards_ C !! i = Some sh ->
                Z.of_nat (length (slots sh)) = per_shard_capacity_ C) /\
  (forall k, s_find_handle C k = FdToken.kNull) /\
  (forall h, s_read C h = None /\ Get key_default value_default C h = None) /\
  (forall h, s_erase C h = (false, C)) /\
  (forall h w, s_write C h w = (false, C)).
Proof.
  intros Hs. cbv zeta.
  pose proof (Construct_inv shard_count reserve_hint Hs) as Hinv.
  set (C := Construct key_default value_default shard_count reserve_hint) in *.
  assert (Hfree : forall i sh p s, shards_ C !! i = Some sh ->
            slots sh !! p = Some s -> Single.slot_occupied s = false).
  { intros i sh p s Hi Hp. unfold C, Construct in Hi. cbn [shards_] in Hi.
    apply lookup_replicate in Hi as [-> _]. cbn [slots] in Hp.
    apply lookup_replicate in Hp as [-> _]. reflexivity. }
  assert (Hrd : forall h, s_read C h = None).
  { intros h. destruct (s_read C h) as [v|] eqn:Hr; [|reflexivity].
    apply (Read_Some_iff C h v Hinv) in Hr as (sh & s & _ & Hsh & Hsl & Hocc & _).
    rewrite (Hfree _ sh _ s Hsh Hsl) in Hocc. discriminate. }
  split; [reflexivity|]. split; [apply (sv_count C Hinv)|].
  split; [apply (sv_len C Hinv)|]. split; [apply (sv_cap C Hinv)|].
  split; [intros i sh Hi; apply (sv_shard C Hinv i sh Hi)|].
  split; [|split; [|split]].
  - intros k.
    destruct (FindHandle_cases C k Hinv)
      as (sh & Hsh & [(_ & Hfh)|(local & s & _ & _ & Hsl & Hocc & _)]);
      [exact Hfh|].
    rewrite (Hfree _ sh _ s Hsh Hsl) in Hocc. discriminate.
  - intros h. split; [apply Hrd|apply Hrd].
  - intros h. destruct (Erase_exact C h Hinv) as [(_ & He)|(sh & s & sh2 & _ & _ & _ & _ & _ & _ & Hr & _)];
      [exact He|]. rewrite Hrd in Hr. discriminate.
  - intros h w. rewrite Write_as_Read, Hrd. reflexivity.
Qed.

(** X19 -- round trip through the sharded cache: when [Insert t k v]
    returns a handle [h] that is not null, [FindHandle k] returns [h],
    [h] names the shard that the hash of [k] selects, and [Read h]
    succeeds; if [k] was new, [Read h] yields [v], [h] has type [t] and
    the size has grown by one; if [k] was there, the cache is unchanged
    and [h] is the handle it had. *)
Theorem sharded_insert_round_trip (shard_count reserve_hint : Z) (C C' : SCache)
        (t : Z) (k : Key) (v : Value) (h : Z) :
  0 <= shard_count -> s_reachable shard_count reserve_hint C -> is_u8 t ->
  s_insert C t k v = (h, C') -> h <> FdToken.kNull ->
  s_find_handle C' k = h /\
  fst (DecodePosition h) = ShardForKey hasher C k /\
  (exists v0, s_read C' h = Some v0) /\
  (s_find_handle C k = FdToken.kNull ->
   s_read C' h = Some v /\ FdToken.Type_ h = t /\ size C' = size C + 1) /\
  (s_find_handle C k <> FdToken.kNull -> C' = C /\ h = s_find_handle C k).
Proof.
  intros Hs Hr Ht Hins Hnz.
  destruct (Reachable_SUse _ _ C Hs Hr) as [Hinv Huse].
  destruct (size_range C Hinv Huse) as (Hsz & Hlt & _).
  pose proof (ShardForKey_range C k Hinv) as Hsr.
  pose proof (sv_count C Hinv) as Hcnt.
  destruct (FindHandle_cases C k Hinv)
    as (sh & Hsh & [(Hf & Hfh)|(local & s & Hf & Hl & Hsl & Hocc & Hkey & Hfh)]).
  - unfold Insert in Hins.
    destruct (InsertImpl_absent C t k v false sh Hinv Ht Hsh Hf)
      as [(He & _)|(local & old & sh2 & Hl & Ho & Hocc & He & _ & Hsl2 & Hfk & _ & _ & Hci2)];
      rewrite He in Hins; [congruence|].
    match type of Hins with (?a, ?b) = _ =>
      assert (Hh : a = h) by congruence; assert (HC : b = C') by congruence end.
    clear Hins. rewrite Hh in *.
    assert (Hinv' : SInv C').
    { rewrite <- HC.
      replace (set_shard _ _ _ _) with (s_step C (OpInsert t k v))
        by (cbn [step]; unfold Insert; now rewrite He).
      apply (step_keeps C (OpInsert t k v) Hinv Ht). }
    assert (Hsh' : shards_ C' !! Z.to_nat (ShardForKey hasher C' k) = Some sh2).
    { rewrite <- HC. cbn [set_shard shards_].
      change (ShardForKey hasher (set_shard _ _ _ _) k) with (ShardForKey hasher C k).
      apply list_lookup_insert_eq. eapply lookup_lt_Some; eauto. }
    assert (Hsk : ShardForKey hasher C' k = ShardForKey hasher C k)
      by (rewrite <- HC; reflexivity).
    set (new := Single.mkSlot k v (Single.slot_generation old) t true) in *.
    assert (Hnew : slots sh2 !! Z.to_nat local = Some new).
    { rewrite Hsl2. apply list_lookup_insert_eq. eapply lookup_lt_Some; eauto. }
    destruct (FindHandle_reads C' k sh2 local new Hinv' Hsh' Hl Hnew eq_refl)
      as (HN & HD & HT & HG & HR).
    cbn [new Single.slot_type Single.slot_generation Single.slot_value] in *.
    rewrite Hsk in *. rewrite Hh in *.
    assert (Hfh' : s_find_handle C' k = h).
    { destruct (FindHandle_cases C' k Hinv')
        as (sh' & Hsh2 & [(Hf' & _)|(l' & s' & Hf' & _ & Hsl' & _ & _ & Hfh')]);
        rewrite Hsk in *; rewrite Hsh' in Hsh2; inversion Hsh2; subst sh'.
      - congruence.
      - rewrite Hfk in Hf'. inversion Hf'; subst l'.
        rewrite Hnew in Hsl'. inversion Hsl'; subst s'.
        rewrite Hfh'. exact Hh. }
    split; [exact Hfh'|]. split; [now rewrite HD|]. split; [eauto|].
    split; [|intros Hc; contradiction].
    intros _. split; [exact HR|]. split; [exact HT|].
    rewrite <- HC. unfold size. cbn [set_shard size_].
    apply Z.mod_small. lia.
  - destruct (InsertImpl_present C t k v false sh local Hinv Ht Hsh Hf)
      as (old & _ & Ho & _ & _ & He).
    unfold Insert in Hins. rewrite He in Hins.
    assert (Hh : s_find_handle C k = h) by congruence.
    assert (HC : C = C') by congruence. subst C' h. clear Hins.
    assert (old = s) by congruence. subst old.
    destruct (FindHandle_reads C k sh local s Hinv Hsh Hl Hsl Hocc)
      as (HN & HD & _ & _ & HR).
    rewrite <- Hfh in *.
    split; [reflexivity|]. split; [now rewrite HD|]. split; [eauto|].
    split; [intros Hc; contradiction|auto].
Qed.

(** A change of one slot that keeps the slot's type and generation, and
    the index of its shard, keeps the handle of every key. *)
Lemma FindHandle_payload (C : SCache) (sid : Z) (sh sh2 : ShardT) (sz : Z)
      (q : nat) (s new : SlotT) (k : Key) :
  SInv C -> 0 <= sid -> shards_ C !! Z.to_nat sid = Some sh ->
  slots sh !! q = Some s ->
  slots sh2 = <[q := new]> (slots sh) ->
  key_to_local sh2 = key_to_local sh ->
  Single.slot_type new = Single.slot_type s ->
  Single.slot_generation new = Single.slot_generation s ->
  s_find_handle (set_shard C sid sh2 sz) k = s_find_handle C k.
Proof.
  intros Hinv Hs Hsh Hq Hsl Hidx Hty Hgen.
  pose proof (ShardForKey_range C k Hinv) as Hsr.
  unfold FindHandle.
  change (ShardForKey hasher (set_shard C sid sh2 sz) k)
    with (ShardForKey hasher C k).
  destruct (decide (ShardForKey hasher C k = sid)) as [E|Hd].
  - rewrite E.
    rewrite (shard_at_lookup C sid sh Hsh).
    rewrite (shard_at_lookup (set_shard C sid sh2 sz) sid sh2)
      by (cbn [set_shard shards_]; apply list_lookup_insert_eq;
          eapply lookup_lt_Some; eauto).
    rewrite Hidx.
    destruct (Flat.Find hasher equal_ (key_to_local sh) k) as [local|];
      [|reflexivity].
    unfold slot_of. rewrite Hsl.
    destruct (decide (Z.to_nat local = q)) as [->|Hne].
    + rewrite list_lookup_insert_eq by (eapply lookup_lt_Some; eauto).
      rewrite Hq. cbn [from_option id]. now rewrite Hty, Hgen.
    + now rewrite list_lookup_insert_ne by auto.
  - assert (Hat : s_shard_at (set_shard C sid sh2 sz) (ShardForKey hasher C k)
                  = s_shard_at C (ShardForKey hasher C k)).
    { unfold shard_at, set_shard. cbn [shards_].
      rewrite list_lookup_insert_ne; [reflexivity|lia]. }
    now rewrite Hat.
Qed.

(** X20 -- writing through a handle: [Write h w] succeeds exactly when
    [Read h] does and changes nothing when it fails; after a successful
    write over the value [v0], [Read h] yields [w v0], the size and the
    handle of every key are as before, and a read at any other position
    gives what it gave before. *)
Theorem sharded_write_then_read (shard_count reserve_hint : Z) (C : SCache)
        (h : Z) (w : Value -> Value) :
  0 <= shard_count -> s_reachable shard_count reserve_hint C ->
  (s_read C h = None -> s_write C h w = (false, C)) /\
  (forall v0, s_read C h = Some v0 ->
     exists C', s_write C h w = (true, C') /\
       s_read C' h = Some (w v0) /\
       size C' = size C /\
       (forall k, s_find_handle C' k = s_find_handle C k) /\
       (forall h', DecodePosition h' <> DecodePosition h ->
                   s_read C' h' = s_read C h')).
Proof.
  intros Hs Hr.
  destruct (Reachable_SUse _ _ C Hs Hr) as [Hinv _].
  split; [intros Hn; now rewrite Write_as_Read, Hn|].
  intros v0 Hrd.
  pose proof (step_keeps C (OpWrite h w) Hinv I) as (Hinv' & _).
  cbn [step] in Hinv'. rewrite Write_as_Read, Hrd in *. cbn [snd] in Hinv'.
  apply (Read_Some_iff C h v0 Hinv) in Hrd
    as (sh & s & Hnz & Hsh & Hsl & Hocc & Hty & Hgen & Hval).
  destruct (DecodePosition_range h) as [Hsid Hloc].
  rewrite (shard_at_lookup C _ sh Hsh) in *.
  rewrite (list_alter_as_insert _ _ _ s Hsl) in *.
  set (new := Single.mkSlot (Single.slot_key s) (w (Single.slot_value s))
                            (Single.slot_generation s) (Single.slot_type s)
                            (Single.slot_occupied s)) in *.
  set (sh2 := mkShard _ _ _ _) in *.
  set (C' := set_shard C _ sh2 _) in *.
  exists C'. split; [reflexivity|]. split; [|split; [reflexivity|split]].
  - apply (Read_Some_iff C' h (w v0) Hinv'). exists sh2, new.
    split; [exact Hnz|]. split.
    { unfold C'. cbn [set_shard shards_]. apply list_lookup_insert_eq.
      eapply lookup_lt_Some; eauto. }
    split.
    { unfold sh2. cbn [slots]. apply list_lookup_insert_eq.
      eapply lookup_lt_Some; eauto. }
    unfold new. cbn. rewrite Hval. auto.
  - intros k. unfold C'.
    apply (FindHandle_payload C _ sh sh2 _ (Z.to_nat (snd (DecodePosition h)))
                              s new k Hinv Hsid Hsh Hsl); reflexivity.
  - intros h' Hne. unfold C'. apply Read_set_shard.
    destruct (DecodePosition_range h') as [Hsid' Hloc'].
    apply (slot_of_set_shard C _ sh sh2 _ (Z.to_nat (snd (DecodePosition h)))
                             new _ _ Hsid Hsid' Hsh eq_refl).
    intros E E2. apply Hne.
    rewrite (surjective_pairing (DecodePosition h')),
            (surjective_pairing (DecodePosition h)).
    f_equal; [exact E|lia].
Qed.

(** X21 -- erasing through a handle: [Erase h] is refused, and changes
    nothing, exactly when [Read h] fails; when [Read h] succeeds, [h] is
    the handle of one key, the erase succeeds, the size drops by one, the
    handle is dead, the key has no handle any more, and every other key
    keeps its handle and its value. *)
Theorem sharded_erase (shard_count reserve_hint : Z) (C : SCache) (h : Z) :
  0 <= shard_count -> s_reachable shard_count reserve_hint C -> is_u64 h ->
  (s_read C h = None -> s_erase C h = (false, C)) /\
  (forall v0, s_read C h = Some v0 ->
     exists C' k,
       s_erase C h = (true, C') /\
       s_find_handle C k = h /\
       size C' = size C - 1 /\
       s_read C' h = None /\
       s_find_handle C' k = FdToken.kNull /\
       (forall k', k' <> k ->
          s_find_handle C' k' = s_find_handle C k' /\
          s_read C' (s_find_handle C k') = s_read C (s_find_handle C k'))).
Proof.
  intros Hs Hr Hu.
  destruct (Reachable_SUse _ _ C Hs Hr) as [Hinv Huse].
  pose proof (step_keeps C (OpErase h) Hinv I) as (Hinv' & _).
  cbn [step] in Hinv'.
  destruct (Erase_exact C h Hinv)
    as [(Hrn & He)|(sh & s & sh2 & Hnz & Hsh & Hsl & Hocc & Hty & Hgen & Hrd & He
                    & _ & Hsl2 & Hfn & Hfo & Hsz2 & _)].
  { split; [intros _; exact He|]. intros v0 Hv. congruence. }
  split; [intros Hn; congruence|]. intros v0 _.
  rewrite He in Hinv'. cbn [snd] in Hinv'.
  destruct (DecodePosition_fields h Hnz) as (Hsid & Hloc & Hpos).
  cbv zeta in Hsid, Hloc, Hpos.
  set (sid := fst (DecodePosition h)) in *.
  set (local := snd (DecodePosition h)) in *.
  set (k := Single.slot_key s) in *.
  set (C' := set_shard C sid sh2 _) in *.
  destruct (sv_shard C Hinv _ sh Hsh) as [Hci Hlen].
  assert (Hhome : ShardForKey hasher C k = sid).
  { unfold k. rewrite (su_home C Huse _ sh _ s Hsh Hsl Hocc). lia. }
  assert (Hfind : Flat.Find hasher equal_ (key_to_local sh) k = Some local).
  { pose proof (Single.ci_occ _ _ _ Hci (Z.to_nat local) s Hsl Hocc) as Hf.
    cbn [as_cache Single.key_to_position_] in Hf. unfold k. rewrite Hf.
    f_equal. lia. }
  assert (Hsh' : shards_ C' !! Z.to_nat sid = Some sh2).
  { unfold C'. cbn [set_shard shards_]. apply list_lookup_insert_eq.
    eapply lookup_lt_Some; eauto. }
  assert (Hhome' : ShardForKey hasher C' k = sid) by exact Hhome.
  exists C', k. split; [exact He|]. split; [|split; [|split; [|split]]].
  - destruct (FindHandle_cases C k Hinv)
      as (sh0 & Hsh0 & [(Hf & _)|(l0 & s0 & Hf & _ & Hsl0 & _ & _ & Hfh)]);
      rewrite Hhome in *; rewrite Hsh in Hsh0; inversion Hsh0; subst sh0;
      rewrite Hfind in Hf; [discriminate|].
    inversion Hf; subst l0. rewrite Hsl in Hsl0. inversion Hsl0; subst s0.
    rewrite Hfh, Hty, Hgen. unfold BuildHandle.
    destruct (EncodePosition_value sid local Hsid Hloc) as (-> & _).
    rewrite <- Hpos. now apply Make_of_fields.
  - destruct (size_range C Hinv Huse) as (_ & Hlt & Hle).
    specialize (Hle _ sh Hsh).
    destruct (entries_range C' _ sh2 Hinv' Hsh') as [He2 _].
    unfold entries in *. unfold size, C'. cbn [set_shard size_].
    apply Z.mod_small. lia.
  - destruct (s_read C' h) as [v1|] eqn:Hr1; [|reflexivity].
    apply (Read_Some_iff C' h v1 Hinv') in Hr1
      as (sh1 & s1 & _ & Hsh1 & Hsl1 & Hocc1 & _).
    fold sid in Hsh1. fold local in Hsl1. rewrite Hsh' in Hsh1.
    inversion Hsh1; subst sh1. rewrite Hsl2 in Hsl1.
    rewrite list_lookup_insert_eq in Hsl1 by (eapply lookup_lt_Some; eauto).
    inversion Hsl1; subst s1. discriminate.
  - destruct (FindHandle_cases C' k Hinv')
      as (sh0 & Hsh0 & [(_ & Hfh)|(l0 & s0 & Hf & _)]); [exact Hfh|].
    rewrite Hhome' in Hsh0. rewrite Hsh' in Hsh0. inversion Hsh0; subst sh0.
    congruence.
  - intros k' Hk. unfold C'.
    apply (shard_handles_kept C sid sh sh2 _ (Z.to_nat local) _ k Hinv
             (proj1 Hsid) Hsh Hsl2 Hfo); [|exact Hk].
    intros s0 Hs0 _. assert (Es : s0 = s) by congruence.
    rewrite Es. reflexivity.
Qed.

(** X22 -- the size of a sharded cache is exact and bounded: it is the
    number of occupied slots of all shards together, it never exceeds
    the number of shards times the capacity of a shard, the dimensions
    are those computed by the constructor, and no key is held by two
    slots of the cache. *)
Theorem sharded_size_exact (shard_count reserve_hint : Z) (C : SCache) :
  0 <= shard_count -> s_reachable shard_count reserve_hint C ->
  size C = sum_over (fun sh => Single.count_occupied (slots sh)) (shards_ C) /\
  0 <= size C <= shard_count_ C * per_shard_capacity_ C /\
  shard_count_ C = NormalizeShardCount shard_count /\
  per_shard_capacity_ C =
    ComputePerShardCapacity (NormalizeShardCount shard_count) reserve_hint /\
  Z.of_nat (length (shards_ C)) = shard_count_ C /\
  (forall i sh, shards_ C !! i = Some sh ->
     Z.of_nat (length (slots sh)) = per_shard_capacity_ C) /\
  (forall i j sh sh' p q s s',
     shards_ C !! i = Some sh -> shards_ C !! j = Some sh' ->
     slots sh !! p = Some s -> slots sh' !! q = Some s' ->
     Single.slot_occupied s = true -> Single.slot_occupied s' = true ->
     Single.slot_key s = Single.slot_key s' -> i = j /\ p = q).
Proof.
  intros Hs Hr.
  destruct (Reachable_SUse _ _ C Hs Hr) as [Hinv Huse].
  destruct (Reachable_dims _ _ C Hs Hr) as [Hd1 Hd2].
  destruct (size_range C Hinv Huse) as (Hsz & _ & _).
  split.
  { unfold size. rewrite (su_size C Huse). apply sum_over_ext.
    intros i sh Hi. apply (entries_range C i sh Hinv Hi). }
  split; [exact Hsz|]. split; [exact Hd1|]. split; [exact Hd2|].
  split; [apply (sv_len C Hinv)|].
  split; [intros i sh Hi; apply (sv_shard C Hinv i sh Hi)|].
  intros i j sh sh' p q s s' Hi Hj Hp Hq Ho Ho' Hk.
  pose proof (su_home C Huse i sh p s Hi Hp Ho) as H1.
  pose proof (su_home C Huse j sh' q s' Hj Hq Ho') as H2.
  rewrite Hk in H1. assert (Eij : i = j) by lia. split; [exact Eij|].
  rewrite <- Eij in Hj. assert (Esh : sh' = sh) by congruence.
  rewrite Esh in Hq.
  destruct (sv_shard C Hinv i sh Hi) as [Hci _].
  pose proof (Single.ci_occ _ _ _ Hci p s Hp Ho) as F1.
  pose proof (Single.ci_occ _ _ _ Hci q s' Hq Ho') as F2.
  rewrite Hk in F1. rewrite F1 in F2. inversion F2. lia.
Qed.

(** X23 -- a new key is refused exactly when its own shard is full:
    for a key without a handle, [Insert] returns the null handle if and
    only if every slot of the shard that the key hashes to is occupied,
    whatever room the other shards have; a refused insert changes
    nothing, and in either case every other key keeps its handle and its
    value. *)
Theorem sharded_insert_iff_shard_not_full (shard_count reserve_hint : Z)
        (C : SCache) (t : Z) (k : Key) (v : Value) (sh : ShardT) :
  0 <= shard_count -> s_reachable shard_count reserve_hint C -> is_u8 t ->
  shards_ C !! Z.to_nat (ShardForKey hasher C k) = Some sh ->
  s_find_handle C k = FdToken.kNull ->
  let r := s_insert C t k v in
  (fst r = FdToken.kNull <->
   Single.count_occupied (slots sh) = per_shard_capacity_ C) /\
  (fst r = FdToken.kNull -> snd r = C) /\
  (forall k', k' <> k ->
     s_find_handle (snd r) k' = s_find_handle C k' /\
     s_read (snd r) (s_find_handle C k') = s_read C (s_find_handle C k')).
Proof.
  intros Hs Hr Ht Hsh Hnull. cbv zeta.
  destruct (Reachable_SUse _ _ C Hs Hr) as [Hinv Huse].
  destruct (sv_shard C Hinv _ sh Hsh) as [Hci Hlen].
  pose proof (ShardForKey_range C k Hinv) as Hsr.
  pose proof (sv_count C Hinv) as Hcnt.
  assert (Hf : Flat.Find hasher equal_ (key_to_local sh) k = None).
  { destruct (FindHandle_cases C k Hinv)
      as (sh0 & Hsh0 & [(Hf & _)|(l0 & s0 & _ & Hl0 & Hsl0 & Hocc0 & _ & Hfh)]).
    - congruence.
    - destruct (FindHandle_reads C k sh0 l0 s0 Hinv Hsh0 Hl0 Hsl0 Hocc0)
        as (HN & _). congruence. }
  unfold Insert.
  destruct (InsertImpl_absent C t k v false sh Hinv Ht Hsh Hf)
    as [(He & Hfree & Hnext)|(local & old & sh2 & Hl & Ho & Hocc & He & _ & Hsl2
                              & _ & Hfo & _)];
    rewrite He; cbn [fst snd].
  - split; [|split; [reflexivity|auto]].
    split; [intros _|reflexivity].
    pose proof (Single.exhausted_full _ _ (as_cache sh) Hci
                  (su_free C Huse _ sh Hsh) Hfree Hnext) as Hfull.
    rewrite (Single.ci_count _ _ _ Hci) in Hfull.
    cbn [as_cache Single.slots_] in Hfull. lia.
  - destruct (Single.ci_gen _ _ _ Hci _ old Ho) as [Hg1 Hg2].
    destruct (BuildHandle_fields t (Single.slot_generation old)
                (ShardForKey hasher C k) local Ht (conj Hg1 Hg2)
                ltac:(lia) Hl) as (HN & _).
    pose proof (Single.count_occupied_lt (as_cache sh) _ old Ho Hocc) as Hc.
    cbn [as_cache Single.slots_] in Hc.
    split; [split; [intros E; contradiction|intros E; lia]|].
    split; [intros E; contradiction|].
    intros k' Hk.
    apply (shard_handles_kept C _ sh sh2 _ (Z.to_nat local) _ k Hinv
             (proj1 Hsr) Hsh Hsl2 Hfo); [|exact Hk].
    intros s0 Hs0 Hocc0. assert (Es : s0 = old) by congruence.
    rewrite Es in Hocc0. congruence.
Qed.

(** X24 -- [InsertOrAssign] on a key that is present overwrites in
    place: the handle it returns has the position and the generation of
    the key's old handle and the new type, it is the key's handle from
    then on and reads the new value; the size is unchanged, every other
    key keeps its handle and its value, and the old handle stops being
    valid when the type has changed. *)
Theorem sharded_upsert_in_place (shard_count reserve_hint : Z) (C : SCache)
        (t : Z) (k : Key) (v : Value) :
  0 <= shard_count -> s_reachable shard_count reserve_hint C -> is_u8 t ->
  s_find_handle C k <> FdToken.kNull ->
  let h0 := s_find_handle C k in
  let h := fst (s_insert_or_assign C t k v) in
  let C' := snd (s_insert_or_assign C t k v) in
  h <> FdToken.kNull /\
  DecodePosition h = DecodePosition h0 /\
  FdToken.Generation h = FdToken.Generation h0 /\
  FdToken.Type_ h = t /\
  s_find_handle C' k = h /\
  s_read C' h = Some v /\
  size C' = size C /\
  (FdToken.Type_ h0 <> t -> s_read C' h0 = None) /\
  (forall k', k' <> k ->
     s_find_handle C' k' = s_find_handle C k' /\
     s_read C' (s_find_handle C k') = s_read C (s_find_handle C k')).
Proof.
  intros Hs Hr Ht Hnn. cbv zeta.
  destruct (Reachable_SUse _ _ C Hs Hr) as [Hinv _].
  pose proof (ShardForKey_range C k Hinv) as Hsr.
  pose proof (step_keeps C (OpInsertOrAssign t k v) Hinv Ht) as (Hinv' & _).
  cbn [step] in Hinv'.
  destruct (FindHandle_cases C k Hinv)
    as (sh & Hsh & [(_ & Hfh)|(local & s & Hf & Hl & Hsl & Hocc & Hkey & Hfh)]);
    [contradiction|].
  destruct (InsertImpl_present C t k v true sh local Hinv Ht Hsh Hf)
    as (old & _ & Ho & _ & _ & He).
  assert (Eo : old = s) by congruence. rewrite Eo in He. clear Eo Ho old.
  unfold InsertOrAssign in *. rewrite He in *. cbn [fst snd] in *.
  set (new := Single.mkSlot k v (Single.slot_generation s) t true) in *.
  set (sh2 := mkShard _ _ _ _) in *.
  set (sid := ShardForKey hasher C k) in *.
  set (C' := set_shard C sid sh2 (size_ C)) in *.
  assert (Hsh' : shards_ C' !! Z.to_nat (ShardForKey hasher C' k) = Some sh2).
  { unfold C'. cbn [set_shard shards_]. apply list_lookup_insert_eq.
    eapply lookup_lt_Some; eauto. }
  assert (Hnew : slots sh2 !! Z.to_nat local = Some new).
  { unfold sh2. cbn [slots]. apply list_lookup_insert_eq.
    eapply lookup_lt_Some; eauto. }
  destruct (FindHandle_reads C' k sh2 local new Hinv' Hsh' Hl Hnew eq_refl)
    as (HN & HD & HT & HG & HR).
  destruct (FindHandle_reads C k sh local s Hinv Hsh Hl Hsl Hocc)
    as (_ & HD0 & HT0 & HG0 & _).
  cbn [new Single.slot_type Single.slot_generation Single.slot_value] in *.
  change (ShardForKey hasher C' k) with sid in HN, HD, HT, HG, HR, Hsh'.
  change (ShardForKey hasher C k) with sid in HD0, HT0, HG0.
  rewrite <- Hfh in HD0, HT0, HG0.
  split; [exact HN|]. split; [congruence|]. split; [congruence|].
  split; [exact HT|]. split; [|split; [exact HR|split; [reflexivity|split]]].
  - destruct (FindHandle_cases C' k Hinv')
      as (sh0 & Hsh0 & [(Hf0 & _)|(l0 & s0 & Hf0 & _ & Hsl0 & _ & _ & Hfh0)]);
      change (ShardForKey hasher C' k) with sid in *;
      rewrite Hsh' in Hsh0; inversion Hsh0 as [E0]; rewrite <- E0 in *;
      change (key_to_local sh2) with (key_to_local sh) in Hf0;
      rewrite Hf in Hf0; [discriminate|].
    inversion Hf0 as [El]. rewrite <- El in *.
    rewrite Hnew in Hsl0. inversion Hsl0 as [Es]. rewrite <- Es in Hfh0.
    exact Hfh0.
  - intros Hty. destruct (s_read C' (s_find_handle C k)) as [v1|] eqn:Hr1;
      [|reflexivity].
    apply (Read_Some_iff C' _ v1 Hinv') in Hr1
      as (sh1 & s1 & _ & Hsh1 & Hsl1 & _ & Hty1 & _).
    rewrite HD0 in Hsh1, Hsl1. cbn [fst snd] in Hsh1, Hsl1.
    rewrite Hsh' in Hsh1. inversion Hsh1 as [E1]. rewrite <- E1 in Hsl1.
    rewrite Hnew in Hsl1. inversion Hsl1 as [E2]. rewrite <- E2 in Hty1.
    cbn in Hty1. congruence.
  - intros k' Hk. unfold C'.
    apply (shard_handles_kept C sid sh sh2 _ (Z.to_nat local) new k Hinv
             (proj1 Hsr) Hsh eq_refl); [reflexivity| |exact Hk].
    intros s0 Hs0 _. assert (Es : s0 = s) by congruence. now rewrite Es.
Qed.

(** A handle that reads is the handle of the key in its slot. *)
Lemma Read_is_FindHandle (C : SCache) (h : Z) (v : Value) :
  SInv C -> SUse C -> is_u64 h -> s_read C h = Some v ->
  exists k, s_find_handle C k = h.
Proof.
  intros Hinv Huse Hu Hrd.
  apply (Read_Some_iff C h v Hinv) in Hrd
    as (sh & s & Hnz & Hsh & Hsl & Hocc & Hty & Hgen & _).
  destruct (DecodePosition_fields h Hnz) as (Hsid & Hloc & Hpos).
  cbv zeta in Hsid, Hloc, Hpos.
  destruct (sv_shard C Hinv _ sh Hsh) as [Hci _].
  pose proof (su_home C Huse _ sh _ s Hsh Hsl Hocc) as Hhome.
  rewrite Z2Nat.id in Hhome by lia.
  pose proof (Single.ci_occ _ _ _ Hci _ s Hsl Hocc) as Hfind.
  cbn [as_cache Single.key_to_position_] in Hfind.
  rewrite Z2Nat.id in Hfind by lia.
  exists (Single.slot_key s).
  destruct (FindHandle_cases C (Single.slot_key s) Hinv)
    as (sh0 & Hsh0 & [(Hf & _)|(l0 & s0 & Hf & _ & Hsl0 & _ & _ & Hfh)]);
    rewrite Hhome in *; rewrite Hsh in Hsh0; inversion Hsh0 as [E0];
    rewrite <- E0 in *; rewrite Hfind in Hf; [discriminate|].
  assert (El : l0 = snd (DecodePosition h)) by congruence.
  rewrite El in Hsl0, Hfh. assert (Es : s0 = s) by congruence.
  rewrite Es in Hfh.
  rewrite Hfh, Hty, Hgen. unfold BuildHandle.
  destruct (EncodePosition_value _ _ Hsid Hloc) as (-> & _).
  rewrite <- Hpos. now apply Make_of_fields.
Qed.

(** X25 -- the handles that read are the handles of the keys: [Read h]
    succeeds exactly when [h] is what [FindHandle] returns for some key
    of the cache; the handle of a key names the shard of the key's hash,
    and two keys never have the same handle. *)
Theorem sharded_valid_handle_is_current (shard_count reserve_hint : Z)
        (C : SCache) (h : Z) :
  0 <= shard_count -> s_reachable shard_count reserve_hint C -> is_u64 h ->
  (s_read C h <> None <->
   h <> FdToken.kNull /\ exists k, s_find_handle C k = h) /\
  (forall k, s_find_handle C k <> FdToken.kNull ->
     fst (DecodePosition (s_find_handle C k)) = ShardForKey hasher C k /\
     s_read C (s_find_handle C k) <> None) /\
  (forall k1 k2, s_find_handle C k1 <> FdToken.kNull ->
     s_find_handle C k1 = s_find_handle C k2 -> k1 = k2).
Proof.
  intros Hs Hr Hu.
  destruct (Reachable_SUse _ _ C Hs Hr) as [Hinv Huse].
  assert (Hcur : forall k, s_find_handle C k <> FdToken.kNull ->
            exists sh local s,
              shards_ C !! Z.to_nat (ShardForKey hasher C k) = Some sh /\
              0 <= local /\
              slots sh !! Z.to_nat local = Some s /\ Single.slot_key s = k /\
              DecodePosition (s_find_handle C k)
              = (ShardForKey hasher C k, local) /\
              s_read C (s_find_handle C k) = Some (Single.slot_value s)).
  { intros k Hk.
    destruct (FindHandle_cases C k Hinv)
      as (sh & Hsh & [(_ & Hfh)|(local & s & _ & Hl & Hsl & Hocc & Hkey & Hfh)]);
      [contradiction|].
    destruct (FindHandle_reads C k sh local s Hinv Hsh Hl Hsl Hocc)
      as (_ & HD & _ & _ & HR).
    rewrite <- Hfh in HD, HR. exists sh, local, s.
    split; [exact Hsh|]. split; [lia|]. auto. }
  split; [split|split].
  - intros Hrd. destruct (s_read C h) as [v|] eqn:E; [|contradiction].
    split; [|apply (Read_is_FindHandle C h v Hinv Huse Hu E)].
    intros ->. rewrite (Read_null C Hinv) in E. discriminate.
  - intros (Hnz & k & Hk). rewrite <- Hk in Hnz |- *.
    destruct (Hcur k Hnz) as (sh & local & s & _ & _ & _ & _ & _ & HR).
    rewrite HR. discriminate.
  - intros k Hk.
    destruct (Hcur k Hk) as (sh & local & s & _ & _ & _ & _ & HD & HR).
    rewrite HD, HR. split; [reflexivity|discriminate].
  - intros k1 k2 Hk1 E.
    assert (Hk2 : s_find_handle C k2 <> FdToken.kNull) by congruence.
    destruct (Hcur k1 Hk1) as (sh1 & l1 & s1 & Hsh1 & Hl1 & Hsl1 & Hkey1 & HD1 & _).
    destruct (Hcur k2 Hk2) as (sh2 & l2 & s2 & Hsh2 & Hl2 & Hsl2 & Hkey2 & HD2 & _).
    rewrite E, HD2 in HD1. inversion HD1 as [[E1 E2]].
    rewrite <- E1 in Hsh1. rewrite <- E2 in Hsl1.
    assert (Esh : sh1 = sh2) by congruence. rewrite Esh in Hsl1.
    assert (Es : s1 = s2) by congruence. congruence.
Qed.

(** *** Stale handles *)

(** Whether the call [o], made in state [C], is an [Erase] that
    succeeds on the slot whose position field is [p]. *)
Definition erases_slot (p : Z) (C : SCache) (o : Op Key Value) : bool :=
  match o with
  | OpErase h => fst (s_erase C h) && (FdToken.Position h =? p)
  | _ => false
  end.

(** Number of successful erasures of the slot at position [p] among
    the calls [ops], made one after another from state [C]. *)
Fixpoint slot_erasures (p : Z) (C : SCache) (ops : list (Op Key Value)) : Z :=
  match ops with
  | [] => 0
  | o :: ops' =>
    (if erases_slot p C o then 1 else 0) + slot_erasures p (s_step C o) ops'
  end.




End ShardedTheory.

End Sharded.

(** ** Stale handles, in both caches *)


(** ** The rollback of an insertion, in both caches *)


(** ** The properties at integral keys and values *)

(** Each property above holds of the caches instantiated at [Z] keys
    and values with the identity hash, on the traces below. *)

Lemma insert_round_trip_witness :
  let c := Single.i_reserve 4 in
  let h := fst (Single.i_insert c 1 10 100) in
  let c' := snd (Single.i_insert c 1 10 100) in
  Single.i_find_handle c' 10 = h /\
  (exists v0, Single.i_get c' h = Some v0) /\
  (Single.i_find_handle c 10 = FdToken.kNull -> Single.i_get c' h = Some 100) /\
  (Single.i_find_handle c 10 <> FdToken.kNull -> c' = c /\ Single.i_get c' h = Single.i_get c h).
Proof.
  cbv zeta.
  refine (Single.insert_round_trip 0 0 Flat.int_hash Flat.int_equal Flat.int_equal_spec
            4 (Single.i_reserve 4) _ 1 10 100 _ _ _ _ _ _).
  - lia.
  - constructor.
  - exact Single.is_u8_1.
  - apply surjective_pairing.
  - vm_compute. discriminate.
Defined.

Lemma insert_idempotent_upsert_in_place_witness :
  let c := snd (Single.i_insert (Single.i_reserve 4) 1 10 100) in
  Single.i_insert c 2 10 200 = (Single.i_find_handle c 10, c) /\
  (forall h, Single.i_get (snd (Single.i_insert c 2 10 200)) h = Single.i_get c h) /\
  let h' := fst (Single.i_insert_or_assign c 2 10 200) in
  let c' := snd (Single.i_insert_or_assign c 2 10 200) in
  FdToken.Position h' = FdToken.Position (Single.i_find_handle c 10) /\
  FdToken.Generation h' = FdToken.Generation (Single.i_find_handle c 10) /\
  FdToken.Type_ h' = 2 /\
  Single.i_get c' h' = Some 200 /\
  Single.i_find_handle c' 10 = h' /\
  (exists old,
      Single.slots_ c !! Z.to_nat (FdToken.Position h') = Some old /\
      Single.slots_ c' =
        <[Z.to_nat (FdToken.Position h') :=
            Single.mkSlot (Single.slot_key old) 200 (Single.slot_generation old) 2 (Single.slot_occupied old)]>
          (Single.slots_ c)) /\
  Single.free_positions_ c' = Single.free_positions_ c /\
  Single.key_to_position_ c' = Single.key_to_position_ c /\
  Single.next_unused_ c' = Single.next_unused_ c /\
  Single.size c' = Single.size c.
Proof.
  cbv zeta.
  refine (Single.insert_idempotent_upsert_in_place
            0 0 Flat.int_hash Flat.int_equal Flat.int_equal_spec
            4 (snd (Single.i_insert (Single.i_reserve 4) 1 10 100)) 2 10 200 _ _ _ _).
  - lia.
  - apply Single.i_reachable_insert; [exact Single.is_u8_1|constructor].
  - unfold is_u8. lia.
  - vm_compute. discriminate.
Defined.

Lemma bounded_capacity_witness :
  let c := snd (Single.i_insert (Single.i_reserve 1) 1 10 100) in
  0 <= Single.size c <= Single.capacity 1 /\
  Single.size c = Single.count_occupied (Single.slots_ c) /\
  (Single.size c = Single.capacity 1 ->
   forall t k v, Single.i_find_handle c k = FdToken.kNull ->
                 Single.i_insert c t k v = (FdToken.kNull, c)).
Proof.
  cbv zeta.
  refine (Single.bounded_capacity 0 0 Flat.int_hash Flat.int_equal Flat.int_equal_spec
            1 (snd (Single.i_insert (Single.i_reserve 1) 1 10 100)) _ _).
  - lia.
  - apply Single.i_reachable_insert; [exact Single.is_u8_1|constructor].
Defined.

Lemma generation_lifecycle_witness :
  ((forall i s, Single.slots_ (Single.i_reserve 4) !! i = Some s ->
               Single.slot_generation s = 1) /\
  forall c, Single.i_reachable 4 c ->
    (forall h, Single.i_get c h <> None ->
       exists c' s s',
         Single.i_erase c h = (true, c') /\
         Single.slots_ c !! Z.to_nat (FdToken.Position h) = Some s /\
         Single.slot_generation s = FdToken.Generation h /\
         Single.slots_ c' !! Z.to_nat (FdToken.Position h) = Some s' /\
         Single.slot_generation s' =
           (if FdToken.Generation h =? 2 ^ 24 - 1 then 1
            else FdToken.Generation h + 1)) /\
    (forall h, Single.i_get c h = None -> Single.i_erase c h = (false, c)) /\
    (forall h c', Single.i_erase c h = (true, c') ->
       exists s s',
         Single.slots_ c !! Z.to_nat (FdToken.Position h) = Some s /\
         Single.slots_ c' !! Z.to_nat (FdToken.Position h) = Some s' /\
         Single.slot_generation s' =
           (if Single.slot_generation s =? 2 ^ 24 - 1 then 1
            else Single.slot_generation s + 1) /\
         forall i, i <> Z.to_nat (FdToken.Position h) ->
                   Single.slots_ c' !! i = Single.slots_ c !! i) /\
    (forall t k v i s, is_u8 t -> Single.slots_ c !! i = Some s ->
       exists s', Single.slots_ (snd (Single.i_insert c t k v)) !! i = Some s' /\
                  Single.slot_generation s' = Single.slot_generation s) /\
    (forall i s, Single.slots_ c !! i = Some s ->
                 1 <= Single.slot_generation s <= 2 ^ 24 - 1) /\
    (forall t k v, is_u8 t ->
       let h := fst (Single.i_insert c t k v) in
       h = FdToken.kNull \/ 1 <= FdToken.Generation h <= 2 ^ 24 - 1) /\
    (forall t k v, is_u8 t ->
       let h := fst (Single.i_insert_or_assign c t k v) in
       h = FdToken.kNull \/ 1 <= FdToken.Generation h <= 2 ^ 24 - 1) /\
    (forall k,
       let h := Single.i_find_handle c k in
       h = FdToken.kNull \/ 1 <= FdToken.Generation h <= 2 ^ 24 - 1)) /\
  (let c := snd (Single.i_insert (Single.i_reserve 4) 1 10 100) in
   let h := fst (Single.i_insert (Single.i_reserve 4) 1 10 100) in
   exists c' s s',
     Single.i_erase c h = (true, c') /\
     Single.slots_ c !! 0%nat = Some s /\ Single.slot_generation s = 1 /\
     Single.slots_ c' !! 0%nat = Some s' /\ Single.slot_generation s' = 2).
Proof.
  pose proof (Single.generation_lifecycle 0 0 Flat.int_hash Flat.int_equal
                Flat.int_equal_spec 4 ltac:(lia)) as H.
  split; [exact H|]. cbv zeta. destruct H as [_ H].
  destruct (H (snd (Single.i_insert (Single.i_reserve 4) 1 10 100))
              ltac:(apply Single.i_reachable_insert;
                    [exact Single.is_u8_1|constructor])) as (He & _).
  destruct (He (fst (Single.i_insert (Single.i_reserve 4) 1 10 100))
               ltac:(vm_compute; discriminate))
    as (c' & s & s' & E1 & E2 & E3 & E4 & E5).
  assert (EP : Z.to_nat (FdToken.Position
                 (fst (Single.i_insert (Single.i_reserve 4) 1 10 100))) = 0%nat)
    by (vm_compute; reflexivity).
  assert (EG : FdToken.Generation
                 (fst (Single.i_insert (Single.i_reserve 4) 1 10 100)) = 1)
    by (vm_compute; reflexivity).
  rewrite EP in E2, E4. rewrite EG in E3, E5.
  exists c', s, s'. split; [exact E1|]. split; [exact E2|]. split; [exact E3|].
  split; [exact E4|exact E5].
Defined.

(** A state in which the index is at its logical capacity while a slot
    is free: one key stored in a store of two slots over an index of
    logical capacity 1. *)
Definition index_full_slot_free : Single.FdKVCache Z Z :=
  Single.mkCache [Single.mkSlot 1 11 1 5 true; Single.Slot0 0 0] []
          (snd (Flat.Insert Flat.int_hash Flat.int_equal (Flat.Init 0 1) 1 0))
          1 1.



(** In that state [Insert 3 2 22] takes the rollback path: key 2 is not
    in the index, position 1 is taken from the cursor, and the index
    refuses the key. *)
Lemma index_full_slot_free_rollback :
  let c := index_full_slot_free in
  Flat.Find Flat.int_hash Flat.int_equal (Single.key_to_position_ c) 2 = None /\
  Single.AllocatePosition c =
    (1, Single.mkCache (Single.slots_ c) [] (Single.key_to_position_ c) 2 1) /\
  fst (Flat.Insert Flat.int_hash Flat.int_equal (Single.key_to_position_ c) 2 1)
    = false /\
  fst (Single.i_insert c 3 2 22) = FdToken.kNull /\
  Single.free_positions_ (snd (Single.i_insert c 3 2 22)) = [1].
Proof. vm_compute. repeat split. Qed.



(** The sharded cache at integral keys and values. *)
Definition s_construct (shard_count reserve_hint : Z) : Sharded.ShardedFdKVCache Z Z :=
  Sharded.Construct 0 0 shard_count reserve_hint.
Definition s_insert := Sharded.Insert 0 0 Flat.int_hash Flat.int_equal.
Definition s_erase := Sharded.Erase 0 0 Flat.int_hash Flat.int_equal.
Definition s_reachable := Sharded.Reachable 0 0 Flat.int_hash Flat.int_equal.

Lemma s_reachable_insert (sc hint : Z) (C : Sharded.ShardedFdKVCache Z Z) (t k v : Z) :
  is_u8 t -> s_reachable sc hint C -> s_reachable sc hint (snd (s_insert C t k v)).
Proof.
  intros Ht Hr.
  exact (Sharded.R_step 0 0 Flat.int_hash Flat.int_equal sc hint C
                        (Sharded.OpInsert t k v) Hr Ht).
Qed.



(** ** [NextPowerOfTwo] over the whole range of [std::size_t] *)

(** X2 -- [NextPowerOfTwo n] is 1 for [n <= 1]; for [1 <= n <= 2^63]
    it is the least power of two that is no less than [n]; above
    [2^63] the result does not fit in a [std::size_t] and the function
    returns 0. *)
Theorem NextPowerOfTwo_least_or_zero :
  (forall n, n <= 1 -> NextPowerOfTwo n = 1) /\
  (forall n, 1 <= n <= 2 ^ 63 ->
     exists k, 0 <= k <= 63 /\ NextPowerOfTwo n = 2 ^ k /\
               n <= 2 ^ k /\ 2 ^ k < 2 * n) /\
  (forall n, 2 ^ 63 < n < 2 ^ 64 -> NextPowerOfTwo n = 0).
Proof.
  split; [|split].
  - intros n Hn. unfold NextPowerOfTwo.
    destruct (Z.leb_spec n 1); [reflexivity|lia].
  - exact Flat.NextPowerOfTwo_bounds.
  - intros n Hn. unfold NextPowerOfTwo.
    destruct (Z.leb_spec n 1) as [Hle|Hgt]; [lia|].
    assert (Hw : wrap64 (n - 1) = n - 1) by (apply Z.mod_small; lia).
    rewrite Hw. cbv zeta. rewrite (Flat.smear_ones (n - 1)) by lia.
    assert (Hlog : Z.log2 (n - 1) = 63).
    { apply Z.log2_unique; lia. }
    rewrite Hlog. reflexivity.
Qed.

(** ** The further properties at integral keys and values *)

(** *** The index *)

Definition f_init (n : Z) : Flat.FlatIndexMap Z := Flat.Init 0 n.
Definition f_insert := Flat.Insert Flat.int_hash Flat.int_equal.
Definition f_erase := Flat.Erase Flat.int_hash Flat.int_equal.
Definition f_find := Flat.Find Flat.int_hash Flat.int_equal.
Definition f_reachable := Flat.FReachable 0 Flat.int_hash Flat.int_equal.

(** An index for two keys that holds key 5. *)
Definition f_one : Flat.FlatIndexMap Z := snd (f_insert (f_init 2) 5 50).

Lemma f_one_reachable : f_reachable 2 f_one.
Proof. apply Flat.FR_insert, Flat.FR_init. Qed.

Lemma Init_is_empty_witness :
  let m := f_init 4 in
  let buckets := Z.of_nat (length (Flat.table_ m)) in
  Flat.max_entries_ m = Z.max 1 4 /\
  Flat.size_ m = 0 /\
  Flat.tombstones_ m = 0 /\
  (exists k, 0 <= k /\ buckets = 2 ^ k) /\
  2 * Z.max 1 4 <= buckets < 4 * Z.max 1 4 /\
  Flat.mask_ m = buckets - 1 /\
  (forall i e, Flat.table_ m !! i = Some e -> Flat.e_state e = kEmpty) /\
  (forall k, f_find m k = None) /\
  (forall k, f_erase m k = (false, m)).
Proof.
  refine (Flat.Init_is_empty 0 Flat.int_hash Flat.int_equal Flat.int_equal_spec
            4 _).
  lia.
Defined.

Lemma Insert_then_Find_witness :
  let r := f_insert f_one 7 70 in
  (fst r = true <-> f_find f_one 7 <> None \/
                    Flat.size_ f_one < Flat.max_entries_ f_one) /\
  (fst r = true -> f_find (snd r) 7 = Some 70) /\
  (forall k', k' <> 7 -> f_find (snd r) k' = f_find f_one k') /\
  (fst r = true -> f_find f_one 7 = None ->
   Flat.size_ (snd r) = Flat.size_ f_one + 1) /\
  (f_find f_one 7 <> None -> Flat.size_ (snd r) = Flat.size_ f_one) /\
  (fst r = false -> snd r = f_one).
Proof.
  refine (Flat.Insert_then_Find 0 Flat.int_hash Flat.int_equal
            Flat.int_equal_spec 2 f_one 7 70 _ _).
  - lia.
  - exact f_one_reachable.
Defined.

Lemma Erase_then_Find_witness :
  let r := f_erase f_one 5 in
  (fst r = true <-> f_find f_one 5 <> None) /\
  f_find (snd r) 5 = None /\
  (forall k', k' <> 5 -> f_find (snd r) k' = f_find f_one k') /\
  (fst r = true ->
   Flat.size_ (snd r) = Flat.size_ f_one - 1 /\
   Flat.tombstones_ (snd r) = Flat.tombstones_ f_one + 1) /\
  (fst r = false -> snd r = f_one).
Proof.
  refine (Flat.Erase_then_Find 0 Flat.int_hash Flat.int_equal
            Flat.int_equal_spec 2 f_one 5 _ _).
  - lia.
  - exact f_one_reachable.
Defined.

Lemma index_counters_exact_witness :
  Flat.size_ f_one = Flat.count_state kOccupied (Flat.table_ f_one) /\
  Flat.tombstones_ f_one = Flat.count_state kDeleted (Flat.table_ f_one) /\
  0 <= Flat.size_ f_one <= Flat.max_entries_ f_one /\
  Flat.size_ f_one + Flat.tombstones_ f_one
    <= Z.of_nat (length (Flat.table_ f_one)) /\
  Flat.max_entries_ f_one = Z.max 1 2 /\
  length (Flat.table_ f_one) = length (Flat.table_ (f_init 2)) /\
  Flat.mask_ f_one = Flat.mask_ (f_init 2).
Proof.
  refine (Flat.index_counters_exact 0 Flat.int_hash Flat.int_equal
            Flat.int_equal_spec 2 f_one _ _).
  - lia.
  - exact f_one_reachable.
Defined.

Lemma no_key_stored_twice_witness :
  (forall k v,
     f_find f_one k = Some v <->
     exists i e, Flat.table_ f_one !! i = Some e /\
                 Flat.e_state e = kOccupied /\
                 Flat.e_key e = k /\ Flat.e_value e = v) /\
  (forall i j e e',
     Flat.table_ f_one !! i = Some e -> Flat.table_ f_one !! j = Some e' ->
     Flat.e_state e = kOccupied -> Flat.e_state e' = kOccupied ->
     Flat.e_key e = Flat.e_key e' -> i = j).
Proof.
  refine (Flat.no_key_stored_twice 0 Flat.int_hash Flat.int_equal
            Flat.int_equal_spec 2 f_one _ _).
  - lia.
  - exact f_one_reachable.
Defined.

(** *** The single-owner cache *)

(** A cache of four slots that holds key 10, and the handle of that
    key. *)
Definition i_one : Single.FdKVCache Z Z :=
  snd (Single.i_insert (Single.i_reserve 4) 1 10 100).
Definition i_one_handle : Z :=
  fst (Single.i_insert (Single.i_reserve 4) 1 10 100).

Lemma i_one_reachable : Single.i_reachable 4 i_one.
Proof. apply Single.i_reachable_insert; [exact Single.is_u8_1|constructor]. Qed.

Lemma i_one_handle_u64 : is_u64 i_one_handle.
Proof. vm_compute. split; [discriminate|reflexivity]. Qed.

Lemma Reserve_is_empty_witness :
  let c := Single.i_reserve 4 in
  Single.size c = 0 /\
  Single.empty c = true /\
  Z.of_nat (length (Single.slots_ c)) = Z.max 1 4 /\
  (forall k, Single.i_find_handle c k = FdToken.kNull) /\
  (forall h, Single.i_get c h = None) /\
  (forall h, Single.i_erase c h = (false, c)) /\
  (forall h v, Single.StoreValue 0 0 c h v = c).
Proof.
  refine (Single.Reserve_is_empty 0 0 Flat.int_hash Flat.int_equal
            Flat.int_equal_spec 4 _).
  lia.
Defined.

Lemma valid_handle_is_current_witness :
  (Single.i_get i_one i_one_handle <> None <->
   i_one_handle <> FdToken.kNull /\
   exists k, Single.i_find_handle i_one k = i_one_handle) /\
  (forall v, Single.i_get i_one i_one_handle = Some v ->
     exists s,
       Single.slots_ i_one !! Z.to_nat (FdToken.Position i_one_handle) = Some s /\
       Single.slot_value s = v /\
       Single.i_find_handle i_one (Single.slot_key s) = i_one_handle).
Proof.
  refine (Single.valid_handle_is_current 0 0 Flat.int_hash Flat.int_equal
            Flat.int_equal_spec 4 i_one i_one_handle _ _ _).
  - lia.
  - exact i_one_reachable.
  - exact i_one_handle_u64.
Defined.

Lemma Erase_iff_valid_witness :
  let r := Single.i_erase i_one i_one_handle in
  (fst r = true <-> Single.i_get i_one i_one_handle <> None) /\
  (fst r = false -> snd r = i_one) /\
  (fst r = true ->
   Single.size (snd r) = Single.size i_one - 1 /\
   exists k,
     Single.i_find_handle i_one k = i_one_handle /\
     Single.i_find_handle (snd r) k = FdToken.kNull /\
     forall k', k' <> k ->
       Single.i_find_handle (snd r) k' = Single.i_find_handle i_one k' /\
       Single.i_get (snd r) (Single.i_find_handle i_one k')
       = Single.i_get i_one (Single.i_find_handle i_one k')).
Proof.
  refine (Single.Erase_iff_valid 0 0 Flat.int_hash Flat.int_equal
            Flat.int_equal_spec 4 i_one i_one_handle _ _ _).
  - lia.
  - exact i_one_reachable.
  - exact i_one_handle_u64.
Defined.

Lemma Insert_iff_not_full_witness :
  let r := Single.i_insert i_one 2 11 110 in
  (fst r <> FdToken.kNull <-> Single.size i_one < Single.capacity 4) /\
  (fst r <> FdToken.kNull ->
   Single.size (snd r) = Single.size i_one + 1 /\ FdToken.Type_ (fst r) = 2) /\
  (fst r = FdToken.kNull -> snd r = i_one) /\
  (forall k', k' <> 11 ->
     Single.i_find_handle (snd r) k' = Single.i_find_handle i_one k' /\
     Single.i_get (snd r) (Single.i_find_handle i_one k')
     = Single.i_get i_one (Single.i_find_handle i_one k')).
Proof.
  refine (Single.Insert_iff_not_full 0 0 Flat.int_hash Flat.int_equal
            Flat.int_equal_spec 4 i_one 2 11 110 _ _ _ _).
  - lia.
  - exact i_one_reachable.
  - unfold is_u8. lia.
  - vm_compute. reflexivity.
Defined.

Lemma Insert_reuses_erased_slot_witness :
  let c1 := snd (Single.i_erase i_one i_one_handle) in
  let h2 := fst (Single.i_insert c1 2 11 110) in
  h2 <> FdToken.kNull /\
  FdToken.Position h2 = FdToken.Position i_one_handle /\
  FdToken.Generation h2 = NextGeneration (FdToken.Generation i_one_handle) /\
  FdToken.Type_ h2 = 2 /\
  h2 <> i_one_handle /\
  Single.i_get (snd (Single.i_insert c1 2 11 110)) h2 = Some 110.
Proof.
  refine (Single.Insert_reuses_erased_slot 0 0 Flat.int_hash Flat.int_equal
            Flat.int_equal_spec 4 i_one
            (snd (Single.i_erase i_one i_one_handle)) i_one_handle 2 11 110
            _ _ _ _ _).
  - lia.
  - exact i_one_reachable.
  - unfold is_u8. lia.
  - vm_compute. reflexivity.
  - vm_compute. reflexivity.
Defined.

Lemma distinct_keys_distinct_slots_witness :
  let c := snd (Single.i_insert i_one 2 11 110) in
  FdToken.Position (Single.i_find_handle c 10)
  <> FdToken.Position (Single.i_find_handle c 11).
Proof.
  refine (Single.distinct_keys_distinct_slots 0 0 Flat.int_hash Flat.int_equal
            Flat.int_equal_spec 4 (snd (Single.i_insert i_one 2 11 110)) 10 11
            _ _ _ _ _).
  - lia.
  - apply Single.i_reachable_insert; [unfold is_u8; lia|exact i_one_reachable].
  - vm_compute. discriminate.
  - vm_compute. discriminate.
  - discriminate.
Defined.

Lemma Store_then_Get_witness :
  let c' := Single.StoreValue 0 0 i_one i_one_handle 7 in
  (Single.i_get i_one i_one_handle = None -> c' = i_one) /\
  (Single.i_get i_one i_one_handle <> None ->
   Single.i_get c' i_one_handle = Some 7) /\
  (forall h', FdToken.Position h' <> FdToken.Position i_one_handle ->
              Single.i_get c' h' = Single.i_get i_one h') /\
  (forall k, Single.i_find_handle c' k = Single.i_find_handle i_one k) /\
  Single.size c' = Single.size i_one.
Proof.
  refine (Single.Store_then_Get 0 0 Flat.int_hash Flat.int_equal
            Flat.int_equal_spec 4 i_one i_one_handle 7 _ _).
  - lia.
  - exact i_one_reachable.
Defined.

Lemma empty_iff_no_key_witness :
  (Single.empty i_one = true <->
   forall k, Single.i_find_handle i_one k = FdToken.kNull) /\
  (Single.empty i_one = true <-> forall h, Single.i_get i_one h = None).
Proof.
  refine (Single.empty_iff_no_key 0 0 Flat.int_hash Flat.int_equal
            Flat.int_equal_spec 4 i_one _ _).
  - lia.
  - exact i_one_reachable.
Defined.

Lemma free_list_exact_witness :
  let c := snd (Single.i_erase i_one i_one_handle) in
  (forall i s, Single.slots_ c !! i = Some s ->
     Single.slot_occupied s = false <->
     Single.next_unused_ c <= Z.of_nat i \/
     Z.of_nat i ∈ Single.free_positions_ c) /\
  NoDup (Single.free_positions_ c) /\
  (forall p, p ∈ Single.free_positions_ c -> 0 <= p < Single.next_unused_ c) /\
  0 <= Single.next_unused_ c <= Single.capacity 4.
Proof.
  refine (Single.free_list_exact 0 0 Flat.int_hash Flat.int_equal
            Flat.int_equal_spec 4 (snd (Single.i_erase i_one i_one_handle)) _ _).
  - lia.
  - apply Single.i_reachable_erase. exact i_one_reachable.
Defined.

(** *** The sharded cache *)

Definition s_read (C : Sharded.ShardedFdKVCache Z Z) (h : Z) : option Z :=
  Sharded.Read 0 0 C h.
Definition s_write := Sharded.Write (Key:=Z) 0 0.
Definition s_find_handle := Sharded.FindHandle 0 0 Flat.int_hash Flat.int_equal.
Definition s_insert_or_assign :=
  Sharded.InsertOrAssign 0 0 Flat.int_hash Flat.int_equal.

(** A cache of two shards of four slots that holds key 10, and the
    handle of that key. *)
Definition s_one : Sharded.ShardedFdKVCache Z Z :=
  snd (s_insert (s_construct 2 8) 1 10 100).
Definition s_one_handle : Z := fst (s_insert (s_construct 2 8) 1 10 100).

Lemma s_one_reachable : s_reachable 2 8 s_one.
Proof. apply s_reachable_insert; [exact Single.is_u8_1|constructor]. Qed.

Lemma Construct_is_empty_witness :
  let C := s_construct 2 8 in
  Sharded.size C = 0 /\
  1 <= Sharded.shard_count_ C <= 256 /\
  Z.of_nat (length (Sharded.shards_ C)) = Sharded.shard_count_ C /\
  1 <= Sharded.per_shard_capacity_ C <= 2 ^ 24 /\
  (forall i sh, Sharded.shards_ C !! i = Some sh ->
     Z.of_nat (length (Sharded.slots sh)) = Sharded.per_shard_capacity_ C) /\
  (forall k, s_find_handle C k = FdToken.kNull) /\
  (forall h, s_read C h = None /\ Sharded.Get 0 0 C h = None) /\
  (forall h, s_erase C h = (false, C)) /\
  (forall h w, s_write C h w = (false, C)).
Proof.
  refine (Sharded.Construct_is_empty 0 0 Flat.int_hash Flat.int_equal
            Flat.int_equal_spec 2 8 _).
  lia.
Defined.

Lemma sharded_insert_round_trip_witness :
  let C := s_construct 2 8 in
  s_find_handle s_one 10 = s_one_handle /\
  fst (Sharded.DecodePosition s_one_handle)
  = Sharded.ShardForKey Flat.int_hash C 10 /\
  (exists v0, s_read s_one s_one_handle = Some v0) /\
  (s_find_handle C 10 = FdToken.kNull ->
   s_read s_one s_one_handle = Some 100 /\
   FdToken.Type_ s_one_handle = 1 /\
   Sharded.size s_one = Sharded.size C + 1) /\
  (s_find_handle C 10 <> FdToken.kNull ->
   s_one = C /\ s_one_handle = s_find_handle C 10).
Proof.
  refine (Sharded.sharded_insert_round_trip 0 0 Flat.int_hash Flat.int_equal
            Flat.int_equal_spec 2 8 (s_construct 2 8) s_one 1 10 100
            s_one_handle _ _ _ _ _).
  - lia.
  - constructor.
  - exact Single.is_u8_1.
  - apply surjective_pairing.
  - vm_compute. discriminate.
Defined.

Lemma sharded_write_then_read_witness :
  (s_read s_one s_one_handle = None ->
   s_write s_one s_one_handle Z.succ = (false, s_one)) /\
  (forall v0, s_read s_one s_one_handle = Some v0 ->
     exists C', s_write s_one s_one_handle Z.succ = (true, C') /\
       s_read C' s_one_handle = Some (Z.succ v0) /\
       Sharded.size C' = Sharded.size s_one /\
       (forall k, s_find_handle C' k = s_find_handle s_one k) /\
       (forall h', Sharded.DecodePosition h' <> Sharded.DecodePosition s_one_handle ->
                   s_read C' h' = s_read s_one h')).
Proof.
  refine (Sharded.sharded_write_then_read 0 0 Flat.int_hash Flat.int_equal
            Flat.int_equal_spec 2 8 s_one s_one_handle Z.succ _ _).
  - lia.
  - exact s_one_reachable.
Defined.

Lemma sharded_erase_witness :
  (s_read s_one s_one_handle = None ->
   s_erase s_one s_one_handle = (false, s_one)) /\
  (forall v0, s_read s_one s_one_handle = Some v0 ->
     exists C' k,
       s_erase s_one s_one_handle = (true, C') /\
       s_find_handle s_one k = s_one_handle /\
       Sharded.size C' = Sharded.size s_one - 1 /\
       s_read C' s_one_handle = None /\
       s_find_handle C' k = FdToken.kNull /\
       (forall k', k' <> k ->
          s_find_handle C' k' = s_find_handle s_one k' /\
          s_read C' (s_find_handle s_one k')
          = s_read s_one (s_find_handle s_one k'))).
Proof.
  refine (Sharded.sharded_erase 0 0 Flat.int_hash Flat.int_equal
            Flat.int_equal_spec 2 8 s_one s_one_handle _ _ _).
  - lia.
  - exact s_one_reachable.
  - vm_compute. split; [discriminate|reflexivity].
Defined.

Lemma sharded_size_exact_witness :
  Sharded.size s_one =
    Sharded.sum_over (fun sh => Single.count_occupied (Sharded.slots sh))
                     (Sharded.shards_ s_one) /\
  0 <= Sharded.size s_one
    <= Sharded.shard_count_ s_one * Sharded.per_shard_capacity_ s_one /\
  Sharded.shard_count_ s_one = Sharded.NormalizeShardCount 2 /\
  Sharded.per_shard_capacity_ s_one =
    Sharded.ComputePerShardCapacity (Sharded.NormalizeShardCount 2) 8 /\
  Z.of_nat (length (Sharded.shards_ s_one)) = Sharded.shard_count_ s_one /\
  (forall i sh, Sharded.shards_ s_one !! i = Some sh ->
     Z.of_nat (length (Sharded.slots sh)) = Sharded.per_shard_capacity_ s_one) /\
  (forall i j sh sh' p q s s',
     Sharded.shards_ s_one !! i = Some sh -> Sharded.shards_ s_one !! j = Some sh' ->
     Sharded.slots sh !! p = Some s -> Sharded.slots sh' !! q = Some s' ->
     Single.slot_occupied s = true -> Single.slot_occupied s' = true ->
     Single.slot_key s = Single.slot_key s' -> i = j /\ p = q).
Proof.
  refine (Sharded.sharded_size_exact 0 0 Flat.int_hash Flat.int_equal
            Flat.int_equal_spec 2 8 s_one _ _).
  - lia.
  - exact s_one_reachable.
Defined.

Lemma sharded_insert_iff_shard_not_full_witness :
  let sh := Sharded.shard_at s_one (Sharded.ShardForKey Flat.int_hash s_one 12) in
  let r := s_insert s_one 2 12 120 in
  (fst r = FdToken.kNull <->
   Single.count_occupied (Sharded.slots sh) = Sharded.per_shard_capacity_ s_one) /\
  (fst r = FdToken.kNull -> snd r = s_one) /\
  (forall k', k' <> 12 ->
     s_find_handle (snd r) k' = s_find_handle s_one k' /\
     s_read (snd r) (s_find_handle s_one k')
     = s_read s_one (s_find_handle s_one k')).
Proof.
  refine (Sharded.sharded_insert_iff_shard_not_full 0 0 Flat.int_hash
            Flat.int_equal Flat.int_equal_spec 2 8 s_one 2 12 120
            (Sharded.shard_at s_one (Sharded.ShardForKey Flat.int_hash s_one 12))
            _ _ _ _ _).
  - lia.
  - exact s_one_reachable.
  - unfold is_u8. lia.
  - vm_compute. reflexivity.
  - vm_compute. reflexivity.
Defined.

Lemma sharded_upsert_in_place_witness :
  let h0 := s_find_handle s_one 10 in
  let h := fst (s_insert_or_assign s_one 2 10 200) in
  let C' := snd (s_insert_or_assign s_one 2 10 200) in
  h <> FdToken.kNull /\
  Sharded.DecodePosition h = Sharded.DecodePosition h0 /\
  FdToken.Generation h = FdToken.Generation h0 /\
  FdToken.Type_ h = 2 /\
  s_find_handle C' 10 = h /\
  s_read C' h = Some 200 /\
  Sharded.size C' = Sharded.size s_one /\
  (FdToken.Type_ h0 <> 2 -> s_read C' h0 = None) /\
  (forall k', k' <> 10 ->
     s_find_handle C' k' = s_find_handle s_one k' /\
     s_read C' (s_find_handle s_one k') = s_read s_one (s_find_handle s_one k')).
Proof.
  refine (Sharded.sharded_upsert_in_place 0 0 Flat.int_hash Flat.int_equal
            Flat.int_equal_spec 2 8 s_one 2 10 200 _ _ _ _).
  - lia.
  - exact s_one_reachable.
  - unfold is_u8. lia.
  - vm_compute. discriminate.
Defined.

Lemma sharded_valid_handle_is_current_witness :
  (s_read s_one s_one_handle <> None <->
   s_one_handle <> FdToken.kNull /\
   exists k, s_find_handle s_one k = s_one_handle) /\
  (forall k, s_find_handle s_one k <> FdToken.kNull ->
     fst (Sharded.DecodePosition (s_find_handle s_one k))
     = Sharded.ShardForKey Flat.int_hash s_one k /\
     s_read s_one (s_find_handle s_one k) <> None) /\
  (forall k1 k2, s_find_handle s_one k1 <> FdToken.kNull ->
     s_find_handle s_one k1 = s_find_handle s_one k2 -> k1 = k2).
Proof.
  refine (Sharded.sharded_valid_handle_is_current 0 0 Flat.int_hash
            Flat.int_equal Flat.int_equal_spec 2 8 s_one s_one_handle _ _ _).
  - lia.
  - exact s_one_reachable.
  - vm_compute. split; [discriminate|reflexivity].
Defined.


(** ** The single-owner cache reserved for 2^32 entries *)

(** [Reserve] takes any [std::size_t], but positions and the cursor
    [next_unused_] are [std::uint32_t] and [0xffffffff] is the value
    [kInvalidPosition].  The states below are those of a cache filled
    through the cursor, one new key after the other: keys and values are
    integers, key [i] is stored in slot [i] with type 1 and value 0. *)

Definition fill_step (ck : Single.FdKVCache Z Z * Z) : Single.FdKVCache Z Z * Z :=
  (snd (Single.i_insert (fst ck) 1 (snd ck) 0), snd ck + 1).

(** The state after the keys [0 .. k-1] were inserted into a new cache
    of [n] slots. *)
Record Filled (n k : Z) (c : Single.FdKVCache Z Z) : Prop := mkFilled {
  fl_len : Z.of_nat (length (Single.slots_ c)) = n;
  fl_free : Single.free_positions_ c = [];
  fl_next : Single.next_unused_ c = k;
  fl_size : Single.cache_size_ c = k;
  fl_index : Flat.FWf Flat.int_hash (Single.key_to_position_ c);
  fl_isize : Flat.size_ (Single.key_to_position_ c) = k;
  fl_imax : Flat.max_entries_ (Single.key_to_position_ c) = n;
  fl_absent : forall j, k <= j -> Flat.Find Flat.int_hash Flat.int_equal (Single.key_to_position_ c) j = None;
  fl_present : forall i, 0 <= i < k ->
      Flat.Find Flat.int_hash Flat.int_equal (Single.key_to_position_ c) i = Some i /\
      Single.slots_ c !! Z.to_nat i = Some (Single.mkSlot i 0 1 1 true);
  fl_fresh : forall i, k <= i < n ->
      Single.slots_ c !! Z.to_nat i = Some (Single.Slot0 0 0);
  fl_count : Single.count_occupied (Single.slots_ c) = k
}.

Lemma Filled_reserve (n : Z) : 1 <= n <= 2 ^ 62 -> Filled n 0 (Single.i_reserve n).
Proof.
  intros Hn.
  destruct (Flat.Init_wf 0 Flat.int_hash Flat.int_equal Flat.int_equal_spec n
              ltac:(lia)) as (Hwf & Hmax & Hsz & _ & Hnone).
  unfold Single.i_reserve, Single.Reserve.
  destruct (Z.eqb_spec n 0) as [|_]; [lia|].
  constructor; cbn [Single.slots_ Single.free_positions_ Single.next_unused_
                    Single.cache_size_ Single.key_to_position_].
  - rewrite length_replicate. lia.
  - reflexivity.
  - reflexivity.
  - reflexivity.
  - exact Hwf.
  - exact Hsz.
  - exact Hmax.
  - intros j _. apply Hnone.
  - intros i Hi. lia.
  - intros i Hi. apply lookup_replicate. split; [reflexivity|lia].
  - unfold Single.count_occupied. now apply countb_replicate_false.
Qed.

(** [Insert] of the next key while the cursor is below [0xffffffff]. *)
Lemma Filled_insert (n k : Z) (c : Single.FdKVCache Z Z) :
  Filled n k c -> 0 <= k < n -> k < 2 ^ 32 - 1 ->
  Filled n (k + 1) (snd (Single.i_insert c 1 k 0)).
Proof.
  intros HF Hk Hk32.
  pose proof (fl_fresh n k c HF k ltac:(lia)) as Hold.
  destruct (Flat.Insert_absent_spec Flat.int_hash Flat.int_equal
              Flat.int_equal_spec (Single.key_to_position_ c) k k
              (fl_index n k c HF) (fl_absent n k c HF k ltac:(lia)))
    as [Hroom _].
  destruct (Hroom ltac:(rewrite (fl_isize n k c HF), (fl_imax n k c HF); lia))
    as (m' & Hins & Hwf' & Hfk & Hfo & Hsz' & Hmax').
  unfold Single.i_insert, Single.Insert.
  rewrite (fl_absent n k c HF k ltac:(lia)).
  unfold Single.AllocatePosition.
  rewrite (fl_free n k c HF), (fl_next n k c HF), (fl_len n k c HF).
  destruct (Z.geb_spec k n) as [|_]; [lia|].
  change kInvalidPosition with 4294967295.
  destruct (Z.eqb_spec k 4294967295) as [|_]; [lia|].
  cbn [Single.slots_ Single.free_positions_ Single.next_unused_
       Single.cache_size_ Single.key_to_position_].
  rewrite Hins. cbn [negb snd].
  rewrite (list_alter_as_insert _ _ _ _ Hold). cbn [Single.slot_generation Single.Slot0].
  pose proof (lookup_lt_Some _ _ _ Hold) as Hlt.
  constructor; cbn [Single.slots_ Single.free_positions_ Single.next_unused_
                    Single.cache_size_ Single.key_to_position_].
  - rewrite length_insert. apply (fl_len n k c HF).
  - reflexivity.
  - unfold wrap32. apply Z.mod_small. lia.
  - rewrite (fl_size n k c HF). unfold wrap64. apply Z.mod_small. lia.
  - exact Hwf'.
  - rewrite Hsz'. now rewrite (fl_isize n k c HF).
  - rewrite Hmax'. apply (fl_imax n k c HF).
  - intros j Hj. rewrite Hfo by lia. apply (fl_absent n k c HF). lia.
  - intros i Hi. destruct (Z.eq_dec i k) as [->|Hne].
    + split; [exact Hfk|]. now apply list_lookup_insert_eq.
    + destruct (fl_present n k c HF i ltac:(lia)) as [H1 H2].
      split; [now rewrite Hfo|].
      rewrite list_lookup_insert_ne; [exact H2|]. intros E.
      apply Z2Nat.inj in E; lia.
  - intros i Hi. rewrite list_lookup_insert_ne.
    + apply (fl_fresh n k c HF). lia.
    + intros E. apply Z2Nat.inj in E; lia.
  - unfold Single.count_occupied.
    rewrite (countb_insert _ _ _ _ _ Hold). cbn [Single.slot_occupied Single.Slot0].
    pose proof (fl_count n k c HF) as Hc. unfold Single.count_occupied in Hc. lia.
Qed.

Lemma iter_fill (n : Z) (m : N) :
  1 <= n <= 2 ^ 62 -> Z.of_N m <= n -> Z.of_N m <= 2 ^ 32 - 1 ->
  exists c, N.iter m fill_step (Single.i_reserve n, 0) = (c, Z.of_N m) /\
            Filled n (Z.of_N m) c /\ Single.i_reachable n c.
Proof.
  intros Hn. induction m as [|m IH] using N.peano_ind; intros H1 H2.
  - exists (Single.i_reserve n). split; [reflexivity|].
    split; [now apply Filled_reserve|constructor].
  - rewrite N2Z.inj_succ in *.
    destruct (IH ltac:(lia) ltac:(lia)) as (c & E & HF & HR).
    rewrite N.iter_succ, E. unfold fill_step at 1. cbn [fst snd].
    eexists. split; [reflexivity|]. split.
    + replace (Z.succ (Z.of_N m)) with (Z.of_N m + 1) by lia.
      apply Filled_insert; [exact HF|lia|lia].
    + apply Single.i_reachable_insert; [exact Single.is_u8_1|exact HR].
Qed.

(** With the cursor at [0xffffffff] and a slot left, [Insert] of a new
    key takes position [0xffffffff] from the cursor, reads it as
    [kInvalidPosition] and returns [kNull]; the cursor has wrapped to
    0. *)
Lemma Filled_insert_wraps (n : Z) (c : Single.FdKVCache Z Z) (j : Z) :
  Filled n (2 ^ 32 - 1) c -> 2 ^ 32 - 1 < n -> 2 ^ 32 - 1 <= j ->
  Single.i_insert c 1 j 0 =
  (FdToken.kNull,
   Single.mkCache (Single.slots_ c) [] (Single.key_to_position_ c) 0
                  (Single.cache_size_ c)).
Proof.
  intros HF Hn Hj.
  unfold Single.i_insert, Single.Insert.
  rewrite (fl_absent _ _ c HF j Hj).
  unfold Single.AllocatePosition.
  rewrite (fl_free _ _ c HF), (fl_next _ _ c HF), (fl_len _ _ c HF).
  destruct (Z.geb_spec (2 ^ 32 - 1) n) as [|_]; [lia|].
  reflexivity.
Qed.

(** The next [Insert] of a new key then takes slot 0 from the cursor,
    over the key that is stored there. *)
Lemma Filled_insert_overwrites (n : Z) (c : Single.FdKVCache Z Z) (j : Z) :
  Filled n (2 ^ 32 - 1) c -> 2 ^ 32 - 1 < n -> 2 ^ 32 - 1 <= j ->
  exists m',
    snd (Single.i_insert
           (Single.mkCache (Single.slots_ c) [] (Single.key_to_position_ c) 0
                           (Single.cache_size_ c)) 1 j 0) =
    Single.mkCache (<[0%nat := Single.mkSlot j 0 1 1 true]> (Single.slots_ c))
                   [] m' 1 (2 ^ 32) /\
    Flat.FWf Flat.int_hash m' /\
    Flat.Find Flat.int_hash Flat.int_equal m' j = Some 0 /\
    (forall k', k' <> j ->
       Flat.Find Flat.int_hash Flat.int_equal m' k' =
       Flat.Find Flat.int_hash Flat.int_equal (Single.key_to_position_ c) k') /\
    Flat.size_ m' = 2 ^ 32 /\ Flat.max_entries_ m' = n.
Proof.
  intros HF Hn Hj.
  destruct (fl_present _ _ c HF 0 ltac:(lia)) as [_ Hold].
  change (Z.to_nat 0) with 0%nat in Hold.
  destruct (Flat.Insert_absent_spec Flat.int_hash Flat.int_equal
              Flat.int_equal_spec (Single.key_to_position_ c) j 0
              (fl_index _ _ c HF) (fl_absent _ _ c HF j Hj))
    as [Hroom _].
  destruct (Hroom ltac:(rewrite (fl_isize _ _ c HF), (fl_imax _ _ c HF); lia))
    as (m' & Hins & Hwf' & Hfk & Hfo & Hsz' & Hmax').
  exists m'.
  unfold Single.i_insert, Single.Insert.
  cbn [Single.key_to_position_].
  rewrite (fl_absent _ _ c HF j Hj).
  unfold Single.AllocatePosition.
  cbn [Single.slots_ Single.free_positions_ Single.next_unused_
       Single.cache_size_ Single.key_to_position_].
  rewrite (fl_len _ _ c HF).
  destruct (Z.geb_spec 0 n) as [|_]; [lia|].
  change (0 =? kInvalidPosition) with false.
  cbn [Single.slots_ Single.free_positions_ Single.next_unused_
       Single.cache_size_ Single.key_to_position_].
  rewrite Hins. cbn [negb snd].
  change (Z.to_nat 0) with 0%nat.
  rewrite (list_alter_as_insert _ _ _ _ Hold). cbn [Single.slot_generation].
  rewrite (fl_size _ _ c HF).
  split; [reflexivity|]. split; [exact Hwf'|]. split; [exact Hfk|].
  split; [exact Hfo|]. split.
  - rewrite Hsz', (fl_isize _ _ c HF). lia.
  - rewrite Hmax'. apply (fl_imax _ _ c HF).
Qed.

(** When the index is at its limit, [Insert] of a new key takes the
    slot at the cursor all the same, writes it, is refused by the index
    and rolls back by marking the slot free: what the slot held is
    lost. *)
Lemma full_index_insert_rolls_back (slots : list (Single.Slot Z Z))
      (m : Flat.FlatIndexMap Z) (sz j : Z) (old : Single.Slot Z Z) :
  1 < Z.of_nat (length slots) -> slots !! 1%nat = Some old ->
  Flat.FWf Flat.int_hash m -> Flat.max_entries_ m <= Flat.size_ m ->
  Flat.Find Flat.int_hash Flat.int_equal m j = None ->
  Single.i_insert (Single.mkCache slots [] m 1 sz) 1 j 0 =
  (FdToken.kNull,
   Single.mkCache
     (<[1%nat := Single.mkSlot j 0 (Single.slot_generation old) 1 false]> slots)
     [1] m 2 sz).
Proof.
  intros Hlen Hold Hwf Hfull Hf.
  destruct (Flat.Insert_absent_spec Flat.int_hash Flat.int_equal
              Flat.int_equal_spec m j 1 Hwf Hf) as [_ Hrefused].
  unfold Single.i_insert, Single.Insert.
  cbn [Single.key_to_position_]. rewrite Hf.
  unfold Single.AllocatePosition.
  cbn [Single.slots_ Single.free_positions_ Single.next_unused_
       Single.cache_size_ Single.key_to_position_].
  destruct (Z.geb_spec 1 (Z.of_nat (length slots))) as [|_]; [lia|].
  change (1 =? kInvalidPosition) with false.
  cbn [Single.slots_ Single.free_positions_ Single.next_unused_
       Single.cache_size_ Single.key_to_position_].
  rewrite (Hrefused Hfull). cbn [negb].
  change (Z.to_nat 1) with 1%nat.
  rewrite (list_alter_as_insert _ _ _ _ Hold).
  pose proof (lookup_lt_Some _ _ _ Hold) as Hlt.
  rewrite (list_alter_as_insert _ _ 1%nat
             (Single.mkSlot j 0 (Single.slot_generation old) 1 true))
    by (now apply list_lookup_insert_eq).
  rewrite list_insert_insert_eq. reflexivity.
Qed.

(** C6 -- bounded capacity holds of every cache reserved for fewer than
    2^32 entries, and fails at 2^32.  There, after the keys
    [0 .. 2^32 - 2] were inserted, the cursor is [0xffffffff]:
    [Insert] of the new key [2^32 - 1] returns [kNull] with one slot
    left, and wraps the cursor; the same [Insert] again takes slot 0
    over key 0, so that [size] is the capacity with one slot fewer
    occupied; and [Insert] of the new key [2^32] at [size = capacity]
    returns [kNull] but does not leave the cache as it is: it frees
    slot 1, and the handle of key 1, which [Get] accepted, is
    refused. *)
Theorem bounded_capacity_fails_at_2_32 :
  (forall n c, 0 <= n < 2 ^ 32 -> Single.i_reachable n c ->
     0 <= Single.size c <= Single.capacity n /\
     Single.size c = Single.count_occupied (Single.slots_ c) /\
     (Single.size c = Single.capacity n ->
      forall t k v, Single.i_find_handle c k = FdToken.kNull ->
                    Single.i_insert c t k v = (FdToken.kNull, c))) /\
  let n := 2 ^ 32 in
  let cP := fst (N.iter (2 ^ 32 - 1) fill_step (Single.i_reserve n, 0)) in
  let cA := snd (Single.i_insert cP 1 (2 ^ 32 - 1) 0) in
  let cB := snd (Single.i_insert cA 1 (2 ^ 32 - 1) 0) in
  let r := Single.i_insert cB 1 (2 ^ 32) 0 in
  let h1 := FdToken.Make 1 1 1 in
  Single.i_reachable n cB /\
  Single.size cP = Single.capacity n - 1 /\
  Single.i_find_handle cP (2 ^ 32 - 1) = FdToken.kNull /\
  fst (Single.i_insert cP 1 (2 ^ 32 - 1) 0) = FdToken.kNull /\
  Single.size cB = Single.capacity n /\
  Single.count_occupied (Single.slots_ cB) = Single.capacity n - 1 /\
  Single.i_find_handle cB (2 ^ 32) = FdToken.kNull /\
  fst r = FdToken.kNull /\
  snd r <> cB /\
  Single.i_find_handle cB 1 = h1 /\
  Single.i_get cB h1 = Some 0 /\
  Single.i_get (snd r) h1 = None.
Proof.
  split.
  { intros n c Hn Hr.
    exact (Single.bounded_capacity 0 0 Flat.int_hash Flat.int_equal
             Flat.int_equal_spec n c Hn Hr). }
  cbv zeta.
  assert (EN : Z.of_N (2 ^ 32 - 1) = 2 ^ 32 - 1) by reflexivity.
  destruct (iter_fill (2 ^ 32) (2 ^ 32 - 1) ltac:(lia) ltac:(lia) ltac:(lia))
    as (c & E & HF & HR).
  rewrite E. rewrite EN in HF. clear E EN. cbn [fst].
  assert (Hcap : Single.capacity (2 ^ 32) = 2 ^ 32) by reflexivity.
  rewrite Hcap.
  (* the refused insertion that wraps the cursor *)
  pose proof (Filled_insert_wraps (2 ^ 32) c (2 ^ 32 - 1) HF ltac:(lia) ltac:(lia))
    as EA.
  assert (HRA : Single.i_reachable (2 ^ 32)
                  (snd (Single.i_insert c 1 (2 ^ 32 - 1) 0)))
    by (apply Single.i_reachable_insert; [exact Single.is_u8_1|exact HR]).
  rewrite EA in *. cbn [fst snd] in *.
  (* the insertion over slot 0 *)
  destruct (Filled_insert_overwrites (2 ^ 32) c (2 ^ 32 - 1) HF
              ltac:(lia) ltac:(lia))
    as (m' & EB & Hwf' & Hfk & Hfo & Hsz' & Hmax').
  assert (HRB : Single.i_reachable (2 ^ 32)
                  (snd (Single.i_insert
                          (Single.mkCache (Single.slots_ c) []
                             (Single.key_to_position_ c) 0
                             (Single.cache_size_ c)) 1 (2 ^ 32 - 1) 0)))
    by (apply Single.i_reachable_insert; [exact Single.is_u8_1|exact HRA]).
  rewrite EB in *.
  destruct (fl_present _ _ c HF 0 ltac:(lia)) as [_ Hs0].
  destruct (fl_present _ _ c HF 1 ltac:(lia)) as [Hf1 Hs1].
  change (Z.to_nat 0) with 0%nat in Hs0. change (Z.to_nat 1) with 1%nat in Hs1.
  pose proof (fl_len _ _ c HF) as Hlen.
  set (slotsB := <[0%nat := Single.mkSlot (2 ^ 32 - 1) 0 1 1 true]>
                   (Single.slots_ c)) in *.
  assert (HsB1 : slotsB !! 1%nat = Some (Single.mkSlot 1 0 1 1 true))
    by (unfold slotsB; rewrite list_lookup_insert_ne by lia; exact Hs1).
  assert (HlenB : Z.of_nat (length slotsB) = 2 ^ 32)
    by (unfold slotsB; rewrite length_insert; exact Hlen).
  assert (HfC : Flat.Find Flat.int_hash Flat.int_equal m' (2 ^ 32) = None)
    by (rewrite Hfo by lia; apply (fl_absent _ _ c HF); lia).
  (* the insertion that the index refuses *)
  rewrite (full_index_insert_rolls_back slotsB m' (2 ^ 32) (2 ^ 32)
             (Single.mkSlot 1 0 1 1 true) ltac:(lia) HsB1 Hwf' ltac:(lia) HfC).
  cbn [fst snd Single.slot_generation].
  assert (HP : FdToken.Position (FdToken.Make 1 1 1) = 1) by reflexivity.
  assert (HT : FdToken.Type_ (FdToken.Make 1 1 1) = 1) by reflexivity.
  assert (HG : FdToken.Generation (FdToken.Make 1 1 1) = 1) by reflexivity.
  split; [exact HRB|]. split; [exact (fl_size _ _ c HF)|].
  split.
  { unfold Single.i_find_handle, Single.FindHandle.
    now rewrite (fl_absent _ _ c HF (2 ^ 32 - 1) ltac:(lia)). }
  split; [reflexivity|]. split; [reflexivity|]. split.
  { cbn [Single.slots_]. unfold slotsB, Single.count_occupied.
    rewrite (countb_insert _ _ _ _ _ Hs0). cbn [Single.slot_occupied].
    pose proof (fl_count _ _ c HF) as Hc. unfold Single.count_occupied in Hc.
    lia. }
  split.
  { unfold Single.i_find_handle, Single.FindHandle.
    cbn [Single.key_to_position_]. now rewrite HfC. }
  split; [reflexivity|]. split.
  { intros Eq. apply (f_equal Single.next_unused_) in Eq. discriminate Eq. }
  split.
  { unfold Single.i_find_handle, Single.FindHandle, Single.BuildHandle,
      Single.slot_at.
    cbn [Single.key_to_position_ Single.slots_].
    rewrite Hfo by lia. rewrite Hf1. change (Z.to_nat 1) with 1%nat.
    rewrite HsB1. reflexivity. }
  split.
  - assert (HV : Single.ValidateHandle 0 0
                   (Single.mkCache slotsB [] m' 1 (2 ^ 32))
                   (FdToken.Make 1 1 1) = 1).
    { unfold Single.ValidateHandle, Single.slot_at.
      change (FdToken.IsNull (FdToken.Make 1 1 1)) with false.
      cbn [Single.slots_]. rewrite HP, HT, HG, HlenB.
      change (Z.to_nat 1) with 1%nat. rewrite HsB1. vm_compute. reflexivity. }
    unfold Single.i_get, Single.Get. rewrite HV.
    change (1 =? kInvalidPosition) with false.
    unfold Single.slot_at. cbn [Single.slots_].
    change (Z.to_nat 1) with 1%nat. rewrite HsB1. reflexivity.
  - assert (HV : Single.ValidateHandle 0 0
                   (Single.mkCache
                      (<[1%nat := Single.mkSlot (2 ^ 32) 0 1 1 false]> slotsB)
                      [1] m' 2 (2 ^ 32))
                   (FdToken.Make 1 1 1) = kInvalidPosition).
    { unfold Single.ValidateHandle, Single.slot_at.
      change (FdToken.IsNull (FdToken.Make 1 1 1)) with false.
      cbn [Single.slots_]. rewrite HP, length_insert, HlenB.
      change (Z.to_nat 1) with 1%nat.
      rewrite list_lookup_insert_eq
        by (apply Nat2Z.inj_lt; rewrite HlenB; lia).
      vm_compute. reflexivity. }
    unfold Single.i_get, Single.Get. rewrite HV. reflexivity.
Qed.
